(** * Tensor operations of the agent service: cosine similarity, influence
    score and cascading risk propagation

    Shallow embedding of [src/services/agent/tensor_ops.cpp].  The C++ type
    [float] is IEEE-754 binary32; it is modelled by the executable
    specification of floating-point numbers of the Standard Library
    ([SpecFloat]) instantiated at precision 24 and maximal exponent 128, with
    round-to-nearest-even.  Every arithmetic operation of the source is one
    correctly rounded binary32 operation (no extended intermediate precision,
    no fused multiply-add).  All NaNs are identified, as in [SpecFloat].

    A [const float*] argument is modelled by the list of the floats that are
    readable from the pointer on; reading at an index outside of the list is
    undefined behaviour in the source and a failure ([None]) here. *)

From Stdlib Require Import ZArith List Bool Lia.
From Stdlib Require Import Floats.SpecFloat.
Import ListNotations.

Local Open Scope Z_scope.

(* ===================================================================== *)
(** ** Binary32 arithmetic *)
(* ===================================================================== *)

Module Binary32.

Definition prec : Z := 24.
Definition emax : Z := 128.

(** A value of the C++ type [float]. *)
Definition float : Type := spec_float.

(** The values of [spec_float] that are genuine binary32 numbers: a finite
    number has its canonical mantissa and exponent. *)
Definition well_formed (x : float) : Prop := valid_binary prec emax x = true.

Definition fadd : float -> float -> float := SFadd prec emax.
Definition fsub : float -> float -> float := SFsub prec emax.
Definition fmul : float -> float -> float := SFmul prec emax.
Definition fdiv : float -> float -> float := SFdiv prec emax.
Definition fsqrt : float -> float := SFsqrt prec emax.

(** [x == y] and [x < y] of C++: false as soon as one side is a NaN. *)
Definition feqb : float -> float -> bool := SFeqb.
Definition fltb : float -> float -> bool := SFltb.
Definition fleb : float -> float -> bool := SFleb.

(** The literals [0.0f] and [1.0f], and the other infinities and zeros. *)
Definition zero : float := S754_zero false.
Definition neg_zero : float := S754_zero true.
Definition one : float := S754_finite false 8388608 (-23).
Definition infinity : float := S754_infinity false.
Definition neg_infinity : float := S754_infinity true.
Definition nan : float := S754_nan.

(** The binary32 number nearest to an integer, and the number [m * 2^e]
    rounded to binary32: used to write concrete inputs. *)
Definition of_Z (n : Z) : float := binary_normalize prec emax n 0 false.
Definition of_scaled (m e : Z) : float := binary_normalize prec emax m e false.

(** The decimal literal [n / d] of the source text, as a binary32 number. *)
Definition decimal (n d : Z) : float := fdiv (of_Z n) (of_Z d).

(** [std::min(a, b)] of <algorithm>: [(b < a) ? b : a]. *)
Definition fmin (a b : float) : float := if fltb b a then b else a.

(** Classification. *)
Definition is_zero (x : float) : bool :=
  match x with S754_zero _ => true | _ => false end.

Definition is_nan (x : float) : bool :=
  match x with S754_nan => true | _ => false end.

(** Neither a NaN nor an infinity. *)
Definition is_finite (x : float) : bool :=
  match x with S754_zero _ | S754_finite _ _ _ => true | _ => false end.

End Binary32.

Import Binary32.

(* ===================================================================== *)
(** ** Buffers and counted loops *)
(* ===================================================================== *)

(** The floats readable from a [const float*]. *)
Definition buffer : Type := list float.

(** [p[i]]. *)
Definition load (p : buffer) (i : Z) : option float :=
  if i <? 0 then None else nth_error p (Z.to_nat i).

Definition bind {A B : Type} (c : option A) (k : A -> option B) : option B :=
  match c with
  | Some a => k a
  | None => None
  end.

Notation "x <- c ;; k" := (bind c (fun x => k))
  (at level 61, c at next level, right associativity).

(** [for (int i = i0; i < i0 + n; ++i) s = body(i, s);] with [n] the number
    of iterations that remain. *)
Fixpoint for_range {S : Type} (n : nat) (i : Z) (body : Z -> S -> option S)
  (s : S) : option S :=
  match n with
  | O => Some s
  | Datatypes.S n' => s' <- body i s ;; for_range n' (i + 1) body s'
  end.

(** [for (int i = 0; i < size; ++i)]: no iteration when [size <= 0]. *)
Definition for_upto {S : Type} (size : Z) (body : Z -> S -> option S) (s : S)
  : option S :=
  for_range (Z.to_nat size) 0 body s.

(* ===================================================================== *)
(** ** The three functions of tensor_ops.cpp *)
(* ===================================================================== *)

(** The three running sums of [cosine_similarity]. *)
Record sums : Type := mk_sums { dot : float; norm_v1 : float; norm_v2 : float }.

Definition sums_init : sums := mk_sums zero zero zero.

(** The body of the loop of [cosine_similarity]. *)
Definition cosine_step (v1 v2 : buffer) (i : Z) (s : sums) : option sums :=
  a <- load v1 i ;;
  b <- load v2 i ;;
  Some (mk_sums (fadd (dot s) (fmul a b))
                (fadd (norm_v1 s) (fmul a a))
                (fadd (norm_v2 s) (fmul b b))).

Definition cosine_sums (v1 v2 : buffer) (size : Z) : option sums :=
  for_upto size (cosine_step v1 v2) sums_init.

(** What [cosine_similarity] returns once the loop has run. *)
Definition cosine_result (s : sums) : float :=
  if feqb (norm_v1 s) zero || feqb (norm_v2 s) zero then zero
  else fdiv (dot s) (fmul (fsqrt (norm_v1 s)) (fsqrt (norm_v2 s))).

Definition cosine_similarity (v1 v2 : buffer) (size : Z) : option float :=
  s <- cosine_sums v1 v2 size ;;
  Some (cosine_result s).

Definition calculate_influence_tensor (firm_tensor node_tensor : buffer)
  (size : Z) (centrality : float) : option float :=
  sim <- cosine_similarity firm_tensor node_tensor size ;;
  Some (fmul sim centrality).

(** [1.0f - std::min(1.0f, local_failure_prob * multiplier)]. *)
Definition local_p_success (local_failure_prob multiplier : float) : float :=
  fsub one (fmin one (fmul local_failure_prob multiplier)).

(** The body of the loop of [propagate_risk]. *)
Definition parent_step (parent_probs : buffer) (i : Z) (p : float)
  : option float :=
  x <- load parent_probs i ;;
  Some (fmul p x).

Definition parent_p_success (parent_probs : buffer) (num_parents : Z)
  : option float :=
  for_upto num_parents (parent_step parent_probs) one.

Definition propagate_risk (local_failure_prob multiplier : float)
  (parent_probs : buffer) (num_parents : Z) : option float :=
  p <- parent_p_success parent_probs num_parents ;;
  Some (fmul (local_p_success local_failure_prob multiplier) p).

(* ===================================================================== *)
(** ** The quantities the specification names *)
(* ===================================================================== *)

(** The dot product of two vectors, summed in index order from [0.0f]. *)
Definition dot_product (v1 v2 : list float) : float :=
  fold_left (fun acc ab => fadd acc (fmul (fst ab) (snd ab))) (combine v1 v2) zero.

(** The squared Euclidean norm of a vector, summed in index order. *)
Definition squared_norm (v : list float) : float :=
  fold_left (fun acc a => fadd acc (fmul a a)) v zero.

(** The Euclidean norm. *)
Definition euclidean_norm (v : list float) : float := fsqrt (squared_norm v).

(** The product of the parent probabilities, in index order from [1.0f]. *)
Definition product (parents : list float) : float :=
  fold_left fmul parents one.

(** A vector all of whose components are zeros ([+0.0f] or [-0.0f]). *)
Definition zero_vector (v : list float) : Prop :=
  Forall (fun x => is_zero x = true) v.

(** The sign of a float, when it has one: what rounding is asked for. *)
Definition sign_is (s : bool) (x : float) : Prop :=
  match x with
  | S754_zero s' | S754_infinity s' | S754_finite s' _ _ => s' = s
  | S754_nan => True
  end.

(* ===================================================================== *)
(** ** Vocabulary of the rounding proofs *)
(* ===================================================================== *)

(** Where the remainder [r] of a division by [b] lies: on the quotient, below
    the middle of the gap to the next integer, on it or above it. *)
Definition loc_of (r b : Z) : location :=
  if r =? 0 then loc_Exact else loc_Inexact (2 * r ?= b).

(** A shift record that stands for the non-negative rational [a / b]: its
    mantissa is the integer part and its two bits locate the remainder. *)
Definition represents (a b : Z) (mrs : shr_record) : Prop :=
  0 <= a /\ 0 < b /\ shr_m mrs = a / b /\
  loc_of_shr_record mrs = loc_of (a mod b) b.

(** [q] is the integer nearest to [a / b], the even one in case of a tie. *)
Definition nearest_even (a b q : Z) : Prop :=
  (2 * q - 1) * b <= 2 * a <= (2 * q + 1) * b /\
  ((2 * q - 1) * b = 2 * a \/ 2 * a = (2 * q + 1) * b -> Z.even q = true).

(** The value of a binary32 number counted in units of [2^-149], the least
    positive binary32 number; the infinities stand at [2^128]. *)
Definition ival (x : float) : Z :=
  match x with
  | S754_zero _ => 0
  | S754_nan => 0
  | S754_infinity s => cond_Zopp s (2 ^ 277)
  | S754_finite s m e => cond_Zopp s (Zpos m * 2 ^ (e + 149))
  end.

(** A binary32 number that is neither a NaN nor negative. *)
Definition nonneg (x : float) : Prop :=
  well_formed x /\ is_nan x = false /\ 0 <= ival x.

(** [x <= y] between non-negative numbers, or one of the two is a NaN. *)
Definition le_or_nan (x y : float) : Prop :=
  is_nan x = true \/ is_nan y = true \/
  (nonneg x /\ nonneg y /\ ival x <= ival y).

(** A binary32 number that is not negative; it may be a NaN, which is what
    zero times infinity yields. *)
Definition nn (x : float) : Prop := well_formed x /\ 0 <= ival x.

(** Exchanging the two vectors exchanges the two squared norms. *)
Definition swap_sums (s : sums) : sums := mk_sums (dot s) (norm_v2 s) (norm_v1 s).

(** The bounds [1 - 2^-22] and [1 + 2^-22] of the similarity of a vector
    with itself. *)
Definition self_similarity_lo : float := S754_finite false 16777212 (-24).
Definition self_similarity_hi : float := S754_finite false 8388610 (-23).

(* ===================================================================== *)
(** ** Further vocabulary *)
(* ===================================================================== *)

(** A probability: a binary32 number between [0] and [1]. *)
Definition unit_interval (x : float) : Prop := nonneg x /\ ival x <= 2 ^ 149.

(** The least and the greatest square roots of positive binary32 numbers:
    the roots of the least subnormal number and of the greatest finite one. *)
Definition sqrt_min : float := S754_finite false 11863283 (-98).
Definition sqrt_max : float := S754_finite false 16777215 40.

(** The zero with a negative sign, which an accumulator that starts from
    [0.0f] never holds. *)
Definition is_neg_zero (x : float) : bool :=
  match x with S754_zero true => true | _ => false end.


(** Equal, or two zeros that may differ in sign. *)
Definition same_up_to_zero_sign (x y : float) : Prop :=
  x = y \/ (is_zero x = true /\ is_zero y = true).

(* ===================================================================== *)
(** ** Counted loops over buffers *)
(* ===================================================================== *)

Section Loops.

Context {S : Type}.

Lemma for_range_ext (body1 body2 : Z -> S -> option S) :
  forall n i s,
    (forall j s', i <= j < i + Z.of_nat n -> body1 j s' = body2 j s') ->
    for_range n i body1 s = for_range n i body2 s.
Proof.
  induction n as [|n IH]; intros i s Hext; simpl; [reflexivity|].
  rewrite (Hext i s) by lia.
  destruct (body2 i s) as [s'|]; simpl; [|reflexivity].
  apply IH. intros j s'' Hj. apply Hext. lia.
Qed.

Lemma for_range_shift (body : Z -> S -> option S) :
  forall n i s,
    for_range n (i + 1) body s = for_range n i (fun j => body (j + 1)) s.
Proof.
  induction n as [|n IH]; intros i s; simpl; [reflexivity|].
  destruct (body (i + 1) s) as [s'|]; simpl; [|reflexivity].
  apply IH.
Qed.

End Loops.

Lemma load_nil i : load [] i = None.
Proof.
  unfold load. destruct (i <? 0); [reflexivity|].
  destruct (Z.to_nat i); reflexivity.
Qed.

Lemma load_head a (v : buffer) : load (a :: v) 0 = Some a.
Proof. reflexivity. Qed.

Lemma load_tail a (v : buffer) i : 0 <= i -> load (a :: v) (i + 1) = load v i.
Proof.
  intros Hi. unfold load.
  destruct (Z.ltb_spec (i + 1) 0); [lia|].
  destruct (Z.ltb_spec i 0); [lia|].
  replace (Z.to_nat (i + 1)) with (Datatypes.S (Z.to_nat i)) by lia.
  reflexivity.
Qed.

(** One pass of the loop of [cosine_similarity] over two vectors that have a
    common length computes the three sums at once. *)
Lemma cosine_loop_sums :
  forall (v1 v2 : list float) (s : sums),
    length v1 = length v2 ->
    for_range (length v1) 0 (cosine_step v1 v2) s =
    Some (mk_sums
            (fold_left (fun acc ab => fadd acc (fmul (fst ab) (snd ab)))
                       (combine v1 v2) (dot s))
            (fold_left (fun acc a => fadd acc (fmul a a)) v1 (norm_v1 s))
            (fold_left (fun acc a => fadd acc (fmul a a)) v2 (norm_v2 s))).
Proof.
  induction v1 as [|a v1 IH]; intros [|b v2] s Hlen; simpl in Hlen; try discriminate.
  - destruct s; reflexivity.
  - cbn [length for_range]. unfold cosine_step at 1. rewrite !load_head. cbn [bind].
    rewrite (for_range_shift (cosine_step (a :: v1) (b :: v2))).
    rewrite (for_range_ext _ (cosine_step v1 v2)).
    + rewrite IH by congruence. reflexivity.
    + intros j s' Hj. unfold cosine_step. rewrite !load_tail by lia. reflexivity.
Qed.

Lemma cosine_sums_full (v1 v2 : list float) (size : Z) :
  Z.of_nat (length v1) = size -> Z.of_nat (length v2) = size ->
  cosine_sums v1 v2 size =
  Some (mk_sums (dot_product v1 v2) (squared_norm v1) (squared_norm v2)).
Proof.
  intros H1 H2. unfold cosine_sums, for_upto.
  replace (Z.to_nat size) with (length v1) by lia.
  rewrite cosine_loop_sums by lia. reflexivity.
Qed.

(** The loop of [propagate_risk] multiplies the parents in index order. *)
Lemma parent_loop_product :
  forall (parents : list float) (p : float),
    for_range (length parents) 0 (parent_step parents) p =
    Some (fold_left fmul parents p).
Proof.
  induction parents as [|a parents IH]; intros p; [reflexivity|].
  cbn [length for_range]. unfold parent_step at 1. rewrite load_head. cbn [bind].
  rewrite (for_range_shift (parent_step (a :: parents))).
  rewrite (for_range_ext _ (parent_step parents)).
  - rewrite IH. reflexivity.
  - intros j s' Hj. unfold parent_step. rewrite load_tail by lia. reflexivity.
Qed.

Lemma parent_p_success_full (parents : list float) (k : Z) :
  Z.of_nat (length parents) = k ->
  parent_p_success parents k = Some (product parents).
Proof.
  intros Hk. unfold parent_p_success, for_upto.
  replace (Z.to_nat k) with (length parents) by lia.
  apply parent_loop_product.
Qed.

(** No iteration, hence no read, when the count is not positive. *)
Lemma for_upto_nonpos {S : Type} (size : Z) (body : Z -> S -> option S) (s : S) :
  size <= 0 -> for_upto size body s = Some s.
Proof.
  intros Hs. unfold for_upto. replace (Z.to_nat size) with O by lia. reflexivity.
Qed.

(** [fexp] and [emin] at binary32. *)
Lemma fexp32 e : fexp prec emax e = Z.max (e - 24) (-149).
Proof. reflexivity. Qed.

Lemma digits2_pos_log2 (m : positive) :
  Zpos (digits2_pos m) = Z.log2 (Zpos m) + 1.
Proof.
  induction m as [m IH|m IH|]; cbn [digits2_pos]; try reflexivity.
  - rewrite Pos2Z.inj_succ, IH. cbn [Z.log2]. destruct m; simpl; lia.
  - rewrite Pos2Z.inj_succ, IH. cbn [Z.log2]. destruct m; simpl; lia.
Qed.

Lemma Zdigits2_log2 (m : Z) : 0 < m -> Zdigits2 m = Z.log2 m + 1.
Proof. destruct m; try lia. intros _. apply digits2_pos_log2. Qed.

Lemma Zdigits2_nonneg (m : Z) : 0 <= Zdigits2 m.
Proof. destruct m; simpl; lia. Qed.

Lemma Zdigits2_le (m n : Z) : 0 <= m <= n -> Zdigits2 m <= Zdigits2 n.
Proof.
  intros [H0 H]. destruct (Z.eq_dec m 0) as [->|Hm].
  - apply Zdigits2_nonneg.
  - rewrite !Zdigits2_log2 by lia. pose proof (Z.log2_le_mono m n H). lia.
Qed.

(** The mantissa of a shifted record is the quotient by a power of two. *)
Lemma shr_1_m (mrs : shr_record) :
  0 <= shr_m mrs -> shr_m (shr_1 mrs) = shr_m mrs / 2.
Proof.
  destruct mrs as [m r s]. cbn [shr_m]. intros Hm.
  destruct m as [|[p|p|]|p]; cbn [shr_1 shr_m]; try lia; try reflexivity.
  - rewrite Pos2Z.inj_xI. apply (Z.div_unique _ _ _ 1); lia.
  - rewrite Pos2Z.inj_xO. apply (Z.div_unique _ _ _ 0); lia.
Qed.

Lemma iter_pos_shr_m (p : positive) :
  forall mrs, 0 <= shr_m mrs ->
    shr_m (iter_pos shr_1 p mrs) = shr_m mrs / 2 ^ Zpos p.
Proof.
  induction p as [p IH|p IH|]; intros mrs Hm; cbn [iter_pos].
  - assert (H1 : 0 <= shr_m (shr_1 mrs)).
    { rewrite shr_1_m by assumption. apply Z.div_pos; lia. }
    assert (H2 : 0 <= shr_m (iter_pos shr_1 p (shr_1 mrs))).
    { rewrite IH by assumption. apply Z.div_pos; [assumption|]. apply Z.pow_pos_nonneg; lia. }
    rewrite IH, IH, shr_1_m by assumption.
    rewrite !Z.div_div by (try lia; apply Z.pow_pos_nonneg; lia).
    f_equal. change 2 with (2 ^ 1) at 1. rewrite <- !Z.pow_add_r by lia. f_equal. lia.
  - assert (H2 : 0 <= shr_m (iter_pos shr_1 p mrs)).
    { rewrite IH by assumption. apply Z.div_pos; [assumption|]. apply Z.pow_pos_nonneg; lia. }
    rewrite IH, IH by assumption.
    rewrite !Z.div_div by (try lia; apply Z.pow_pos_nonneg; lia).
    f_equal. rewrite <- Z.pow_add_r by lia. f_equal. lia.
  - rewrite shr_1_m by assumption. reflexivity.
Qed.

Lemma shr_m_spec (mrs : shr_record) (e n : Z) :
  0 <= shr_m mrs -> 0 <= n ->
  shr_m (fst (shr mrs e n)) = shr_m mrs / 2 ^ n /\ snd (shr mrs e n) = e + n.
Proof.
  intros Hm Hn. destruct n as [|p|p]; cbn [shr fst snd]; try lia.
  - rewrite Z.pow_0_r, Z.div_1_r. lia.
  - rewrite iter_pos_shr_m by assumption. lia.
Qed.

Lemma shr_record_of_loc_m m l : shr_m (shr_record_of_loc m l) = m.
Proof. destruct l as [|[]]; reflexivity. Qed.

(** Digits of a quotient by a power of two. *)
Lemma Zdigits2_div_pow2 (m n : Z) :
  0 <= m -> 0 <= n -> 0 < m / 2 ^ n ->
  Zdigits2 (m / 2 ^ n) = Zdigits2 m - n.
Proof.
  intros Hm Hn Hq.
  assert (Hm' : 0 < m).
  { destruct (Z.eq_dec m 0) as [->|]; [|lia]. rewrite Z.div_0_l in Hq; [lia|].
    apply Z.pow_nonzero; lia. }
  rewrite (Zdigits2_log2 m Hm'), (Zdigits2_log2 _ Hq).
  rewrite <- Z.shiftr_div_pow2 in * by lia.
  rewrite Z.log2_shiftr by lia.
  destruct (Z.max_spec 0 (Z.log2 m - n)) as [[_ ->]|[Hle ->]]; [lia|].
  destruct (Z.eq_dec (Z.log2 m) n) as [|Hne]; [lia|].
  (* [log2 m < n] contradicts a positive quotient *)
  exfalso.
  assert (Z.shiftr m n = 0); [|lia].
  apply Z.shiftr_eq_0; lia.
Qed.

(** One alignment step of the rounding: the record is shifted to the
    canonical exponent of the number. *)
Lemma shr_fexp_spec (m e : Z) (l : location) :
  0 <= m -> e <= fexp prec emax (Zdigits2 m + e) ->
  let t := fexp prec emax (Zdigits2 m + e) in
  let r := shr_fexp prec emax m e l in
  snd r = t /\ shr_m (fst r) = m / 2 ^ (t - e) /\
  (0 < shr_m (fst r) -> fexp prec emax (Zdigits2 (shr_m (fst r)) + t) = t).
Proof.
  intros Hm He t r. unfold r, shr_fexp. fold t.
  destruct (shr_m_spec (shr_record_of_loc m l) e (t - e)) as [Hq He'].
  { rewrite shr_record_of_loc_m. assumption. }
  { lia. }
  rewrite shr_record_of_loc_m in Hq.
  split; [lia|]. split; [assumption|].
  rewrite Hq. intros Hpos.
  rewrite Zdigits2_div_pow2 by lia.
  replace (Zdigits2 m - (t - e) + t) with (Zdigits2 m + e) by lia. reflexivity.
Qed.

Lemma round_nearest_even_bounds m l :
  m <= round_nearest_even m l <= m + 1.
Proof.
  destruct l as [|[]]; cbn [round_nearest_even]; try lia.
  destruct (Z.even m); lia.
Qed.

Lemma fexp_mono e1 e2 : e1 <= e2 -> fexp prec emax e1 <= fexp prec emax e2.
Proof. rewrite !fexp32. lia. Qed.

(** The rounding step yields a binary32 number as soon as the exponent it
    starts from is not above the canonical one. *)
Lemma binary_round_aux_well_formed (sx : bool) (mx ex : Z) (lx : location) :
  0 <= mx -> ex <= fexp prec emax (Zdigits2 mx + ex) ->
  well_formed (binary_round_aux prec emax sx mx ex lx).
Proof.
  intros Hm He. unfold well_formed, binary_round_aux.
  destruct (shr_fexp_spec mx ex lx Hm He) as (He1 & Hm1 & Hc1).
  destruct (shr_fexp prec emax mx ex lx) as [mrs1 e1]. cbn [fst snd] in *.
  set (t := fexp prec emax (Zdigits2 mx + ex)) in *.
  assert (Hm1pos : 0 <= shr_m mrs1).
  { rewrite Hm1. apply Z.div_pos; [assumption|]. apply Z.pow_pos_nonneg; lia. }
  pose proof (round_nearest_even_bounds (shr_m mrs1) (loc_of_shr_record mrs1)) as Hr.
  set (m2 := round_nearest_even (shr_m mrs1) (loc_of_shr_record mrs1)) in *.
  assert (Ht : t <= fexp prec emax (Zdigits2 m2 + t)).
  { destruct (Z.eq_dec (shr_m mrs1) 0) as [H0|H0].
    - (* the first shift left nothing: the exponent is [emin] *)
      assert (Hte : t = -149).
      { destruct (Z.eq_dec mx 0) as [->|Hmx].
        - subst t. cbn [Zdigits2] in *. rewrite fexp32 in *. lia.
        - assert (Zdigits2 mx <= t - ex).
          { destruct (Z_lt_le_dec (t - ex) (Zdigits2 mx)) as [Hlt|]; [|lia].
            exfalso. rewrite Zdigits2_log2 in Hlt by lia.
            assert (2 ^ (t - ex) <= mx).
            { apply Z.le_trans with (2 ^ Z.log2 mx).
              - apply Z.pow_le_mono_r; lia.
              - apply Z.log2_spec. lia. }
            assert (0 < mx / 2 ^ (t - ex)); [|lia].
            apply Z.div_str_pos. split; [apply Z.pow_pos_nonneg; lia|lia]. }
          subst t. rewrite fexp32 in *. lia. }
      rewrite fexp32. lia.
    - rewrite <- (Hc1 ltac:(lia)) at 1. apply fexp_mono.
      pose proof (Zdigits2_le (shr_m mrs1) m2). lia. }
  subst e1.
  destruct (shr_fexp_spec m2 t loc_Exact ltac:(lia) Ht) as (He2 & Hm2 & Hc2).
  destruct (shr_fexp prec emax m2 t loc_Exact) as [mrs2 e2]. cbn [fst snd] in *.
  destruct (shr_m mrs2) as [|m3|m3] eqn:Hm3; try reflexivity.
  destruct (Z.leb_spec e2 (emax - prec)); [|reflexivity].
  cbn [valid_binary]. unfold bounded, canonical_mantissa.
  apply andb_true_intro. split; [|apply Z.leb_le; assumption].
  apply Z.eqb_eq. subst e2. apply (Hc2 ltac:(lia)).
Qed.

Lemma iter_xO_pow2 (m d : positive) :
  Zpos (Pos.iter xO m d) = Zpos m * 2 ^ Zpos d.
Proof.
  induction d as [|d IH] using Pos.peano_ind.
  - cbn [Pos.iter]. lia.
  - rewrite Pos.iter_succ, Pos2Z.inj_xO, IH, Pos2Z.inj_succ, Z.pow_succ_r by lia. lia.
Qed.

Lemma shl_align_spec (mx : positive) (ex ex' : Z) :
  snd (shl_align mx ex ex') = Z.min ex ex' /\
  Zpos (fst (shl_align mx ex ex')) = Zpos mx * 2 ^ (ex - Z.min ex ex').
Proof.
  unfold shl_align. destruct (ex' - ex) as [|d|d] eqn:Hd; cbn [fst snd].
  - replace (Z.min ex ex') with ex by lia. rewrite Z.sub_diag. lia.
  - replace (Z.min ex ex') with ex by lia. rewrite Z.sub_diag. lia.
  - replace (Z.min ex ex') with ex' by lia. split; [reflexivity|].
    rewrite iter_xO_pow2. f_equal. f_equal. lia.
Qed.

Lemma digits2_pos_pos (m : positive) : 1 <= Zpos (digits2_pos m).
Proof. lia. Qed.

Lemma Zdigits2_mul_pow2 (m k : Z) :
  0 < m -> 0 <= k -> Zdigits2 (m * 2 ^ k) = Zdigits2 m + k.
Proof.
  intros Hm Hk.
  assert (0 < 2 ^ k) by (apply Z.pow_pos_nonneg; lia).
  rewrite !Zdigits2_log2 by nia.
  rewrite Z.log2_mul_pow2 by lia. lia.
Qed.

Lemma binary_round_well_formed (sx : bool) (mx : positive) (ex : Z) :
  well_formed (binary_round prec emax sx mx ex).
Proof.
  unfold binary_round.
  destruct (shl_align_spec mx ex (fexp prec emax (Zpos (digits2_pos mx) + ex)))
    as [He Hm].
  destruct (shl_align mx ex _) as [mz ez]. cbn [fst snd] in *.
  apply binary_round_aux_well_formed; [lia|].
  rewrite Hm, Zdigits2_mul_pow2 by lia. cbn [Zdigits2].
  replace (Zpos (digits2_pos mx) + (ex - Z.min ex (fexp prec emax (Zpos (digits2_pos mx) + ex))) + ez)
    with (Zpos (digits2_pos mx) + ex) by lia.
  lia.
Qed.

Lemma binary_normalize_well_formed (m e : Z) (szero : bool) :
  well_formed (binary_normalize prec emax m e szero).
Proof.
  destruct m; cbn [binary_normalize]; [reflexivity| |]; apply binary_round_well_formed.
Qed.

(** The arithmetic operations return binary32 numbers. *)
Lemma fadd_well_formed (x y : float) :
  well_formed x -> well_formed y -> well_formed (fadd x y).
Proof.
  intros Hx Hy.
  destruct x as [sx|sx| |sx mx ex], y as [sy|sy| |sy my ey];
    try destruct sx; try destruct sy; try assumption; try reflexivity;
    apply binary_normalize_well_formed.
Qed.

Lemma fsub_well_formed (x y : float) :
  well_formed x -> well_formed y -> well_formed (fsub x y).
Proof.
  intros Hx Hy.
  destruct x as [sx|sx| |sx mx ex], y as [sy|sy| |sy my ey];
    try destruct sx; try destruct sy; try assumption; try reflexivity;
    apply binary_normalize_well_formed.
Qed.

Create HintDb binary32 discriminated.

#[global] Hint Resolve binary_round_well_formed binary_normalize_well_formed
  fadd_well_formed fsub_well_formed : binary32.

(** What it means for a finite number to be a binary32 number. *)
Lemma bounded_spec (m : positive) (e : Z) :
  bounded prec emax m e = true <->
  Zpos (digits2_pos m) <= 24 /\ -149 <= e <= 104 /\
  (Zpos (digits2_pos m) = 24 \/ e = -149).
Proof.
  unfold bounded, canonical_mantissa. rewrite andb_true_iff, Z.eqb_eq, Z.leb_le, fexp32.
  change (emax - prec) with 104. lia.
Qed.

Lemma fmul_well_formed (x y : float) :
  well_formed x -> well_formed y -> well_formed (fmul x y).
Proof.
  intros Hx Hy.
  destruct x as [sx|sx| |sx mx ex], y as [sy|sy| |sy my ey]; try reflexivity.
  unfold well_formed in Hx, Hy. cbn [valid_binary] in Hx, Hy.
  pose proof (proj1 (bounded_spec _ _) Hx) as Hbx.
  pose proof (proj1 (bounded_spec _ _) Hy) as Hby.
  unfold fmul. cbn [SFmul]. apply binary_round_aux_well_formed; [lia|].
  cbn [Zdigits2]. rewrite fexp32.
  assert (Hd : Zpos (digits2_pos mx) + Zpos (digits2_pos my) - 1
               <= Zpos (digits2_pos (mx * my))).
  { rewrite !digits2_pos_log2, Pos2Z.inj_mul.
    pose proof (Z.log2_mul_below (Zpos mx) (Zpos my)). lia. }
  pose proof (digits2_pos_pos mx). pose proof (digits2_pos_pos my). lia.
Qed.

#[global] Hint Resolve fmul_well_formed : binary32.

(** Multiplying by [1.0f] is exact. *)
Lemma fmul_one_r (x : float) : well_formed x -> fmul x one = x.
Proof.
  intros Hx.
  destruct x as [sx|sx| |sx mx ex]; try reflexivity; try (destruct sx; reflexivity).
  unfold well_formed in Hx. cbn [valid_binary] in Hx.
  pose proof (proj1 (bounded_spec _ _) Hx) as Hb.
  unfold fmul, one. cbn [SFmul]. rewrite xorb_false_r.
  rewrite Pos.mul_comm.
  change (8388608 * mx)%positive with
    (mx~0~0~0~0~0~0~0~0~0~0~0~0~0~0~0~0~0~0~0~0~0~0~0)%positive.
  unfold binary_round_aux, shr_fexp.
  cbn [Zdigits2 digits2_pos shr_record_of_loc].
  rewrite !Pos2Z.inj_succ.
  replace (fexp prec emax _ - (ex + -23)) with 23 by (rewrite fexp32; lia).
  cbn [shr iter_pos shr_1 shr_m loc_of_shr_record round_nearest_even orb Zdigits2].
  replace (fexp prec emax _ - (ex + -23 + 23)) with 0 by (rewrite fexp32; lia).
  cbn [shr shr_m].
  replace (ex + -23 + 23) with ex by lia.
  destruct (Z.leb_spec ex (emax - prec)) as [|Hgt]; [reflexivity|].
  change (emax - prec) with 104 in Hgt. lia.
Qed.

Lemma fmul_comm (x y : float) : fmul x y = fmul y x.
Proof.
  destruct x as [sx|sx| |sx mx ex], y as [sy|sy| |sy my ey];
    unfold fmul; cbn [SFmul]; rewrite ?(xorb_comm sx sy); try reflexivity.
  rewrite (Pos.mul_comm mx my), (Z.add_comm ex ey). reflexivity.
Qed.

Lemma fmul_one_l (x : float) : well_formed x -> fmul one x = x.
Proof. intros Hx. rewrite fmul_comm. apply fmul_one_r, Hx. Qed.

Lemma binary_round_aux_sign s m e l : sign_is s (binary_round_aux prec emax s m e l).
Proof.
  unfold binary_round_aux.
  destruct (shr_fexp prec emax m e l) as [mrs1 e1].
  destruct (shr_fexp prec emax _ e1 loc_Exact) as [mrs2 e2].
  destruct (shr_m mrs2); cbn [sign_is]; try reflexivity.
  destruct (e2 <=? emax - prec); reflexivity.
Qed.

Lemma binary_round_sign s m e : sign_is s (binary_round prec emax s m e).
Proof.
  unfold binary_round. destruct (shl_align m e _) as [mz ez].
  apply binary_round_aux_sign.
Qed.

Lemma shr_m_nonneg (mrs : shr_record) (e n : Z) :
  0 <= shr_m mrs -> 0 <= shr_m (fst (shr mrs e n)).
Proof.
  intros Hm. destruct n as [|p|p]; cbn [shr fst]; try assumption.
  rewrite iter_pos_shr_m by assumption.
  apply Z.div_pos; [assumption|]. apply Z.pow_pos_nonneg; lia.
Qed.

(** Rounding a non-negative mantissa never yields a NaN. *)
Lemma binary_round_aux_not_nan s m e l :
  0 <= m -> is_nan (binary_round_aux prec emax s m e l) = false.
Proof.
  intros Hm. unfold binary_round_aux, shr_fexp.
  pose proof (shr_m_nonneg (shr_record_of_loc m l) e
                (fexp prec emax (Zdigits2 m + e) - e)) as H1.
  rewrite shr_record_of_loc_m in H1. specialize (H1 Hm).
  destruct (shr (shr_record_of_loc m l) e _) as [mrs1 e1]. cbn [fst] in H1.
  pose proof (round_nearest_even_bounds (shr_m mrs1) (loc_of_shr_record mrs1)) as Hr.
  set (m2 := round_nearest_even (shr_m mrs1) (loc_of_shr_record mrs1)) in *.
  pose proof (shr_m_nonneg (shr_record_of_loc m2 loc_Exact) e1
                (fexp prec emax (Zdigits2 m2 + e1) - e1)) as H2.
  cbn [shr_record_of_loc shr_m] in H2. specialize (H2 ltac:(lia)).
  cbn [shr_record_of_loc].
  destruct (shr _ e1 _) as [mrs2 e2]. cbn [fst] in H2.
  destruct (shr_m mrs2); try lia; try reflexivity.
  destruct (e2 <=? emax - prec); reflexivity.
Qed.

Lemma binary_normalize_not_nan m e sz :
  is_nan (binary_normalize prec emax m e sz) = false.
Proof.
  destruct m; cbn [binary_normalize]; [reflexivity| |];
    unfold binary_round; destruct (shl_align _ e _) as [mz ez];
    apply binary_round_aux_not_nan; lia.
Qed.

Lemma binary_normalize_nonneg_sign m e :
  0 <= m -> sign_is false (binary_normalize prec emax m e false).
Proof.
  intros Hm. destruct m; try lia; cbn [binary_normalize]; [reflexivity|].
  apply binary_round_sign.
Qed.

Lemma sign_false_not_negative x : sign_is false x -> fltb x zero = false.
Proof. destruct x as [s|s| |s m e]; cbn [sign_is]; intros; subst; reflexivity. Qed.

Lemma digits2_pos_upper (m : positive) : Zpos m < 2 ^ Zpos (digits2_pos m).
Proof.
  rewrite digits2_pos_log2. pose proof (Z.log2_spec (Zpos m)). 
  replace (Z.log2 (Zpos m) + 1) with (Z.succ (Z.log2 (Zpos m))) by lia. lia.
Qed.

Lemma digits2_pos_lower (m : positive) : 2 ^ (Zpos (digits2_pos m) - 1) <= Zpos m.
Proof.
  rewrite digits2_pos_log2. pose proof (Z.log2_spec (Zpos m)).
  replace (Z.log2 (Zpos m) + 1 - 1) with (Z.log2 (Zpos m)) by lia. lia.
Qed.

(** A binary32 number below [1.0f] is subtracted from [1.0f] without
    producing a negative number. *)
Lemma fsub_one_below (x : float) :
  well_formed x -> fltb x one = true -> sign_is false (fsub one x).
Proof.
  intros Hx Hlt.
  destruct x as [sx|sx| |sx mx ex]; try discriminate.
  - reflexivity.
  - destruct sx; [reflexivity|discriminate].
  - unfold well_formed in Hx. cbn [valid_binary] in Hx.
    pose proof (proj1 (bounded_spec _ _) Hx) as Hb.
    unfold fsub, one. cbn [SFsub cond_Zopp].
    apply binary_normalize_nonneg_sign.
    destruct (shl_align_spec 8388608 (-23) (Z.min (-23) ex)) as [_ ->].
    destruct (shl_align_spec mx ex (Z.min (-23) ex)) as [_ ->].
    pose proof (digits2_pos_upper mx) as Hup.
    destruct sx; cbn [cond_Zopp].
    + assert (0 < 2 ^ (-23 - Z.min (-23) (Z.min (-23) ex))) by (apply Z.pow_pos_nonneg; lia).
      assert (0 < 2 ^ (ex - Z.min ex (Z.min (-23) ex))) by (apply Z.pow_pos_nonneg; lia).
      nia.
    + unfold fltb, SFltb, one in Hlt. cbn [SFcompare] in Hlt.
      destruct (Z.compare_spec ex (-23)) as [He|He|He]; try discriminate.
      * subst ex.
        change (2 ^ (-23 - Z.min (-23) (Z.min (-23) (-23)))) with 1.
        change (2 ^ (-23 - Z.min (-23) (Z.min (-23) (-23)))) with 1.
        rewrite Pos.compare_cont_spec in Hlt. cbn [Pos.switch_Eq] in Hlt.
        destruct (Pos.compare_spec mx 8388608) as [Hm|Hm|Hm]; try discriminate.
        assert (Hz : Z.pos mx < 8388608) by exact Hm.
        clear - Hz. rewrite !Z.mul_1_r. lia.
      * replace (Z.min (-23) ex) with ex by lia.
        replace (Z.min (-23) ex) with ex by lia.
        replace (Z.min ex ex) with ex by lia.
        rewrite Z.sub_diag, Z.pow_0_r.
        assert (Zpos mx < 2 ^ 24).
        { eapply Z.lt_le_trans; [exact Hup|]. apply Z.pow_le_mono_r; lia. }
        assert (2 ^ 1 <= 2 ^ (-23 - ex)) by (apply Z.pow_le_mono_r; lia).
        change (2 ^ 24) with 16777216 in *. change (2 ^ 1) with 2 in *. lia.
Qed.

(** The local success term is never negative (and never a NaN). *)
Lemma local_term_sign (x : float) :
  well_formed x -> sign_is false (fsub one (fmin one x)) /\ is_nan (fsub one (fmin one x)) = false.
Proof.
  intros Hx. unfold fmin. destruct (fltb x one) eqn:Hlt.
  - split; [apply fsub_one_below; assumption|].
    destruct x as [sx|sx| |sx mx ex]; try discriminate; try reflexivity.
    apply binary_normalize_not_nan.
  - split; reflexivity.
Qed.

(* ===================================================================== *)
(** ** Rounding to nearest even, as arithmetic on integers *)
(* ===================================================================== *)

Lemma loc_of_shr_record_exact (mrs : shr_record) (r b : Z) :
  loc_of_shr_record mrs = loc_of r b ->
  (shr_r mrs || shr_s mrs = false <-> r = 0).
Proof.
  destruct mrs as [m [] []]; unfold loc_of; cbn [loc_of_shr_record shr_r shr_s orb];
    destruct (Z.eqb_spec r 0); intros H; try discriminate; split; intros; try lia;
    try discriminate; reflexivity.
Qed.

Lemma represents_init (q : Z) (l : location) (a b : Z) :
  0 <= a -> 0 < b -> q = a / b -> l = loc_of (a mod b) b ->
  represents a b (shr_record_of_loc q l).
Proof.
  intros Ha Hb -> ->. unfold represents. rewrite shr_record_of_loc_m.
  repeat split; try assumption.
  unfold loc_of. destruct (a mod b =? 0); [reflexivity|].
  destruct (2 * (a mod b) ?= b); reflexivity.
Qed.

(** An integer mantissa, with nothing after the binary point. *)
Lemma represents_exact (m : Z) : 0 <= m -> represents m 1 (shr_record_of_loc m loc_Exact).
Proof.
  intros Hm. apply represents_init; try lia.
  - symmetry. apply Z.div_1_r.
  - rewrite Z.mod_1_r. reflexivity.
Qed.

(** One shift to the right halves the unit. *)
Lemma shr_1_represents (a b : Z) (mrs : shr_record) :
  represents a b mrs -> represents a (2 * b) (shr_1 mrs).
Proof.
  intros (Ha & Hb & Hm & Hl).
  pose proof (loc_of_shr_record_exact mrs _ _ Hl) as Hex.
  pose proof (Z.mod_pos_bound a b Hb) as Hr.
  pose proof (Z.div_mod a b ltac:(lia)) as Hab.
  assert (Hq : 0 <= a / b) by (apply Z.div_pos; lia).
  assert (Hdiv : a / (2 * b) = a / b / 2).
  { rewrite Z.div_div by lia. f_equal. lia. }
  assert (Hmod : a mod (2 * b) = a mod b + b * ((a / b) mod 2)).
  { rewrite (Z.mul_comm 2 b). apply Z.rem_mul_r; lia. }
  unfold represents. rewrite Hdiv, Hmod. repeat split; try lia.
  - rewrite shr_1_m by lia. rewrite Hm. reflexivity.
  - destruct mrs as [m r s]. cbn [shr_m shr_r shr_s] in *. subst m.
    set (q := a / b) in *. set (R := a mod b) in *.
    assert (Hcase : (q mod 2 = 0 /\ exists q', q = 2 * q') \/
                    (q mod 2 = 1 /\ exists q', q = 2 * q' + 1)).
    { pose proof (Z.div_mod q 2 ltac:(lia)). pose proof (Z.mod_pos_bound q 2 ltac:(lia)).
      destruct (Z.eq_dec (q mod 2) 0); [left|right]; split; try lia; exists (q / 2); lia. }
    unfold loc_of.
    destruct Hcase as [[H2 [q' Hq']]|[H2 [q' Hq']]]; rewrite H2.
    + (* even integer part: the remainder stays below the middle *)
      replace (R + b * 0) with R by lia.
      assert (Hs : loc_of_shr_record (shr_1 {| shr_m := q; shr_r := r; shr_s := s |}) =
                   if r || s then loc_Inexact Lt else loc_Exact).
      { destruct q as [|[p|p|]|p]; try lia; cbn [shr_1 loc_of_shr_record];
          destruct (r || s); reflexivity. }
      rewrite Hs. destruct (Z.eqb_spec R 0) as [HR|HR].
      * destruct (r || s); [|reflexivity]. pose proof (proj2 Hex HR). discriminate.
      * destruct (r || s); [|pose proof (proj1 Hex eq_refl); lia].
        destruct (Z.compare_spec (2 * R) (2 * b)); try lia. reflexivity.
    + (* odd integer part: the remainder reaches the middle *)
      replace (R + b * 1) with (R + b) by lia.
      assert (Hs : loc_of_shr_record (shr_1 {| shr_m := q; shr_r := r; shr_s := s |}) =
                   if r || s then loc_Inexact Gt else loc_Inexact Eq).
      { destruct q as [|[p|p|]|p]; try lia; cbn [shr_1 loc_of_shr_record];
          destruct (r || s); reflexivity. }
      rewrite Hs. destruct (Z.eqb_spec (R + b) 0); [lia|].
      destruct (r || s).
      * destruct (Z.compare_spec (2 * (R + b)) (2 * b)) as [He|He|He]; try reflexivity.
        -- assert (HR : R = 0) by lia. pose proof (proj2 Hex HR). discriminate.
        -- lia.
      * rewrite (proj1 Hex eq_refl), Z.add_0_l, Z.compare_refl. reflexivity.
Qed.

Lemma iter_pos_invariant {A : Type} (f : A -> A) (P : Z -> A -> Prop) :
  (forall k x, 0 <= k -> P k x -> P (k + 1) (f x)) ->
  forall p k x, 0 <= k -> P k x -> P (k + Zpos p) (iter_pos f p x).
Proof.
  intros Hstep. induction p as [p IH|p IH|]; intros k x Hk Hx; cbn [iter_pos].
  - replace (k + Z.pos p~1) with (k + 1 + Zpos p + Zpos p) by lia.
    apply IH; [lia|]. apply IH; [lia|]. apply Hstep; assumption.
  - replace (k + Z.pos p~0) with (k + Zpos p + Zpos p) by lia.
    apply IH; [lia|]. apply IH; assumption.
  - apply Hstep; assumption.
Qed.

Lemma shr_represents (a b : Z) (mrs : shr_record) (e n : Z) :
  represents a b mrs -> 0 <= n ->
  represents a (b * 2 ^ n) (fst (shr mrs e n)).
Proof.
  intros Hrep Hn. destruct n as [|p|p]; try lia; cbn [shr fst].
  - rewrite Z.pow_0_r, Z.mul_1_r. exact Hrep.
  - apply (iter_pos_invariant shr_1 (fun k x => represents a (b * 2 ^ k) x)) with (k := 0).
    + intros k x Hk Hx. rewrite Z.pow_add_r, Z.pow_1_r by lia.
      replace (b * (2 ^ k * 2)) with (2 * (b * 2 ^ k)) by lia.
      apply shr_1_represents, Hx.
    + lia.
    + rewrite Z.pow_0_r, Z.mul_1_r. exact Hrep.
Qed.

(** The rounding of a record picks the nearest integer, the even one in case
    of a tie. *)
Lemma round_nearest_even_spec (a b : Z) (mrs : shr_record) :
  represents a b mrs ->
  nearest_even a b (round_nearest_even (shr_m mrs) (loc_of_shr_record mrs)).
Proof.
  intros (Ha & Hb & Hm & Hl).
  pose proof (Z.mod_pos_bound a b Hb) as Hr.
  pose proof (Z.div_mod a b ltac:(lia)) as Hab.
  rewrite Hm, Hl. set (q := a / b) in *. set (R := a mod b) in *.
  unfold loc_of, nearest_even.
  destruct (Z.eqb_spec R 0) as [HR|HR]; cbn [round_nearest_even].
  - split; [nia|]. intros [H|H]; nia.
  - destruct (Z.compare_spec (2 * R) b) as [He|He|He].
    + destruct (Z.even q) eqn:Hev.
      * split; [nia|]. intros _. exact Hev.
      * split; [nia|]. intros _. rewrite Z.even_add, Hev. reflexivity.
    + split; [nia|]. intros [H|H]; nia.
    + split; [nia|]. intros [H|H]; nia.
Qed.

Lemma nearest_even_mono (a b q a' b' q' : Z) :
  0 < b -> 0 < b' ->
  nearest_even a b q -> nearest_even a' b' q' ->
  a' * b <= a * b' -> q' <= q.
Proof.
  intros Hb Hb' [[_ Hup] Hte] [[Hlo' _] Hte'] Hle.
  assert (H1 : (2 * q' - 1) * (b' * b) <= (2 * q + 1) * (b * b')) by nia.
  assert (H2 : 2 * q' - 1 <= 2 * q + 1).
  { apply Z.mul_le_mono_pos_r with (p := b * b'); [nia|]. lia. }
  destruct (Z.eq_dec q' (q + 1)) as [Heq|]; [|lia].
  exfalso. subst q'.
  assert (Hl : (2 * (q + 1) - 1) * b' = 2 * a') by nia.
  assert (Hu : 2 * a = (2 * q + 1) * b) by nia.
  specialize (Hte (or_intror Hu)). specialize (Hte' (or_introl Hl)).
  rewrite Z.even_add, Hte in Hte'. discriminate.
Qed.

(** An integer is its own nearest integer. *)
Lemma nearest_even_integer (q b q' : Z) :
  0 < b -> nearest_even (q * b) b q' -> q' = q.
Proof. intros Hb [[Hlo Hup] _]. nia. Qed.

Lemma Zdigits2_upper (m : Z) : 0 <= m -> m < 2 ^ Zdigits2 m.
Proof.
  intros Hm. destruct m as [|p|p]; try lia.
  - simpl. lia.
  - apply digits2_pos_upper.
Qed.

Lemma Zdigits2_lower (m : Z) : 0 < m -> 2 ^ (Zdigits2 m - 1) <= m.
Proof. intros Hm. destruct m as [|p|p]; try lia. apply digits2_pos_lower. Qed.

Lemma Zdigits2_ge (m k : Z) : 0 <= k -> 2 ^ k <= m -> k + 1 <= Zdigits2 m.
Proof.
  intros Hk Hm. assert (0 < 2 ^ k) by (apply Z.pow_pos_nonneg; lia).
  pose proof (Zdigits2_upper m ltac:(lia)) as Hup.
  destruct (Z_lt_le_dec k (Zdigits2 m)) as [|Hle]; [lia|].
  pose proof (Z.pow_le_mono_r 2 _ _ ltac:(lia) Hle). lia.
Qed.

Lemma Zdigits2_lt (m k : Z) : 0 <= k -> 0 <= m < 2 ^ k -> Zdigits2 m <= k.
Proof.
  intros Hk Hm. destruct (Z.eq_dec m 0) as [->|Hne]; [simpl; lia|].
  pose proof (Zdigits2_lower m ltac:(lia)) as Hlo.
  destruct (Z_lt_le_dec k (Zdigits2 m)) as [Hlt|]; [|lia].
  pose proof (Z.pow_le_mono_r 2 k (Zdigits2 m - 1) ltac:(lia) ltac:(lia)). lia.
Qed.

(** The mantissa left by the first alignment of the rounding. *)
Lemma first_shift_facts (Q e : Z) :
  0 <= Q -> e <= fexp prec emax (Zdigits2 Q + e) ->
  let t := fexp prec emax (Zdigits2 Q + e) in
  let q := Q / 2 ^ (t - e) in
  -149 <= t /\ 0 <= q < 2 ^ 24 /\
  (0 < q -> fexp prec emax (Zdigits2 q + t) = t) /\ (q = 0 -> t = -149).
Proof.
  intros HQ He t q.
  assert (Hp : 0 < 2 ^ (t - e)) by (apply Z.pow_pos_nonneg; lia).
  assert (Hq0 : 0 <= q) by (apply Z.div_pos; lia).
  assert (Ht : -149 <= t) by (unfold t; rewrite fexp32; lia).
  assert (Hc : 0 < q -> fexp prec emax (Zdigits2 q + t) = t).
  { intros Hpos. unfold q. rewrite Zdigits2_div_pow2 by (fold q; lia).
    replace (Zdigits2 Q - (t - e) + t) with (Zdigits2 Q + e) by lia. reflexivity. }
  repeat split; try assumption.
  - destruct (Z.eq_dec q 0) as [->|Hne]; [reflexivity|].
    specialize (Hc ltac:(lia)). rewrite fexp32 in Hc.
    pose proof (Zdigits2_upper q Hq0) as Hup.
    assert (Hd : Zdigits2 q <= 24) by lia.
    pose proof (Z.pow_le_mono_r 2 _ _ ltac:(lia) Hd). lia.
  - intros Hz. destruct (Z.eq_dec Q 0) as [HQ0|HQ0].
    + unfold t in *. rewrite HQ0 in *. cbn [Zdigits2] in *. rewrite fexp32 in *. lia.
    + assert (Hlt : Q < 2 ^ (t - e)).
      { apply Z.div_small_iff in Hz; lia. }
      pose proof (Zdigits2_lt Q (t - e) ltac:(lia) ltac:(lia)) as Hd.
      unfold t in *. rewrite fexp32 in *. lia.
Qed.

(** What the rounding step computes: the mantissa [q2] nearest to the number
    at the canonical exponent [t], and the binary32 number of value
    [q2 * 2^t], or [+infinity] in case of overflow. *)
Lemma binary_round_aux_spec (Q e : Z) (l : location) (a b : Z) :
  represents a b (shr_record_of_loc Q l) ->
  e <= fexp prec emax (Zdigits2 Q + e) ->
  let t := fexp prec emax (Zdigits2 Q + e) in
  let y := binary_round_aux prec emax false Q e l in
  exists q2,
    nearest_even a (b * 2 ^ (t - e)) q2 /\
    Q / 2 ^ (t - e) <= q2 <= Q / 2 ^ (t - e) + 1 /\
    q2 <= 2 ^ 24 /\
    nonneg y /\ ival y = Z.min (q2 * 2 ^ (t + 149)) (2 ^ 277).
Proof.
  intros Hrep He t y.
  assert (HQ : 0 <= Q).
  { destruct Hrep as (Ha & Hb & Hm & _). rewrite shr_record_of_loc_m in Hm.
    rewrite Hm. apply Z.div_pos; lia. }
  destruct (first_shift_facts Q e HQ He) as (Ht & Hq & Hcan & Hq0). fold t in Hq, Hcan, Hq0.
  assert (Hwf : well_formed y) by (apply binary_round_aux_well_formed; assumption).
  assert (Hnan : is_nan y = false) by (apply binary_round_aux_not_nan; assumption).
  unfold y, binary_round_aux, shr_fexp in *. fold t in Hwf, Hnan |- *.
  pose proof (shr_represents a b _ e (t - e) Hrep ltac:(lia)) as Hrep1.
  destruct (shr_m_spec (shr_record_of_loc Q l) e (t - e)) as [Hm1 He1].
  { rewrite shr_record_of_loc_m. assumption. }
  { lia. }
  rewrite shr_record_of_loc_m in Hm1.
  assert (He1' : snd (shr (shr_record_of_loc Q l) e (t - e)) = t) by lia. clear He1.
  destruct (shr (shr_record_of_loc Q l) e (t - e)) as [mrs1 e1]. cbn [fst snd] in *.
  subst e1.
  pose proof (round_nearest_even_spec _ _ _ Hrep1) as Hne.
  pose proof (round_nearest_even_bounds (shr_m mrs1) (loc_of_shr_record mrs1)) as Hr.
  set (q2 := round_nearest_even (shr_m mrs1) (loc_of_shr_record mrs1)) in *.
  rewrite Hm1 in Hr. set (q := Q / 2 ^ (t - e)) in *.
  exists q2. split; [exact Hne|]. split; [exact Hr|]. split; [lia|].
  (* the second alignment moves the exponent only when [q2 = 2^24] *)
  assert (Hd2 : 0 < q2 -> Zdigits2 q2 <= 25 /\ (q2 < 2 ^ 24 -> fexp prec emax (Zdigits2 q2 + t) = t)).
  { intros Hpos. split.
    - apply Zdigits2_lt; [lia|]. change (2 ^ 25) with (2 * 2 ^ 24). lia.
    - intros Hlt. pose proof (Zdigits2_lt q2 24 ltac:(lia) ltac:(lia)).
      destruct (Z.eq_dec q 0) as [Hz|Hnz].
      + rewrite (Hq0 Hz). rewrite fexp32. pose proof (Zdigits2_nonneg q2). lia.
      + specialize (Hcan ltac:(lia)). rewrite fexp32 in *.
        pose proof (Zdigits2_le q q2 ltac:(lia)). lia. }
  cbn [shr_record_of_loc] in *.
  destruct (Z.eq_dec q2 0) as [Hz2|Hnz2].
  { (* the result is a zero *)
    rewrite Hz2 in *. cbn [Zdigits2] in *.
    assert (Hs : shr_m (fst (shr {| shr_m := 0; shr_r := false; shr_s := false |} t
                               (fexp prec emax (0 + t) - t))) = 0).
    { destruct (fexp prec emax (0 + t) - t) as [|p|p]; cbn [shr fst]; try reflexivity.
      rewrite iter_pos_shr_m by (cbn; lia). cbn [shr_m]. apply Z.div_0_l.
      apply Z.pow_nonzero; lia. }
    destruct (shr _ t _) as [mrs2 e2]. cbn [fst] in Hs. rewrite Hs in *.
    split; [|reflexivity]. repeat split; try assumption. cbn. lia. }
  assert (Hpos2 : 0 < q2) by lia. destruct (Hd2 Hpos2) as [Hd25 Hd24].
  destruct (Z_lt_le_dec q2 (2 ^ 24)) as [Hlt|Hge].
  - (* no second shift *)
    rewrite (Hd24 Hlt), Z.sub_diag in *. cbn [shr shr_m] in *.
    destruct q2 as [|m3|m3] eqn:Hq2; try lia.
    destruct (Z.leb_spec t (emax - prec)) as [Hle|Hgt].
    + assert (Hv : ival (S754_finite false m3 t) = Zpos m3 * 2 ^ (t + 149)) by reflexivity.
      assert (Hb : Zpos m3 * 2 ^ (t + 149) < 2 ^ 277).
      { change (emax - prec) with 104 in Hle.
        assert (2 ^ (t + 149) <= 2 ^ 253) by (apply Z.pow_le_mono_r; lia).
        assert (0 < 2 ^ (t + 149)) by (apply Z.pow_pos_nonneg; lia).
        change (2 ^ 277) with (2 ^ 24 * 2 ^ 253). nia. }
      split; [|rewrite Hv; lia].
      repeat split; try assumption. rewrite Hv.
      assert (0 < 2 ^ (t + 149)) by (apply Z.pow_pos_nonneg; lia). nia.
    + change (emax - prec) with 104 in Hgt.
      assert (Hv : ival (S754_infinity false) = 2 ^ 277) by reflexivity.
      assert (Hb : 2 ^ 277 <= Zpos m3 * 2 ^ (t + 149)).
      { assert (Hd : Zdigits2 (Zpos m3) = 24).
        { specialize (Hd24 Hlt). rewrite fexp32 in Hd24. lia. }
        pose proof (Zdigits2_lower (Zpos m3) ltac:(lia)) as Hlo. rewrite Hd in Hlo.
        assert (2 ^ 254 <= 2 ^ (t + 149)) by (apply Z.pow_le_mono_r; lia).
        change (24 - 1) with 23 in Hlo.
        change (2 ^ 277) with (2 ^ 23 * 2 ^ 254).
        assert (0 < 2 ^ 254) by (apply Z.pow_pos_nonneg; lia).
        assert (0 < 2 ^ 23) by (apply Z.pow_pos_nonneg; lia). nia. }
      split; [|rewrite Hv; lia].
      repeat split; try assumption. rewrite Hv. apply Z.pow_nonneg. lia.
  - (* the mantissa reached [2^24]: one more shift, which is exact *)
    assert (Heq : q2 = 2 ^ 24) by lia. rewrite Heq in Hwf, Hnan |- *.
    change (Zdigits2 (2 ^ 24)) with 25 in *.
    replace (fexp prec emax (25 + t) - t) with 1 in * by (rewrite fexp32; lia).
    change (shr {| shr_m := 2 ^ 24; shr_r := false; shr_s := false |} t 1)
      with ({| shr_m := 8388608; shr_r := false; shr_s := false |}, t + 1) in *.
    cbn [shr_m] in *.
    destruct (Z.leb_spec (t + 1) (emax - prec)) as [Hle|Hgt].
    + change (emax - prec) with 104 in Hle.
      assert (Hv : ival (S754_finite false 8388608 (t + 1)) = 2 ^ 24 * 2 ^ (t + 149)).
      { cbn [ival cond_Zopp]. replace (t + 1 + 149) with (1 + (t + 149)) by lia.
        rewrite Z.pow_add_r by lia. change (2 ^ 24) with 16777216. change (2 ^ 1) with 2. lia. }
      assert (Hb : 2 ^ 24 * 2 ^ (t + 149) < 2 ^ 277).
      { assert (2 ^ (t + 149) <= 2 ^ 252) by (apply Z.pow_le_mono_r; lia).
        change (2 ^ 277) with (2 ^ 24 * (2 * 2 ^ 252)).
        assert (0 < 2 ^ 252) by (apply Z.pow_pos_nonneg; lia).
        assert (0 < 2 ^ 24) by (apply Z.pow_pos_nonneg; lia). nia. }
      split; [|rewrite Hv; lia].
      repeat split; try assumption. rewrite Hv.
      assert (0 < 2 ^ (t + 149)) by (apply Z.pow_pos_nonneg; lia).
      assert (0 < 2 ^ 24) by (apply Z.pow_pos_nonneg; lia). nia.
    + change (emax - prec) with 104 in Hgt.
      assert (Hv : ival (S754_infinity false) = 2 ^ 277) by reflexivity.
      assert (Hb : 2 ^ 277 <= 2 ^ 24 * 2 ^ (t + 149)).
      { assert (2 ^ 253 <= 2 ^ (t + 149)) by (apply Z.pow_le_mono_r; lia).
        change (2 ^ 277) with (2 ^ 24 * 2 ^ 253).
        assert (0 < 2 ^ 24) by (apply Z.pow_pos_nonneg; lia). nia. }
      split; [|rewrite Hv; lia].
      repeat split; try assumption. rewrite Hv. apply Z.pow_nonneg. lia.
Qed.

(* ===================================================================== *)
(** ** Comparison of binary32 numbers through their integer value *)
(* ===================================================================== *)

Lemma pow2_split (x y : Z) : 0 <= x -> 0 <= y -> 2 ^ (x + y) = 2 ^ x * 2 ^ y.
Proof. intros. apply Z.pow_add_r; assumption. Qed.

Lemma pow2_pos (x : Z) : 0 <= x -> 0 < 2 ^ x.
Proof. intros. apply Z.pow_pos_nonneg; lia. Qed.

Lemma pow2_gap (x y : Z) : 0 <= x -> x < y -> 2 * 2 ^ x <= 2 ^ y.
Proof.
  intros Hx Hxy. replace y with (1 + x + (y - x - 1)) by lia.
  rewrite (pow2_split (1 + x)), (pow2_split 1 x) by lia. change (2 ^ 1) with 2.
  pose proof (pow2_pos x Hx). pose proof (pow2_pos (y - x - 1) ltac:(lia)). nia.
Qed.

Lemma bounded_ival (m : positive) (e : Z) :
  bounded prec emax m e = true -> 0 < Zpos m * 2 ^ (e + 149) < 2 ^ 277.
Proof.
  intros Hb. apply bounded_spec in Hb. destruct Hb as (Hd & He & _).
  pose proof (digits2_pos_upper m) as Hup.
  pose proof (Z.pow_le_mono_r 2 _ _ ltac:(lia) Hd).
  assert (0 < 2 ^ (e + 149)) by (apply Z.pow_pos_nonneg; lia).
  assert (2 ^ (e + 149) <= 2 ^ 253) by (apply Z.pow_le_mono_r; lia).
  change (2 ^ 277) with (2 ^ 24 * 2 ^ 253). nia.
Qed.

Lemma compare_magnitudes (m1 m2 : positive) (e1 e2 : Z) :
  bounded prec emax m1 e1 = true -> bounded prec emax m2 e2 = true ->
  match e1 ?= e2 with
  | Eq => Pos.compare_cont Eq m1 m2
  | Lt => Lt
  | Gt => Gt
  end = (Zpos m1 * 2 ^ (e1 + 149) ?= Zpos m2 * 2 ^ (e2 + 149)).
Proof.
  intros H1 H2. apply bounded_spec in H1, H2.
  destruct H1 as (Hd1 & He1 & Hc1), H2 as (Hd2 & He2 & Hc2).
  pose proof (digits2_pos_upper m1) as Hu1. pose proof (digits2_pos_upper m2) as Hu2.
  pose proof (digits2_pos_lower m1) as Hl1. pose proof (digits2_pos_lower m2) as Hl2.
  pose proof (Z.pow_le_mono_r 2 _ _ ltac:(lia) Hd1).
  pose proof (Z.pow_le_mono_r 2 _ _ ltac:(lia) Hd2).
  assert (Hp1 : 0 < 2 ^ (e1 + 149)) by (apply Z.pow_pos_nonneg; lia).
  assert (Hp2 : 0 < 2 ^ (e2 + 149)) by (apply Z.pow_pos_nonneg; lia).
  symmetry. destruct (Z.compare_spec e1 e2) as [He|He|He].
  - subst e2. change (Pos.compare_cont Eq m1 m2) with (Zpos m1 ?= Zpos m2).
    destruct (Z.compare_spec (Zpos m1) (Zpos m2)) as [Hm|Hm|Hm].
    + rewrite Hm. apply Z.compare_refl.
    + apply Z.compare_lt_iff. apply Z.mul_lt_mono_pos_r; assumption.
    + apply Z.compare_gt_iff. apply Z.mul_lt_mono_pos_r; assumption.
  - apply Z.compare_lt_iff.
    assert (Hd : Zpos (digits2_pos m2) = 24) by lia. rewrite Hd in Hl2.
    change (2 ^ (24 - 1)) with (2 ^ 23) in Hl2.
    pose proof (pow2_gap (e1 + 149) (e2 + 149) ltac:(lia) ltac:(lia)).
    change (2 ^ 24) with (2 * 2 ^ 23) in *.
    assert (0 < 2 ^ 23) by (apply Z.pow_pos_nonneg; lia). nia.
  - apply Z.compare_gt_iff.
    assert (Hd : Zpos (digits2_pos m1) = 24) by lia. rewrite Hd in Hl1.
    change (2 ^ (24 - 1)) with (2 ^ 23) in Hl1.
    pose proof (pow2_gap (e2 + 149) (e1 + 149) ltac:(lia) ltac:(lia)).
    change (2 ^ 24) with (2 * 2 ^ 23) in *.
    assert (0 < 2 ^ 23) by (apply Z.pow_pos_nonneg; lia). nia.
Qed.

(** The comparison of two binary32 numbers, none of them a NaN, is the
    comparison of their integer values. *)
Lemma compare_ival (x y : float) :
  well_formed x -> well_formed y -> is_nan x = false -> is_nan y = false ->
  SFcompare x y = Some (ival x ?= ival y).
Proof.
  intros Hx Hy Hnx Hny.
  assert (Hbig : 0 < 2 ^ 277) by (apply Z.pow_pos_nonneg; lia).
  destruct x as [sx|sx| |sx mx ex], y as [sy|sy| |sy my ey]; try discriminate;
    unfold well_formed in Hx, Hy; cbn [valid_binary] in Hx, Hy;
    try pose proof (bounded_ival _ _ Hx) as Bx;
    try pose proof (bounded_ival _ _ Hy) as By;
    try destruct sx; try destruct sy; cbn [SFcompare ival cond_Zopp];
    f_equal; symmetry;
    try (apply Z.compare_refl);
    try (apply Z.compare_lt_iff; lia);
    try (apply Z.compare_gt_iff; lia).
  - rewrite Z.compare_opp, <- (compare_magnitudes my mx ey ex Hy Hx).
    rewrite (Z.compare_antisym ex ey), Pos.compare_cont_antisym.
    destruct (ex ?= ey); reflexivity.
  - symmetry. apply compare_magnitudes; assumption.
Qed.

Lemma le_or_nan_not_greater (x y : float) :
  le_or_nan x y ->
  fltb y x = false /\ (is_nan x = false -> is_nan y = false -> fleb x y = true).
Proof.
  intros [Hx|[Hy|((Wx & Nx & Px) & (Wy & Ny & Py) & Hle)]].
  - destruct x; try discriminate. split; [destruct y; reflexivity|discriminate].
  - destruct y; try discriminate. split; [reflexivity|discriminate].
  - unfold fltb, SFltb, fleb, SFleb.
    rewrite (compare_ival y x Wy Wx Ny Nx), (compare_ival x y Wx Wy Nx Ny).
    split.
    + destruct (Z.compare_spec (ival y) (ival x)); try reflexivity. lia.
    + intros _ _. destruct (Z.compare_spec (ival x) (ival y)); try reflexivity. lia.
Qed.

(* ===================================================================== *)
(** ** The rounding is monotone *)
(* ===================================================================== *)

Lemma round_mono (Q e : Z) (l : location) (a b : Z)
  (Q' e' : Z) (l' : location) (a' b' : Z) :
  represents a b (shr_record_of_loc Q l) ->
  e <= fexp prec emax (Zdigits2 Q + e) ->
  represents a' b' (shr_record_of_loc Q' l') ->
  e' <= fexp prec emax (Zdigits2 Q' + e') ->
  a' * b * 2 ^ (e' - Z.min e e') <= a * b' * 2 ^ (e - Z.min e e') ->
  ival (binary_round_aux prec emax false Q' e' l') <=
  ival (binary_round_aux prec emax false Q e l).
Proof.
  intros Hrep He Hrep' He' Hle.
  destruct (binary_round_aux_spec Q e l a b Hrep He) as (q2 & Hne & Hq2 & Hq2u & _ & ->).
  destruct (binary_round_aux_spec Q' e' l' a' b' Hrep' He') as (q2' & Hne' & Hq2' & Hq2u' & _ & ->).
  destruct Hrep as (Ha & Hb & HQ & _), Hrep' as (Ha' & Hb' & HQ' & _).
  rewrite shr_record_of_loc_m in HQ, HQ'.
  assert (HQ0 : 0 <= Q) by (rewrite HQ; apply Z.div_pos; lia).
  assert (HQ0' : 0 <= Q') by (rewrite HQ'; apply Z.div_pos; lia).
  destruct (first_shift_facts Q e HQ0 He) as (Ht & Hq & _ & _).
  destruct (first_shift_facts Q' e' HQ0' He') as (Ht' & Hq' & _ & _).
  set (t := fexp prec emax (Zdigits2 Q + e)) in *.
  set (t' := fexp prec emax (Zdigits2 Q' + e')) in *.
  set (c := Z.min e e') in *.
  apply Z.min_le_compat_r.
  (* the canonical exponents are ordered *)
  assert (Htt : t' <= t).
  { destruct (Z.eq_dec Q' 0) as [HQz|HQz].
    - unfold t' in *. rewrite HQz in *. cbn [Zdigits2] in *. rewrite fexp32 in *. lia.
    - apply fexp_mono.
      destruct (Z_lt_le_dec (Zdigits2 Q + e) (Zdigits2 Q' + e')) as [Hlt|]; [|lia].
      exfalso.
      pose proof (Zdigits2_upper Q HQ0) as HuQ.
      pose proof (Zdigits2_lower Q' ltac:(lia)) as HlQ'.
      pose proof (Zdigits2_nonneg Q) as HdQ.
      pose proof (Zdigits2_ge Q' 0 ltac:(lia) ltac:(change (2 ^ 0) with 1; lia)) as HdQ'.
      assert (Ha1 : a < (Q + 1) * b).
      { rewrite HQ. pose proof (Z.mul_succ_div_gt a b Hb). lia. }
      assert (Ha2 : Q' * b' <= a').
      { rewrite HQ'. pose proof (Z.mul_div_le a' b' Hb'). lia. }
      assert (Hpw : 2 ^ Zdigits2 Q * 2 ^ (e - c) <= 2 ^ (Zdigits2 Q' - 1) * 2 ^ (e' - c)).
      { rewrite <- !pow2_split by lia. apply Z.pow_le_mono_r; lia. }
      assert (0 < 2 ^ (e - c)) by (apply Z.pow_pos_nonneg; lia).
      assert (0 < 2 ^ (e' - c)) by (apply Z.pow_pos_nonneg; lia).
      assert (H1 : a * b' * 2 ^ (e - c) < 2 ^ Zdigits2 Q * 2 ^ (e - c) * (b * b')).
      { assert (a < 2 ^ Zdigits2 Q * b) by nia.
        assert (a * b' < 2 ^ Zdigits2 Q * b * b') by (apply Z.mul_lt_mono_pos_r; assumption).
        replace (2 ^ Zdigits2 Q * 2 ^ (e - c) * (b * b'))
          with (2 ^ Zdigits2 Q * b * b' * 2 ^ (e - c)) by ring.
        apply Z.mul_lt_mono_pos_r; assumption. }
      assert (H2 : 2 ^ (Zdigits2 Q' - 1) * 2 ^ (e' - c) * (b * b') <= a' * b * 2 ^ (e' - c)).
      { assert (2 ^ (Zdigits2 Q' - 1) * b' <= a') by nia.
        assert (2 ^ (Zdigits2 Q' - 1) * b' * b <= a' * b) by (apply Z.mul_le_mono_nonneg_r; lia).
        replace (2 ^ (Zdigits2 Q' - 1) * 2 ^ (e' - c) * (b * b'))
          with (2 ^ (Zdigits2 Q' - 1) * b' * b * 2 ^ (e' - c)) by ring.
        apply Z.mul_le_mono_nonneg_r; lia. }
      assert (H3 : 2 ^ Zdigits2 Q * 2 ^ (e - c) * (b * b') <=
                   2 ^ (Zdigits2 Q' - 1) * 2 ^ (e' - c) * (b * b')).
      { apply Z.mul_le_mono_nonneg_r; [nia|exact Hpw]. }
      lia. }
  assert (Hpt : 0 < 2 ^ (t' + 149)) by (apply Z.pow_pos_nonneg; lia).
  destruct (Z.eq_dec t' t) as [Heq|Hneq].
  - (* same exponent: the mantissas are ordered *)
    rewrite Heq in *.
    assert (Hq2le : q2' <= q2).
    { apply (nearest_even_mono a (b * 2 ^ (t - e)) q2 a' (b' * 2 ^ (t - e')) q2').
      - assert (0 < 2 ^ (t - e)) by (apply Z.pow_pos_nonneg; lia). nia.
      - assert (0 < 2 ^ (t - e')) by (apply Z.pow_pos_nonneg; lia). nia.
      - exact Hne.
      - exact Hne'.
      - replace (t - e) with ((e' - c) + (t - Z.max e e')) by lia.
        replace (t - e') with ((e - c) + (t - Z.max e e')) by lia.
        rewrite !pow2_split by lia.
        assert (0 < 2 ^ (t - Z.max e e')) by (apply Z.pow_pos_nonneg; lia).
        nia. }
    nia.
  - (* a smaller exponent: a power of two lies in between *)
    assert (Htm : t = Zdigits2 Q + e - 24) by (unfold t in *; rewrite fexp32 in *; lia).
    assert (HQpos : 0 < Q).
    { destruct (Z.eq_dec Q 0) as [HQz|]; [|lia].
      unfold t in *. rewrite HQz in *. cbn [Zdigits2] in *. rewrite fexp32 in *. lia. }
    assert (Hq23 : 2 ^ 23 <= Q / 2 ^ (t - e)).
    { apply Z.div_le_lower_bound; [apply Z.pow_pos_nonneg; lia|].
      pose proof (Zdigits2_lower Q HQpos) as Hlo.
      replace (Zdigits2 Q - 1) with ((t - e) + 23) in Hlo by lia.
      rewrite pow2_split in Hlo by lia. lia. }
    pose proof (pow2_gap (t' + 149) (t + 149) ltac:(lia) ltac:(lia)) as Hpw.
    change (2 ^ 24) with (2 * 2 ^ 23) in *.
    assert (0 < 2 ^ 23) by (apply Z.pow_pos_nonneg; lia).
    nia.
Qed.

(* ===================================================================== *)
(** ** Multiplication of non-negative numbers is monotone *)
(* ===================================================================== *)

(** The exact product of two binary32 numbers has enough digits for the
    rounding to start from its exponent. *)
Lemma fmul_exponent_ok (mx my : positive) (ex ey : Z) :
  bounded prec emax mx ex = true -> bounded prec emax my ey = true ->
  ex + ey <= fexp prec emax (Zdigits2 (Zpos (mx * my)) + (ex + ey)).
Proof.
  intros Hx Hy. apply bounded_spec in Hx, Hy.
  cbn [Zdigits2]. rewrite fexp32.
  assert (Hd : Zpos (digits2_pos mx) + Zpos (digits2_pos my) - 1
               <= Zpos (digits2_pos (mx * my))).
  { rewrite !digits2_pos_log2, Pos2Z.inj_mul.
    pose proof (Z.log2_mul_below (Zpos mx) (Zpos my)). lia. }
  pose proof (digits2_pos_pos mx). pose proof (digits2_pos_pos my). lia.
Qed.

Lemma fmul_finite_spec (mx my : positive) (ex ey : Z) :
  bounded prec emax mx ex = true -> bounded prec emax my ey = true ->
  nonneg (fmul (S754_finite false mx ex) (S754_finite false my ey)) /\
  ival (fmul (S754_finite false mx ex) (S754_finite false my ey)) <= 2 ^ 277.
Proof.
  intros Hx Hy. unfold fmul. cbn [SFmul xorb].
  destruct (binary_round_aux_spec (Zpos (mx * my)) (ex + ey) loc_Exact (Zpos (mx * my)) 1
              (represents_exact (Zpos (mx * my)) (Pos2Z.is_nonneg _))
              (fmul_exponent_ok mx my ex ey Hx Hy))
    as (q2 & _ & _ & _ & Hnn & Hv).
  split; [exact Hnn|]. rewrite Hv. apply Z.le_min_r.
Qed.

Lemma fmul_mono_finite (ma ma' mc : positive) (ea ea' ec : Z) :
  bounded prec emax ma ea = true -> bounded prec emax ma' ea' = true ->
  bounded prec emax mc ec = true ->
  ival (S754_finite false ma' ea') <= ival (S754_finite false ma ea) ->
  ival (fmul (S754_finite false ma' ea') (S754_finite false mc ec)) <=
  ival (fmul (S754_finite false ma ea) (S754_finite false mc ec)).
Proof.
  intros Ha Ha' Hc Hle. unfold fmul. cbn [SFmul xorb].
  apply (round_mono _ _ _ (Zpos (ma * mc)) 1 _ _ _ (Zpos (ma' * mc)) 1).
  - apply represents_exact. lia.
  - apply fmul_exponent_ok; assumption.
  - apply represents_exact. lia.
  - apply fmul_exponent_ok; assumption.
  - cbn [ival cond_Zopp] in Hle.
    pose proof (proj1 (bounded_spec _ _) Ha) as (_ & Hea & _).
    pose proof (proj1 (bounded_spec _ _) Ha') as (_ & Hea' & _).
    replace (ea' + ec - Z.min (ea + ec) (ea' + ec)) with (ea' - Z.min ea ea') by lia.
    replace (ea + ec - Z.min (ea + ec) (ea' + ec)) with (ea - Z.min ea ea') by lia.
    replace (ea + 149) with ((ea - Z.min ea ea') + (Z.min ea ea' + 149)) in Hle by lia.
    replace (ea' + 149) with ((ea' - Z.min ea ea') + (Z.min ea ea' + 149)) in Hle by lia.
    rewrite (pow2_split (ea - Z.min ea ea') (Z.min ea ea' + 149)) in Hle by lia.
    rewrite (pow2_split (ea' - Z.min ea ea') (Z.min ea ea' + 149)) in Hle by lia.
    pose proof (pow2_pos (Z.min ea ea' + 149) ltac:(lia)) as Hp.
    pose proof (pow2_pos (ea - Z.min ea ea') ltac:(lia)).
    pose proof (pow2_pos (ea' - Z.min ea ea') ltac:(lia)).
    rewrite !Pos2Z.inj_mul, !Z.mul_1_r.
    assert (Hx : Zpos ma' * 2 ^ (ea' - Z.min ea ea') <= Zpos ma * 2 ^ (ea - Z.min ea ea')).
    { apply Z.mul_le_mono_pos_r with (p := 2 ^ (Z.min ea ea' + 149)); [exact Hp|].
      rewrite <- !Z.mul_assoc. exact Hle. }
    replace (Zpos ma' * Zpos mc * 2 ^ (ea' - Z.min ea ea'))
      with (Zpos ma' * 2 ^ (ea' - Z.min ea ea') * Zpos mc) by ring.
    replace (Zpos ma * Zpos mc * 2 ^ (ea - Z.min ea ea'))
      with (Zpos ma * 2 ^ (ea - Z.min ea ea') * Zpos mc) by ring.
    apply Z.mul_le_mono_nonneg_r; [lia|exact Hx].
Qed.

Lemma sign_false_ival (x : float) : sign_is false x -> 0 <= ival x.
Proof.
  destruct x as [s|s| |s m e]; cbn [sign_is ival]; intros; subst; cbn [cond_Zopp]; lia.
Qed.

Lemma nonneg_nn (x : float) : nonneg x -> nn x.
Proof. intros (W & _ & P). split; assumption. Qed.

Lemma nn_cases (x : float) :
  nn x ->
  x = S754_nan \/ (exists s, x = S754_zero s) \/ x = S754_infinity false \/
  (exists m e, x = S754_finite false m e /\ bounded prec emax m e = true).
Proof.
  intros [W P]. destruct x as [s|s| |s m e].
  - right. left. exists s. reflexivity.
  - destruct s; [|right; right; left; reflexivity].
    exfalso. cbn [ival cond_Zopp] in P. pose proof (pow2_pos 277 ltac:(lia)). lia.
  - left. reflexivity.
  - destruct s.
    + exfalso. cbn [ival cond_Zopp] in P. pose proof (bounded_ival m e W). lia.
    + right. right. right. exists m, e. split; [reflexivity|exact W].
Qed.

Lemma nn_nonneg (x : float) : nn x -> is_nan x = false -> nonneg x.
Proof. intros [W P] N. repeat split; assumption. Qed.

Lemma fmul_nn (x y : float) : nn x -> nn y -> nn (fmul x y).
Proof.
  intros Hx Hy.
  destruct (nn_cases x Hx) as [->|[[sx ->]|[->|(mx & ex & -> & Bx)]]];
  destruct (nn_cases y Hy) as [->|[[sy ->]|[->|(my & ey & -> & By)]]];
    try (split; [reflexivity|cbn; lia]);
    try (split; [reflexivity|cbn; apply Z.pow_nonneg; lia]).
  apply nonneg_nn, fmul_finite_spec; assumption.
Qed.

Lemma le_or_nan_intro (x y : float) :
  nn x -> nn y -> (is_nan x = false -> is_nan y = false -> ival x <= ival y) ->
  le_or_nan x y.
Proof.
  intros Hx Hy H. unfold le_or_nan.
  destruct (is_nan x) eqn:Nx; [left; reflexivity|].
  destruct (is_nan y) eqn:Ny; [right; left; reflexivity|].
  right. right. repeat split; try apply Hx; try apply Hy; auto.
Qed.

Lemma le_or_nan_nn (x y : float) :
  le_or_nan x y ->
  is_nan x = true \/ is_nan y = true \/ (nn x /\ nn y /\ ival x <= ival y).
Proof.
  intros [H|[H|(Hx & Hy & H)]]; auto.
  right. right. repeat split; try apply Hx; try apply Hy; assumption.
Qed.

Lemma fmul_le_or_nan_l (a' a c : float) :
  le_or_nan a' a -> nn c -> le_or_nan (fmul a' c) (fmul a c).
Proof.
  intros Hle Hc.
  destruct (le_or_nan_nn _ _ Hle) as [N|[N|(Ha' & Ha & Hv)]].
  - destruct a'; try discriminate. left. reflexivity.
  - destruct a; try discriminate. right. left. destruct (fmul a' c); reflexivity.
  - apply le_or_nan_intro; try (apply fmul_nn; assumption).
    pose proof (pow2_pos 277 ltac:(lia)) as Hbig.
    destruct (nn_cases c Hc) as [->|[[sc ->]|[->|(mc & ec & -> & Bc)]]];
    destruct (nn_cases a Ha) as [->|[[sa ->]|[->|(ma & ea & -> & Ba)]]];
    destruct (nn_cases a' Ha') as [->|[[sa' ->]|[->|(ma' & ea' & -> & Ba')]]];
      try pose proof (bounded_ival _ _ Ba) as Ia;
      try pose proof (bounded_ival _ _ Ba') as Ia';
      cbn [ival cond_Zopp] in Hv;
      try (intros; discriminate); try (intros _ _; cbn; lia); try lia.
    + intros _ _. apply fmul_finite_spec; assumption.
    + intros _ _. apply fmul_finite_spec; assumption.
    + intros _ _. apply fmul_mono_finite; assumption.
Qed.

Lemma fmul_le_or_nan_r (c b' b : float) :
  le_or_nan b' b -> nn c -> le_or_nan (fmul c b') (fmul c b).
Proof. intros. rewrite !(fmul_comm c). apply fmul_le_or_nan_l; assumption. Qed.

Lemma fold_fmul_le_or_nan (l : list float) :
  Forall nn l ->
  forall a' a, le_or_nan a' a -> le_or_nan (fold_left fmul l a') (fold_left fmul l a).
Proof.
  induction 1 as [|c l Hc _ IH]; intros a' a Hle; cbn [fold_left]; [assumption|].
  apply IH, fmul_le_or_nan_l; assumption.
Qed.

Lemma fold_fmul_nn (l : list float) :
  Forall nn l -> forall a, nn a -> nn (fold_left fmul l a).
Proof.
  induction 1 as [|c l Hc _ IH]; intros a Ha; cbn [fold_left]; [assumption|].
  apply IH, fmul_nn; assumption.
Qed.

(* ===================================================================== *)
(** ** Division *)
(* ===================================================================== *)

Lemma pow2_le_shift (A B a b k : Z) :
  0 <= a -> 0 <= b -> 0 <= a + k -> 0 <= b + k ->
  A * 2 ^ (a + k) <= B * 2 ^ (b + k) -> A * 2 ^ a <= B * 2 ^ b.
Proof.
  intros Ha Hb Hak Hbk H. destruct (Z_le_gt_dec 0 k) as [Hk|Hk].
  - rewrite (pow2_split a k), (pow2_split b k), !Z.mul_assoc in H by lia.
    apply Z.mul_le_mono_pos_r in H; [exact H|apply pow2_pos; lia].
  - assert (Ea : 2 ^ a = 2 ^ (a + k) * 2 ^ (- k)).
    { rewrite <- pow2_split by lia. f_equal. lia. }
    assert (Eb : 2 ^ b = 2 ^ (b + k) * 2 ^ (- k)).
    { rewrite <- pow2_split by lia. f_equal. lia. }
    rewrite Ea, Eb, !Z.mul_assoc.
    apply Z.mul_le_mono_nonneg_r; [|exact H].
    apply Z.pow_nonneg. lia.
Qed.

(** A positive binary32 number is determined by its integer value. *)
Lemma finite_of_ival (x : float) (m : positive) (e : Z) :
  nonneg x -> bounded prec emax m e = true ->
  ival x = Zpos m * 2 ^ (e + 149) -> x = S754_finite false m e.
Proof.
  intros Hx Hb Hv. pose proof (bounded_ival m e Hb) as Hr.
  destruct (nn_cases x (nonneg_nn x Hx)) as [->|[[s ->]|[->|(mx & ex & -> & Bx)]]];
    cbn [ival cond_Zopp] in Hv; try lia.
  pose proof (compare_magnitudes mx m ex e Bx Hb) as Hc.
  rewrite Hv, Z.compare_refl in Hc.
  destruct (Z.compare_spec ex e) as [He|He|He]; try discriminate.
  subst ex. apply Pos.compare_eq in Hc. subst mx. reflexivity.
Qed.

(** A binary32 number is left unchanged by the rounding. *)
Lemma round_canonical_ival (m : positive) (e : Z) :
  bounded prec emax m e = true ->
  ival (binary_round_aux prec emax false (Zpos m) e loc_Exact) = Zpos m * 2 ^ (e + 149).
Proof.
  intros Hb. pose proof (bounded_ival m e Hb) as Hr.
  pose proof (proj1 (bounded_spec m e) Hb) as (Hd & He & Hc).
  assert (Hf : fexp prec emax (Zdigits2 (Zpos m) + e) = e).
  { cbn [Zdigits2]. rewrite fexp32. lia. }
  destruct (binary_round_aux_spec (Zpos m) e loc_Exact (Zpos m) 1
              (represents_exact (Zpos m) (Pos2Z.is_nonneg _)) ltac:(lia))
    as (q2 & Hne & _ & _ & _ & Hv).
  rewrite Hf in Hne, Hv. rewrite Z.sub_diag in Hne. change (1 * 2 ^ 0) with 1 in Hne.
  replace (Zpos m) with (Zpos m * 1) in Hne at 1 by lia.
  apply nearest_even_integer in Hne; [|lia]. subst q2.
  rewrite Hv. lia.
Qed.

Lemma new_location_loc_of (b r : Z) :
  0 < b -> 0 <= r < b -> new_location b r = loc_of r b.
Proof.
  intros Hb Hr. unfold new_location, new_location_even, new_location_odd, loc_of.
  destruct (Z.even b) eqn:Hev; destruct (Z.eqb_spec r 0); try reflexivity.
  f_equal.
  destruct (Z.compare_spec (2 * r + 1) b) as [He|He|He];
    destruct (Z.compare_spec (2 * r) b) as [He'|He'|He']; try reflexivity; try lia.
  subst b. rewrite Z.even_mul in Hev. discriminate.
Qed.

(** What the division of two positive binary32 numbers rounds: the shifted
    quotient of the mantissas, with the position of the remainder. *)
Lemma fdiv_core (mx my : positive) (ex ey : Z) :
  let '(q, ez, l) := SFdiv_core_binary prec emax (Zpos mx) ex (Zpos my) ey in
  exists s,
    0 <= s /\ s + ez = ex - ey /\
    represents (Zpos mx * 2 ^ s) (Zpos my) (shr_record_of_loc q l) /\
    ez <= fexp prec emax (Zdigits2 q + ez).
Proof.
  unfold SFdiv_core_binary.
  set (d1 := Zdigits2 (Zpos mx)). set (d2 := Zdigits2 (Zpos my)).
  set (ez := Z.min (fexp prec emax (d1 + ex - (d2 + ey))) (ex - ey)).
  set (s := ex - ey - ez).
  assert (Hs : 0 <= s) by (unfold s, ez; lia).
  set (m' := match s with Z.pos _ => Z.shiftl (Zpos mx) s | 0 => Zpos mx | Z.neg _ => 0 end).
  assert (Hm' : m' = Zpos mx * 2 ^ s).
  { unfold m'. destruct s as [|p|p]; try lia.
    apply Z.shiftl_mul_pow2. lia. }
  pose proof (pow2_pos s Hs) as Hps.
  pose proof (Z_div_mod m' (Zpos my) ltac:(lia)) as Hdm.
  destruct (Z.div_eucl m' (Zpos my)) as [q r] eqn:Hqr. destruct Hdm as [Hdm Hr].
  assert (Hq : q = m' / Zpos my).
  { apply (Z.div_unique m' (Zpos my) q r); lia. }
  assert (Hrm : r = m' mod Zpos my).
  { apply (Z.mod_unique m' (Zpos my) q r); lia. }
  exists s. split; [exact Hs|]. split; [unfold s; lia|].
  rewrite <- Hm'. split.
  - apply represents_init; try lia.
    rewrite <- Hrm. apply new_location_loc_of; lia.
  - (* enough digits in the quotient *)
    assert (Hq0 : 0 <= q) by (rewrite Hq; apply Z.div_pos; lia).
    pose proof (Zdigits2_lower (Zpos mx) ltac:(lia)) as Hl1. fold d1 in Hl1.
    pose proof (Zdigits2_upper (Zpos my) ltac:(lia)) as Hu2. fold d2 in Hu2.
    assert (Hd1 : 1 <= d1) by (unfold d1; cbn; lia).
    assert (Hd2 : 1 <= d2) by (unfold d2; cbn; lia).
    assert (Hez : ez <= fexp prec emax (d1 + ex - (d2 + ey))) by (unfold ez; lia).
    destruct (Z_le_gt_dec (d1 + s) d2) as [Hsmall|Hlarge].
    + (* the quotient may vanish, but then the exponent is the least one *)
      assert (ez <= -149) by (rewrite fexp32 in Hez; unfold s in Hsmall; lia).
      rewrite fexp32. lia.
    + assert (Hqd : d1 + s - d2 - 1 + 1 <= Zdigits2 q).
      { apply (Zdigits2_ge q (d1 + s - d2 - 1)); [lia|].
        apply Z.lt_succ_r.
        (* 2^(d1+s-d2-1) * my < 2^(d1-1) * 2^s <= m' < (q+1) * my *)
        apply Z.mul_lt_mono_pos_r with (p := Zpos my); [lia|].
        assert (H1 : 2 ^ (d1 + s - d2 - 1) * 2 ^ d2 = 2 ^ (d1 - 1) * 2 ^ s).
        { rewrite <- !pow2_split by lia. f_equal. lia. }
        pose proof (pow2_pos (d1 + s - d2 - 1) ltac:(lia)).
        assert (2 ^ (d1 + s - d2 - 1) * Zpos my < 2 ^ (d1 + s - d2 - 1) * 2 ^ d2)
          by (apply Z.mul_lt_mono_pos_l; lia).
        assert (2 ^ (d1 - 1) * 2 ^ s <= m') by (rewrite Hm'; apply Z.mul_le_mono_nonneg_r; lia).
        lia. }
      apply Z.le_trans with (1 := Hez). apply fexp_mono. unfold s in Hqd. lia.
Qed.

(** The correctly rounded quotient lies on the same side of a binary32
    number as the exact quotient. *)
Lemma fdiv_lower (x y c : float) :
  nonneg x -> nonneg y -> nonneg c ->
  is_finite x = true -> is_finite y = true -> is_finite c = true ->
  0 < ival x -> 0 < ival y -> 0 < ival c ->
  ival c * ival y <= ival x * 2 ^ 149 ->
  nonneg (fdiv x y) /\ ival c <= ival (fdiv x y).
Proof.
  intros Hx Hy Hc Fx Fy Fc Px Py Pc Hle.
  destruct (nn_cases x (nonneg_nn x Hx)) as [->|[[sx ->]|[->|(mx & ex & -> & Bx)]]];
    try discriminate; try (cbn in Px; lia).
  destruct (nn_cases y (nonneg_nn y Hy)) as [->|[[sy ->]|[->|(my & ey & -> & By)]]];
    try discriminate; try (cbn in Py; lia).
  destruct (nn_cases c (nonneg_nn c Hc)) as [->|[[sc ->]|[->|(mc & ec & -> & Bc)]]];
    try discriminate; try (cbn in Pc; lia).
  unfold fdiv. cbn [SFdiv xorb].
  pose proof (fdiv_core mx my ex ey) as Hcore.
  destruct (SFdiv_core_binary prec emax (Zpos mx) ex (Zpos my) ey) as [[q ez] l].
  destruct Hcore as (s & Hs & Hse & Hrep & Hpre).
  destruct (binary_round_aux_spec q ez l _ _ Hrep Hpre) as (_ & _ & _ & _ & Hnn & _).
  split; [exact Hnn|].
  change (ival (S754_finite false mc ec)) with (Zpos mc * 2 ^ (ec + 149)).
  rewrite <- (round_canonical_ival mc ec Bc).
  pose proof (proj1 (bounded_spec mc ec) Bc) as (Hdc & Hec & Hcc).
  pose proof (proj1 (bounded_spec mx ex) Bx) as (_ & Hex & _).
  pose proof (proj1 (bounded_spec my ey) By) as (_ & Hey & _).
  apply (round_mono q ez l _ _ (Zpos mc) ec loc_Exact (Zpos mc) 1 Hrep Hpre).
  - apply represents_exact. lia.
  - cbn [Zdigits2]. rewrite fexp32. lia.
  - cbn [ival cond_Zopp] in Hle. rewrite Z.mul_1_r.
    set (c0 := Z.min ez ec).
    rewrite <- (Z.mul_assoc (Zpos mx)), <- pow2_split by lia.
    replace (s + (ez - c0)) with (ex - ey - c0) by lia.
    apply (pow2_le_shift _ _ _ _ (c0 + ey + 298)); try lia.
    replace (ec - c0 + (c0 + ey + 298)) with ((ec + 149) + (ey + 149)) by lia.
    replace (ex - ey - c0 + (c0 + ey + 298)) with ((ex + 149) + 149) by lia.
    rewrite (pow2_split (ec + 149) (ey + 149)), (pow2_split (ex + 149) 149) by lia.
    replace (Zpos mc * Zpos my * (2 ^ (ec + 149) * 2 ^ (ey + 149)))
      with (Zpos mc * 2 ^ (ec + 149) * (Zpos my * 2 ^ (ey + 149))) by ring.
    replace (Zpos mx * (2 ^ (ex + 149) * 2 ^ 149))
      with (Zpos mx * 2 ^ (ex + 149) * 2 ^ 149) by ring.
    exact Hle.
Qed.

Lemma fdiv_upper (x y c : float) :
  nonneg x -> nonneg y -> nonneg c ->
  is_finite x = true -> is_finite y = true -> is_finite c = true ->
  0 < ival x -> 0 < ival y -> 0 < ival c ->
  ival x * 2 ^ 149 <= ival c * ival y ->
  ival (fdiv x y) <= ival c.
Proof.
  intros Hx Hy Hc Fx Fy Fc Px Py Pc Hle.
  destruct (nn_cases x (nonneg_nn x Hx)) as [->|[[sx ->]|[->|(mx & ex & -> & Bx)]]];
    try discriminate; try (cbn in Px; lia).
  destruct (nn_cases y (nonneg_nn y Hy)) as [->|[[sy ->]|[->|(my & ey & -> & By)]]];
    try discriminate; try (cbn in Py; lia).
  destruct (nn_cases c (nonneg_nn c Hc)) as [->|[[sc ->]|[->|(mc & ec & -> & Bc)]]];
    try discriminate; try (cbn in Pc; lia).
  unfold fdiv. cbn [SFdiv xorb].
  pose proof (fdiv_core mx my ex ey) as Hcore.
  destruct (SFdiv_core_binary prec emax (Zpos mx) ex (Zpos my) ey) as [[q ez] l].
  destruct Hcore as (s & Hs & Hse & Hrep & Hpre).
  change (ival (S754_finite false mc ec)) with (Zpos mc * 2 ^ (ec + 149)).
  rewrite <- (round_canonical_ival mc ec Bc).
  pose proof (proj1 (bounded_spec mc ec) Bc) as (Hdc & Hec & Hcc).
  pose proof (proj1 (bounded_spec mx ex) Bx) as (_ & Hex & _).
  pose proof (proj1 (bounded_spec my ey) By) as (_ & Hey & _).
  apply (round_mono (Zpos mc) ec loc_Exact (Zpos mc) 1 q ez l (Zpos mx * 2 ^ s) (Zpos my)).
  - apply represents_exact. lia.
  - cbn [Zdigits2]. rewrite fexp32. lia.
  - exact Hrep.
  - exact Hpre.
  - cbn [ival cond_Zopp] in Hle. rewrite Z.mul_1_r.
    set (c0 := Z.min ec ez).
    rewrite <- (Z.mul_assoc (Zpos mx)), <- pow2_split by lia.
    replace (s + (ez - c0)) with (ex - ey - c0) by lia.
    apply (pow2_le_shift _ _ _ _ (c0 + ey + 298)); try lia.
    replace (ec - c0 + (c0 + ey + 298)) with ((ec + 149) + (ey + 149)) by lia.
    replace (ex - ey - c0 + (c0 + ey + 298)) with ((ex + 149) + 149) by lia.
    rewrite (pow2_split (ec + 149) (ey + 149)), (pow2_split (ex + 149) 149) by lia.
    replace (Zpos mc * Zpos my * (2 ^ (ec + 149) * 2 ^ (ey + 149)))
      with (Zpos mc * 2 ^ (ec + 149) * (Zpos my * 2 ^ (ey + 149))) by ring.
    replace (Zpos mx * (2 ^ (ex + 149) * 2 ^ 149))
      with (Zpos mx * 2 ^ (ex + 149) * 2 ^ 149) by ring.
    exact Hle.
Qed.

(* ===================================================================== *)
(** ** Square root *)
(* ===================================================================== *)

(** The square root of a positive binary32 number [m * 2^e] is a normal
    number [S * 2^e'], where [S] is the integer nearest to the square root of
    the mantissa aligned on the even exponent [2 * e']. *)
Lemma fsqrt_spec (m : positive) (e : Z) :
  bounded prec emax m e = true ->
  exists (S : positive) (e' : Z),
    fsqrt (S754_finite false m e) = S754_finite false S e' /\
    bounded prec emax S e' = true /\
    2 ^ 23 <= Zpos S < 2 ^ 24 /\ -98 <= e' <= 40 /\ 23 <= e - 2 * e' /\
    2 ^ 46 <= Zpos m * 2 ^ (e - 2 * e') < 2 ^ 48 /\
    Zpos S * Zpos S - Zpos S < Zpos m * 2 ^ (e - 2 * e') <= Zpos S * Zpos S + Zpos S.
Proof.
  intros Hb. pose proof (proj1 (bounded_spec m e) Hb) as (Hd & He & Hc).
  pose proof (digits2_pos_pos m) as Hd1.
  pose proof (digits2_pos_upper m) as Hup. pose proof (digits2_pos_lower m) as Hlo.
  unfold fsqrt. cbn [SFsqrt]. unfold SFsqrt_core_binary. cbn [Zdigits2].
  set (d := Zpos (digits2_pos m)) in *.
  rewrite !Z.div2_div.
  set (e' := Z.min (fexp prec emax ((d + e + 1) / 2)) (e / 2)).
  assert (He' : e' = (d + e + 1) / 2 - 24).
  { unfold e'. rewrite fexp32.
    pose proof (Z.div_mod (d + e + 1) 2 ltac:(lia)).
    pose proof (Z.mod_pos_bound (d + e + 1) 2 ltac:(lia)).
    pose proof (Z.div_mod e 2 ltac:(lia)).
    pose proof (Z.mod_pos_bound e 2 ltac:(lia)). lia. }
  assert (Hs : 47 - d <= e - 2 * e' <= 48 - d).
  { rewrite He'. pose proof (Z.div_mod (d + e + 1) 2 ltac:(lia)).
    pose proof (Z.mod_pos_bound (d + e + 1) 2 ltac:(lia)). lia. }
  assert (He'r : -98 <= e' <= 40).
  { rewrite He'. pose proof (Z.div_mod (d + e + 1) 2 ltac:(lia)).
    pose proof (Z.mod_pos_bound (d + e + 1) 2 ltac:(lia)). lia. }
  clearbody e'. set (s := e - 2 * e') in *.
  destruct s as [|p|p] eqn:Hsp; try lia. rewrite <- Hsp in *.
  rewrite Z.shiftl_mul_pow2 by lia.
  set (m' := Zpos m * 2 ^ s) in *.
  pose proof (pow2_pos s ltac:(lia)) as Hps.
  assert (Hm'lo : 2 ^ 46 <= m').
  { apply Z.le_trans with (2 ^ (d - 1) * 2 ^ s).
    - rewrite <- pow2_split by lia. apply Z.pow_le_mono_r; lia.
    - apply Z.mul_le_mono_nonneg_r; lia. }
  assert (Hm'hi : m' <= 2 ^ 48 - 2 ^ 24).
  { assert (Hm1 : m' <= (2 ^ d - 1) * 2 ^ s) by (apply Z.mul_le_mono_nonneg_r; lia).
    rewrite Z.mul_sub_distr_r, <- pow2_split, Z.mul_1_l in Hm1 by lia.
    destruct (Z.eq_dec s 23) as [H23|H23].
    - assert (2 ^ (d + s) <= 2 ^ 47) by (apply Z.pow_le_mono_r; lia).
      change (2 ^ 48) with (2 * 2 ^ 47). change (2 ^ 24) with 16777216.
      change (2 ^ 47) with 140737488355328 in *. lia.
    - assert (2 ^ (d + s) <= 2 ^ 48) by (apply Z.pow_le_mono_r; lia).
      assert (2 ^ 24 <= 2 ^ s) by (apply Z.pow_le_mono_r; lia). lia. }
  pose proof (Z.sqrtrem_spec m' ltac:(lia)) as Hsq.
  destruct (Z.sqrtrem m') as [q r]. destruct Hsq as [Hqr Hr].
  assert (Hq : 2 ^ 23 <= q < 2 ^ 24).
  { change (2 ^ 46) with (2 ^ 23 * 2 ^ 23) in Hm'lo.
    change (2 ^ 48) with (2 ^ 24 * 2 ^ 24) in Hm'hi.
    change (2 ^ 23) with 8388608 in *. change (2 ^ 24) with 16777216 in *. nia. }
  assert (Hdq : Zdigits2 q = 24).
  { pose proof (Zdigits2_ge q 23 ltac:(lia) ltac:(lia)).
    pose proof (Zdigits2_lt q 24 ltac:(lia) ltac:(lia)). lia. }
  assert (Hpre : fexp prec emax (Zdigits2 q + e') = e') by (rewrite Hdq, fexp32; lia).
  (* the nearest integer to the square root *)
  set (l := if r =? 0 then loc_Exact else loc_Inexact (if r <=? q then Lt else Gt)).
  assert (Hrep : exists a b S0,
             represents a b (shr_record_of_loc q l) /\
             (forall q2, nearest_even a (b * 2 ^ 0) q2 -> q2 = S0) /\
             2 ^ 23 <= S0 < 2 ^ 24 /\ S0 * S0 - S0 < m' <= S0 * S0 + S0).
  { unfold l. destruct (Z.eqb_spec r 0) as [Hr0|Hr0].
    - exists q, 1, q. split; [apply represents_exact; lia|].
      split; [|split; [lia|nia]].
      intros q2 Hne. change (1 * 2 ^ 0) with 1 in Hne.
      replace q with (q * 1) in Hne at 1 by lia.
      apply nearest_even_integer in Hne; lia.
    - destruct (Z.leb_spec r q) as [Hrq|Hrq].
      + exists (4 * q + 1), 4, q. split.
        { apply represents_init; try lia.
          - apply (Z.div_unique _ _ _ 1); lia.
          - replace ((4 * q + 1) mod 4) with 1; [reflexivity|].
            apply (Z.mod_unique _ _ q); lia. }
        split; [|split; [lia|nia]].
        intros q2 [[H1 H2] _]. change (4 * 2 ^ 0) with 4 in *. lia.
      + exists (4 * q + 3), 4, (q + 1). split.
        { apply represents_init; try lia.
          - apply (Z.div_unique _ _ _ 3); lia.
          - replace ((4 * q + 3) mod 4) with 3; [reflexivity|].
            apply (Z.mod_unique _ _ q); lia. }
        split; [|split; [|nia]].
        * intros q2 [[H1 H2] _]. change (4 * 2 ^ 0) with 4 in *. lia.
        * change (2 ^ 48) with (2 ^ 24 * 2 ^ 24) in Hm'hi.
          change (2 ^ 23) with 8388608 in *. change (2 ^ 24) with 16777216 in *. nia. }
  destruct Hrep as (a & b & S0 & Hrep & Huniq & HS0 & HS0m).
  destruct (binary_round_aux_spec q e' l a b Hrep ltac:(lia)) as (q2 & Hne & _ & _ & Hnn & Hv).
  rewrite Hpre in Hne, Hv. rewrite Z.sub_diag in Hne.
  apply Huniq in Hne. subst q2.
  destruct S0 as [|S|S]; try lia.
  assert (HbS : bounded prec emax S e' = true).
  { apply bounded_spec.
    pose proof (Zdigits2_ge (Zpos S) 23 ltac:(lia) ltac:(lia)) as H1.
    pose proof (Zdigits2_lt (Zpos S) 24 ltac:(lia) ltac:(lia)) as H2.
    cbn [Zdigits2] in H1, H2. lia. }
  exists S, e'. split.
  - apply finite_of_ival; [exact Hnn|exact HbS|].
    rewrite Hv. pose proof (bounded_ival S e' HbS). lia.
  - subst m'. subst s. repeat split; try lia; exact HbS.
Qed.

(* ===================================================================== *)
(** ** The square of the square root *)
(* ===================================================================== *)

(** Squaring the square root of a positive binary32 number [x] gives back
    [x] up to a relative error of [2^-22]. *)
Lemma sqrt_squared_close (m : positive) (e : Z) :
  bounded prec emax m e = true ->
  let x := S754_finite false m e in
  let p := fmul (fsqrt x) (fsqrt x) in
  nonneg p /\ is_finite p = true /\ 0 < ival p /\
  (2 ^ 22 + 1) * ival p <= (2 ^ 22 + 2) * ival x /\
  2 ^ 22 * ival x <= (2 ^ 22 + 1) * ival p.
Proof.
  intros Hb x p.
  pose proof (proj1 (bounded_spec m e) Hb) as (Hd & He & Hc).
  pose proof (bounded_ival m e Hb) as Hix.
  destruct (fsqrt_spec m e Hb) as (S & e' & Hsq & HbS & HS & He' & Hsh & Hm' & Hclose).
  unfold p, x. rewrite Hsq. clear p x.
  change (ival (S754_finite false m e)) with (Zpos m * 2 ^ (e + 149)).
  set (y := fmul (S754_finite false S e') (S754_finite false S e')).
  destruct (binary_round_aux_spec (Zpos (S * S)) (e' + e') loc_Exact (Zpos (S * S)) 1
              (represents_exact _ (Pos2Z.is_nonneg _))
              (fmul_exponent_ok S S e' e' HbS HbS)) as (q2 & Hne & Hq2 & Hq2u & Hnn & Hv).
  change (binary_round_aux prec emax false (Zpos (S * S)) (e' + e') loc_Exact) with y in Hnn, Hv.
  rewrite Z.mul_1_l in Hne.
  set (W := Zpos (S * S)) in *.
  assert (HW : W = Zpos S * Zpos S) by (unfold W; apply Pos2Z.inj_mul).
  set (t := fexp prec emax (Zdigits2 W + (e' + e'))) in *.
  set (sh := e - 2 * e') in *. set (m' := Zpos m * 2 ^ sh) in *.
  assert (HWr : 2 ^ 46 <= W < 2 ^ 48).
  { rewrite HW. change (2 ^ 46) with (2 ^ 23 * 2 ^ 23). change (2 ^ 48) with (2 ^ 24 * 2 ^ 24).
    change (2 ^ 23) with 8388608 in *. change (2 ^ 24) with 16777216 in *. nia. }
  assert (HDg : 47 <= Zdigits2 W <= 48).
  { pose proof (Zdigits2_ge W 46 ltac:(lia) ltac:(lia)).
    pose proof (Zdigits2_lt W 48 ltac:(lia) ltac:(lia)). lia. }
  pose proof (Zdigits2_lower W ltac:(lia)) as HWlo.
  assert (Ht : -149 <= t) by (unfold t; rewrite fexp32; lia).
  assert (Hn : 0 <= t - (e' + e')) by (unfold t; rewrite fexp32; lia).
  set (n := t - (e' + e')) in *.
  pose proof (pow2_pos n Hn) as HP2. set (P2 := 2 ^ n) in *.
  destruct Hne as [[Hlo Hup] _].
  assert (Hq2nn : 0 <= q2).
  { apply Z.le_trans with (2 := proj1 Hq2). apply Z.div_pos; lia. }
  set (Y := q2 * P2).
  assert (HY1 : 2 * Y - P2 <= 2 * W) by (unfold Y; lia).
  assert (HY2 : 2 * W <= 2 * Y + P2) by (unfold Y; lia).
  assert (HS2 : 2 ^ 23 * Zpos S <= W).
  { rewrite HW. apply Z.mul_le_mono_nonneg_r; lia. }
  (* the two bounds, in units of [2^(2 e')] *)
  assert (Hunits : (2 ^ 22 + 1) * Y <= (2 ^ 22 + 2) * m' /\
                   2 ^ 22 * m' <= (2 ^ 22 + 1) * Y /\
                   q2 * 2 ^ (t + 149) < 2 ^ 277).
  { destruct (Z.eq_dec t (Zdigits2 W + (e' + e') - 24)) as [HA|HB].
    - (* the product is rounded as a normal number *)
      assert (HnD : n = Zdigits2 W - 24) by (unfold n; lia).
      assert (HP23 : 2 ^ 23 * P2 <= W).
      { unfold P2. rewrite <- pow2_split by lia.
        replace (23 + n) with (Zdigits2 W - 1) by lia. exact HWlo. }
      rewrite <- HW in Hclose.
      assert (Hlin : (2 ^ 22 + 1) * Y <= (2 ^ 22 + 2) * m' /\
                     2 ^ 22 * m' <= (2 ^ 22 + 1) * Y).
      { clear - Hclose HY1 HY2 HS2 HP23 HP2. clearbody Y m' W P2.
        change (2 ^ 22) with 4194304. change (2 ^ 23) with 8388608 in *. split; lia. }
      destruct Hlin as [Hl1 Hl2].
      split; [exact Hl1|]. split; [exact Hl2|].
      destruct (Z_le_gt_dec t 103) as [Ht103|Ht104].
      + assert (2 ^ (t + 149) <= 2 ^ 252) by (apply Z.pow_le_mono_r; lia).
        pose proof (pow2_pos (t + 149) ltac:(lia)).
        change (2 ^ 277) with (2 * 2 ^ 24 * 2 ^ 252).
        assert (q2 * 2 ^ (t + 149) <= 2 ^ 24 * 2 ^ 252).
        { apply Z.mul_le_mono_nonneg; lia. }
        pose proof (pow2_pos 252 ltac:(lia)). change (2 ^ 24) with 16777216 in *. lia.
      + assert (t = 104) by lia. assert (Hn24 : n = 24) by lia.
        assert (HWu : W <= (2 ^ 24 - 1) * (2 ^ 24 - 1)).
        { rewrite HW. apply Z.mul_le_mono_nonneg; lia. }
        unfold P2 in Hlo. rewrite Hn24 in Hlo.
        change (2 ^ 24) with 16777216 in *.
        assert (q2 <= 16777215) by lia.
        replace (t + 149) with 253 by lia.
        change (2 ^ 277) with (16777216 * 2 ^ 253).
        pose proof (pow2_pos 253 ltac:(lia)). nia.
    - (* the product is rounded as a subnormal number, exactly *)
      assert (Ht149 : t = -149) by (unfold t in *; rewrite fexp32 in *; lia).
      assert (Hsub : Zdigits2 W + (e' + e') - 24 < -149)
        by (unfold t in *; rewrite fexp32 in *; lia).
      assert (Hn25 : 25 <= n) by (unfold n; lia).
      assert (HP25 : 2 ^ 25 <= P2) by (apply Z.pow_le_mono_r; lia).
      assert (Hm'x : m' = Zpos m * 2 ^ (e + 149) * P2).
      { unfold m', P2. rewrite <- Z.mul_assoc, <- pow2_split by lia.
        f_equal. f_equal. unfold sh, n. lia. }
      rewrite <- HW in Hclose.
      set (V := Zpos m * 2 ^ (e + 149)) in *.
      assert (Hq2V : q2 = V).
      { change (2 ^ 23) with 8388608 in *. change (2 ^ 24) with 16777216 in *.
        change (2 ^ 25) with 33554432 in *.
        destruct (Z_lt_le_dec q2 V) as [Hlt|Hge].
        - exfalso. assert ((q2 + 1) * P2 <= V * P2) by (apply Z.mul_le_mono_nonneg_r; lia).
          lia.
        - destruct (Z_lt_le_dec V q2) as [Hlt|Hge']; [|lia].
          exfalso. assert ((V + 1) * P2 <= q2 * P2) by (apply Z.mul_le_mono_nonneg_r; lia).
          lia. }
      unfold Y. rewrite Hq2V, Hm'x, Ht149. change (-149 + 149) with 0.
      rewrite Z.pow_0_r, Z.mul_1_r.
      pose proof (Z.mul_pos_pos V P2 ltac:(lia) ltac:(lia)).
      change (2 ^ 22) with 4194304. lia. }
  destruct Hunits as (Hu1 & Hu2 & Hov).
  assert (Hq2pos : 0 < q2).
  { destruct (Z_le_gt_dec q2 0) as [Hz|]; [|lia]. exfalso.
    assert (Y <= 0) by (unfold Y; nia). change (2 ^ 22) with 4194304 in *. nia. }
  assert (Hvy : ival y = q2 * 2 ^ (t + 149)) by (rewrite Hv; lia).
  pose proof (pow2_pos (t + 149) ltac:(lia)) as Hpt.
  assert (Hypos : 0 < ival y) by (rewrite Hvy; apply Z.mul_pos_pos; lia).
  split; [exact Hnn|]. split.
  { destruct (nn_cases y (nonneg_nn y Hnn)) as [E|[[s E]|[E|(my & ey & E & _)]]];
      rewrite E in *; try reflexivity; cbn [ival cond_Zopp] in Hvy, Hypos; lia. }
  split; [exact Hypos|].
  rewrite Hvy.
  (* change of unit, from [2^(2 e')] to [2^-149] *)
  replace (t + 149) with (n + (e' + e' + 149)) by (unfold n; lia).
  replace (e + 149) with (sh + (e' + e' + 149)) by (unfold sh; lia).
  rewrite !Z.mul_assoc.
  split.
  - apply (pow2_le_shift _ _ _ _ (- (e' + e' + 149))); try (unfold n, sh; lia).
    replace (n + (e' + e' + 149) + - (e' + e' + 149)) with n by lia.
    replace (sh + (e' + e' + 149) + - (e' + e' + 149)) with sh by lia.
    fold P2. unfold Y, m' in Hu1. rewrite !Z.mul_assoc in Hu1. exact Hu1.
  - apply (pow2_le_shift _ _ _ _ (- (e' + e' + 149))); try (unfold n, sh; lia).
    replace (n + (e' + e' + 149) + - (e' + e' + 149)) with n by lia.
    replace (sh + (e' + e' + 149) + - (e' + e' + 149)) with sh by lia.
    fold P2. unfold Y, m' in Hu2. rewrite !Z.mul_assoc in Hu2. exact Hu2.
Qed.

(* ===================================================================== *)
(** ** Cosine similarity *)
(* ===================================================================== *)

Lemma cosine_similarity_full (v1 v2 : list float) (size : Z) :
  Z.of_nat (length v1) = size -> Z.of_nat (length v2) = size ->
  cosine_similarity v1 v2 size =
  Some (cosine_result (mk_sums (dot_product v1 v2) (squared_norm v1) (squared_norm v2))).
Proof.
  intros H1 H2. unfold cosine_similarity.
  rewrite (cosine_sums_full v1 v2 size H1 H2). reflexivity.
Qed.

(** C1. For vectors [v1], [v2] of length [size] whose accumulated squared
    norms are both nonzero, one pass over the data yields the dot product and
    the two squared norms, and [cosine_similarity] returns the dot product
    divided by the product of the two Euclidean norms. *)
Theorem cosine_similarity_formula (v1 v2 : list float) (size : Z) :
  Z.of_nat (length v1) = size -> Z.of_nat (length v2) = size ->
  feqb (squared_norm v1) zero = false ->
  feqb (squared_norm v2) zero = false ->
  cosine_sums v1 v2 size =
    Some (mk_sums (dot_product v1 v2) (squared_norm v1) (squared_norm v2)) /\
  cosine_similarity v1 v2 size =
    Some (fdiv (dot_product v1 v2) (fmul (euclidean_norm v1) (euclidean_norm v2))).
Proof.
  intros H1 H2 Hn1 Hn2. split.
  - apply cosine_sums_full; assumption.
  - rewrite (cosine_similarity_full v1 v2 size H1 H2).
    unfold cosine_result. cbn [dot norm_v1 norm_v2].
    rewrite Hn1, Hn2. reflexivity.
Qed.

Lemma cosine_similarity_formula_witness :
  cosine_similarity [of_Z 3; of_Z 4] [of_Z 4; of_Z 3] 2 =
  Some (fdiv (dot_product [of_Z 3; of_Z 4] [of_Z 4; of_Z 3])
             (fmul (euclidean_norm [of_Z 3; of_Z 4]) (euclidean_norm [of_Z 4; of_Z 3]))).
Proof.
  apply (cosine_similarity_formula [of_Z 3; of_Z 4] [of_Z 4; of_Z 3] 2); reflexivity.
Defined.

(** The squared norm of a vector of zeros is [+0.0f]. *)
Lemma squared_norm_zero_vector (v : list float) :
  zero_vector v -> squared_norm v = zero.
Proof.
  unfold squared_norm, zero_vector. induction 1 as [|x v Hx _ IH]; [reflexivity|].
  cbn [fold_left]. destruct x as [s| | |]; try discriminate.
  replace (fadd zero (fmul (S754_zero s) (S754_zero s))) with zero; [exact IH|].
  destruct s; reflexivity.
Qed.

(** The clamp: a squared norm that compares equal to zero gives [+0.0f]. *)
Lemma cosine_similarity_clamp (v1 v2 : list float) (size : Z) :
  Z.of_nat (length v1) = size -> Z.of_nat (length v2) = size ->
  feqb (squared_norm v1) zero = true \/ feqb (squared_norm v2) zero = true ->
  cosine_similarity v1 v2 size = Some zero.
Proof.
  intros H1 H2 Hz. rewrite (cosine_similarity_full v1 v2 size H1 H2).
  unfold cosine_result. cbn [dot norm_v1 norm_v2].
  destruct Hz as [-> | ->]; [reflexivity|]. rewrite orb_true_r. reflexivity.
Qed.

Lemma cosine_similarity_zero_vector_l (v1 v2 : list float) (size : Z) :
  Z.of_nat (length v1) = size -> Z.of_nat (length v2) = size ->
  zero_vector v1 -> cosine_similarity v1 v2 size = Some zero.
Proof.
  intros H1 H2 Hz. apply cosine_similarity_clamp; try assumption.
  left. rewrite (squared_norm_zero_vector v1 Hz). reflexivity.
Qed.

Lemma cosine_similarity_zero_vector_r (v1 v2 : list float) (size : Z) :
  Z.of_nat (length v1) = size -> Z.of_nat (length v2) = size ->
  zero_vector v2 -> cosine_similarity v1 v2 size = Some zero.
Proof.
  intros H1 H2 Hz. apply cosine_similarity_clamp; try assumption.
  right. rewrite (squared_norm_zero_vector v2 Hz). reflexivity.
Qed.

(** C2. When the accumulated squared norm of either vector compares equal to
    zero, [cosine_similarity] returns exactly [+0.0f] (no division takes
    place); in particular it does so when the first vector is a zero vector,
    whatever the second vector holds (zeros, infinities and NaNs included). *)
Theorem cosine_similarity_zero_norm (v1 v2 : list float) (size : Z) :
  Z.of_nat (length v1) = size -> Z.of_nat (length v2) = size ->
  (feqb (squared_norm v1) zero = true \/ feqb (squared_norm v2) zero = true ->
   cosine_similarity v1 v2 size = Some zero) /\
  (zero_vector v1 -> cosine_similarity v1 v2 size = Some zero).
Proof.
  intros H1 H2. split.
  - apply cosine_similarity_clamp; assumption.
  - apply cosine_similarity_zero_vector_l; assumption.
Qed.

Lemma cosine_similarity_zero_norm_witness :
  cosine_similarity [zero; neg_zero] [nan; infinity] 2 = Some zero /\
  cosine_similarity [zero; zero] [zero; zero] 2 = Some zero.
Proof.
  split.
  - apply (cosine_similarity_zero_norm [zero; neg_zero] [nan; infinity] 2);
      [reflexivity|reflexivity|].
    repeat constructor.
  - apply (proj1 (cosine_similarity_zero_norm [zero; zero] [zero; zero] 2
                    eq_refl eq_refl)).
    left. reflexivity.
Defined.

Lemma cosine_step_swap (v1 v2 : buffer) (i : Z) (s : sums) :
  cosine_step v2 v1 i (swap_sums s) =
  bind (cosine_step v1 v2 i s) (fun s' => Some (swap_sums s')).
Proof.
  unfold cosine_step. destruct (load v1 i) as [a|], (load v2 i) as [b|]; cbn [bind];
    try reflexivity.
  unfold swap_sums. cbn [dot norm_v1 norm_v2]. rewrite (fmul_comm b a). reflexivity.
Qed.

Lemma cosine_loop_swap (v1 v2 : buffer) :
  forall n i s,
    for_range n i (cosine_step v2 v1) (swap_sums s) =
    bind (for_range n i (cosine_step v1 v2) s) (fun s' => Some (swap_sums s')).
Proof.
  induction n as [|n IH]; intros i s; cbn [for_range]; [reflexivity|].
  rewrite cosine_step_swap.
  destruct (cosine_step v1 v2 i s) as [s'|]; cbn [bind]; [apply IH|reflexivity].
Qed.

Lemma cosine_result_swap (s : sums) : cosine_result (swap_sums s) = cosine_result s.
Proof.
  unfold cosine_result, swap_sums. cbn [dot norm_v1 norm_v2].
  rewrite orb_comm, (fmul_comm (fsqrt (norm_v2 s))). reflexivity.
Qed.

Lemma cosine_similarity_swap_args (v1 v2 : buffer) (size : Z) :
  cosine_similarity v1 v2 size = cosine_similarity v2 v1 size.
Proof.
  unfold cosine_similarity, cosine_sums, for_upto.
  change sums_init with (swap_sums sums_init) at 2.
  rewrite cosine_loop_swap.
  destruct (for_range (Z.to_nat size) 0 (cosine_step v1 v2) sums_init) as [s|];
    cbn [bind]; [|reflexivity].
  rewrite cosine_result_swap. reflexivity.
Qed.

Lemma feqb_refl (x : float) : is_nan x = false -> feqb x x = true.
Proof.
  destruct x as [s|s| |s m e]; try discriminate; intros _; unfold feqb, SFeqb;
    cbn [SFcompare]; try (destruct s; reflexivity).
  rewrite Z.compare_refl, Pos.compare_cont_refl. destruct s; reflexivity.
Qed.

(** C5. [cosine_similarity] is symmetric in its two vector arguments: the
    two calls return the same float (or both read out of bounds), and the two
    results compare equal with [==] unless they are NaNs. *)
Theorem cosine_similarity_symmetric (v1 v2 : buffer) (size : Z) :
  cosine_similarity v1 v2 size = cosine_similarity v2 v1 size /\
  (forall r r', cosine_similarity v1 v2 size = Some r ->
                cosine_similarity v2 v1 size = Some r' ->
                is_nan r = false -> feqb r r' = true).
Proof.
  split; [apply cosine_similarity_swap_args|].
  intros r r' H H' N. rewrite cosine_similarity_swap_args, H' in H.
  injection H as ->. apply feqb_refl, N.
Qed.

Lemma cosine_similarity_symmetric_witness :
  feqb (fdiv (of_Z 24) (of_Z 25)) (fdiv (of_Z 24) (of_Z 25)) = true.
Proof.
  apply (proj2 (cosine_similarity_symmetric [of_Z 3; of_Z 4] [of_Z 4; of_Z 3] 2));
    reflexivity.
Defined.

(* ===================================================================== *)
(** ** Risk propagation *)
(* ===================================================================== *)

Lemma fsub_one_well_formed (y : float) : well_formed (fsub one y).
Proof.
  destruct y as [sy|sy| |sy my ey]; try reflexivity.
  apply binary_normalize_well_formed.
Qed.

Lemma local_p_success_well_formed (f m : float) : well_formed (local_p_success f m).
Proof. apply fsub_one_well_formed. Qed.

Lemma fold_fmul_well_formed (parents : list float) :
  Forall well_formed parents ->
  forall p, well_formed p -> well_formed (fold_left fmul parents p).
Proof.
  induction 1 as [|x parents Hx _ IH]; intros p Hp; cbn [fold_left];
    auto with binary32.
Qed.

Lemma product_well_formed (parents : list float) :
  Forall well_formed parents -> well_formed (product parents).
Proof. intros H. apply fold_fmul_well_formed; [assumption|reflexivity]. Qed.

Lemma propagate_risk_full (f m : float) (parents : list float) (k : Z) :
  Z.of_nat (length parents) = k ->
  propagate_risk f m parents k =
  Some (fmul (local_p_success f m) (product parents)).
Proof.
  intros Hk. unfold propagate_risk.
  rewrite (parent_p_success_full parents k Hk). reflexivity.
Qed.

Lemma fmin_one_le (x : float) : fleb (fmin one x) one = true.
Proof.
  unfold fmin. destruct (fltb x one) eqn:Hlt; [|reflexivity].
  unfold fltb, SFltb in Hlt. unfold fleb, SFleb.
  destruct (SFcompare x one) as [[]|]; try discriminate. reflexivity.
Qed.

(** C3. [propagate_risk] returns [(1 - min(1, f * m))] times the product of
    the [num_parents] parent probabilities.  The clamped product is at most
    [1.0f], so that the local success term is never negative; a product below
    [1.0f] (a negative one included) is subtracted as it is. *)
Theorem propagate_risk_formula (f m : float) (parents : list float) (num_parents : Z) :
  well_formed f -> well_formed m ->
  Z.of_nat (length parents) = num_parents ->
  propagate_risk f m parents num_parents =
    Some (fmul (fsub one (fmin one (fmul f m))) (product parents)) /\
  fleb (fmin one (fmul f m)) one = true /\
  fltb (fsub one (fmin one (fmul f m))) zero = false /\
  (fltb (fmul f m) one = true -> fmin one (fmul f m) = fmul f m).
Proof.
  intros Hf Hm Hk. split; [|split; [|split]].
  - apply propagate_risk_full, Hk.
  - apply fmin_one_le.
  - apply sign_false_not_negative.
    apply (local_term_sign (fmul f m)), fmul_well_formed; assumption.
  - intros Hlt. unfold fmin. rewrite Hlt. reflexivity.
Qed.

Lemma propagate_risk_formula_witness :
  propagate_risk (of_scaled 1 (-2)) (of_Z 3) [of_scaled 1 (-1); of_scaled 3 (-2)] 2 =
    Some (fmul (fsub one (fmin one (fmul (of_scaled 1 (-2)) (of_Z 3))))
               (product [of_scaled 1 (-1); of_scaled 3 (-2)])) /\
  fmin one (fmul (of_scaled 1 (-2)) (of_Z 3)) = fmul (of_scaled 1 (-2)) (of_Z 3).
Proof.
  pose proof (propagate_risk_formula (of_scaled 1 (-2)) (of_Z 3)
                [of_scaled 1 (-1); of_scaled 3 (-2)] 2 eq_refl eq_refl eq_refl)
    as (H1 & _ & _ & H4).
  split; [exact H1|apply H4; reflexivity].
Defined.

(** C6. With no parent the parent product is [1.0f] and [propagate_risk]
    returns the local term [1 - min(1, f * m)] itself. *)
Theorem propagate_risk_no_parents (f m : float) :
  parent_p_success [] 0 = Some one /\
  propagate_risk f m [] 0 = Some (fsub one (fmin one (fmul f m))).
Proof.
  split; [reflexivity|].
  rewrite (propagate_risk_full f m [] 0 eq_refl).
  change (product []) with one.
  rewrite (fmul_one_r _ (local_p_success_well_formed f m)). reflexivity.
Qed.

(** C7, as the specification states it, fails: with an infinite multiplier
    the product [0 * m] is a NaN, which the clamp turns into a local failure
    of [1.0f]. *)
Lemma propagate_risk_zero_failure_infinite_multiplier :
  product [one] = one /\
  propagate_risk zero infinity [one] 1 = Some zero /\
  propagate_risk zero infinity [one] 1 <> Some (product [one]).
Proof. split; [reflexivity|]. split; [reflexivity|discriminate]. Qed.

(** C7 (amended). With a zero local failure probability and a finite
    multiplier, [propagate_risk] returns the product of the parent
    probabilities. *)
Theorem propagate_risk_zero_failure (f m : float) (parents : list float) (k : Z) :
  is_zero f = true -> is_finite m = true ->
  Forall well_formed parents -> Z.of_nat (length parents) = k ->
  propagate_risk f m parents k = Some (product parents).
Proof.
  intros Hf Hm Hp Hk. rewrite (propagate_risk_full f m parents k Hk).
  replace (local_p_success f m) with one.
  - rewrite (fmul_one_l _ (product_well_formed parents Hp)). reflexivity.
  - destruct f as [sf| | |]; try discriminate.
    destruct m as [sm| | |sm mm em]; try discriminate;
      destruct sf, sm; reflexivity.
Qed.

Lemma propagate_risk_zero_failure_witness :
  propagate_risk zero (of_Z 7) [of_scaled 1 (-1); of_scaled 3 (-2)] 2 =
  Some (product [of_scaled 1 (-1); of_scaled 3 (-2)]).
Proof.
  apply (propagate_risk_zero_failure zero (of_Z 7) [of_scaled 1 (-1); of_scaled 3 (-2)] 2);
    try reflexivity.
  repeat constructor.
Defined.

(* ===================================================================== *)
(** ** Influence score *)
(* ===================================================================== *)

(** C4, as the specification states it, fails: a zero vector does not force
    the result to zero when the centrality is infinite, and a zero centrality
    does not when the similarity is a NaN. *)
Lemma influence_not_zero_regardless_of_centrality :
  zero_vector [zero] /\
  calculate_influence_tensor [zero] [one] 1 infinity = Some nan /\
  calculate_influence_tensor [of_scaled 1 100] [of_scaled 1 100] 1 zero = Some nan /\
  is_zero nan = false /\ feqb nan zero = false.
Proof. split; [repeat constructor|repeat split]. Qed.

(** C4 (amended). [calculate_influence_tensor] returns the cosine similarity
    times the centrality, whatever the centrality.  With a zero centrality
    the result is a zero when the similarity is finite; when either vector is
    a zero vector the result is a zero when the centrality is finite. *)
Theorem influence_is_scaled_similarity (v1 v2 : list float) (n : Z) (c : float) :
  Z.of_nat (length v1) = n -> Z.of_nat (length v2) = n ->
  exists sim,
    cosine_similarity v1 v2 n = Some sim /\
    calculate_influence_tensor v1 v2 n c = Some (fmul sim c) /\
    (is_zero c = true -> is_finite sim = true -> is_zero (fmul sim c) = true) /\
    (zero_vector v1 \/ zero_vector v2 -> is_finite c = true ->
     sim = zero /\ is_zero (fmul sim c) = true).
Proof.
  intros H1 H2.
  exists (cosine_result (mk_sums (dot_product v1 v2) (squared_norm v1) (squared_norm v2))).
  pose proof (cosine_similarity_full v1 v2 n H1 H2) as Hcos.
  split; [exact Hcos|]. split; [|split].
  - unfold calculate_influence_tensor. rewrite Hcos. reflexivity.
  - intros Hc Hs. destruct c as [sc| | |]; try discriminate.
    destruct (cosine_result _) as [s| | |s mm e]; try discriminate; reflexivity.
  - intros Hz Hc.
    assert (Hsim : cosine_similarity v1 v2 n = Some zero).
    { destruct Hz as [Hz|Hz].
      - apply cosine_similarity_zero_vector_l; assumption.
      - apply cosine_similarity_zero_vector_r; assumption. }
    rewrite Hcos in Hsim. injection Hsim as ->.
    split; [reflexivity|].
    destruct c as [sc| | |sc mc ec]; try discriminate; reflexivity.
Qed.

Lemma influence_is_scaled_similarity_witness :
  (exists sim,
     cosine_similarity [zero; zero] [of_Z 3; of_Z 4] 2 = Some sim /\
     calculate_influence_tensor [zero; zero] [of_Z 3; of_Z 4] 2 (of_Z (-2)) =
       Some (fmul sim (of_Z (-2))) /\
     sim = zero /\ is_zero (fmul sim (of_Z (-2))) = true) /\
  (exists sim,
     cosine_similarity [of_Z 3; of_Z 4] [of_Z 4; of_Z 3] 2 = Some sim /\
     calculate_influence_tensor [of_Z 3; of_Z 4] [of_Z 4; of_Z 3] 2 zero =
       Some (fmul sim zero) /\
     is_zero (fmul sim zero) = true).
Proof.
  split.
  - destruct (influence_is_scaled_similarity [zero; zero] [of_Z 3; of_Z 4] 2 (of_Z (-2))
                eq_refl eq_refl) as (sim & Hs & Hi & _ & Hz).
    exists sim. split; [exact Hs|]. split; [exact Hi|].
    apply Hz; [left; repeat constructor|reflexivity].
  - destruct (influence_is_scaled_similarity [of_Z 3; of_Z 4] [of_Z 4; of_Z 3] 2 zero
                eq_refl eq_refl) as (sim & Hs & Hi & Hc & _).
    exists sim. split; [exact Hs|]. split; [exact Hi|].
    apply Hc; [reflexivity|].
    vm_compute in Hs. injection Hs as <-. reflexivity.
Defined.

(* ===================================================================== *)
(** ** The concrete scenarios of the specification *)
(* ===================================================================== *)

Example scenario_1 : cosine_similarity [one; zero] [one; zero] 2 = Some one.
Proof. reflexivity. Qed.

Example scenario_2 : cosine_similarity [one; zero] [zero; one] 2 = Some zero.
Proof. reflexivity. Qed.

Example scenario_3 :
  calculate_influence_tensor [one; zero] [one; zero] 2 (decimal 5 10) =
  Some (decimal 5 10).
Proof. reflexivity. Qed.

Example scenario_4 :
  propagate_risk (decimal 2 10) one [decimal 9 10; decimal 8 10] 2 =
    Some (decimal 576 1000) /\
  fmul (fmul (fsub one (decimal 2 10)) (decimal 9 10)) (decimal 8 10) =
    decimal 576 1000.
Proof. split; reflexivity. Qed.

Example scenario_5 : propagate_risk (of_Z 2) one [] 0 = Some zero.
Proof. reflexivity. Qed.

(* ===================================================================== *)
(** ** Non-positive counts *)
(* ===================================================================== *)

(** C10. When [size <= 0] the loop of [cosine_similarity] runs no iteration
    and the function returns [+0.0f]; when [num_parents <= 0] the parent
    product of [propagate_risk] is [1.0f] and the function returns the local
    success term.  Both hold whatever is readable from the pointers, the
    empty buffer (every read of which fails) included. *)
Theorem nonpositive_counts (v1 v2 parents : buffer) (size num_parents : Z) (f m : float) :
  size <= 0 -> num_parents <= 0 ->
  cosine_sums v1 v2 size = Some sums_init /\
  cosine_similarity v1 v2 size = Some zero /\
  cosine_similarity [] [] size = Some zero /\
  parent_p_success parents num_parents = Some one /\
  propagate_risk f m parents num_parents = Some (local_p_success f m) /\
  propagate_risk f m [] num_parents = Some (local_p_success f m).
Proof.
  intros Hs Hk.
  assert (Hc : forall a b, cosine_sums a b size = Some sums_init).
  { intros a b. apply for_upto_nonpos, Hs. }
  assert (Hp : forall a, parent_p_success a num_parents = Some one).
  { intros a. apply for_upto_nonpos, Hk. }
  assert (Hr : forall a, propagate_risk f m a num_parents = Some (local_p_success f m)).
  { intros a. unfold propagate_risk. rewrite Hp. cbn [bind].
    rewrite (fmul_one_r _ (local_p_success_well_formed f m)). reflexivity. }
  unfold cosine_similarity. rewrite !Hc. cbn [bind].
  repeat split; auto.
Qed.

Lemma nonpositive_counts_witness :
  cosine_similarity [one] [one] (-3) = Some zero /\
  propagate_risk (of_scaled 1 (-2)) one [of_scaled 1 (-1)] 0 =
    Some (local_p_success (of_scaled 1 (-2)) one).
Proof.
  pose proof (nonpositive_counts [one] [one] [of_scaled 1 (-1)] (-3) 0
                (of_scaled 1 (-2)) one ltac:(lia) ltac:(lia)) as H.
  split; [apply H|apply H].
Defined.

(* ===================================================================== *)
(** ** Monotonicity of the risk propagation *)
(* ===================================================================== *)

Lemma fleb_zero_nonneg (x : float) :
  well_formed x -> fleb zero x = true -> nonneg x.
Proof.
  intros W H. assert (N : is_nan x = false) by (destruct x; try reflexivity; discriminate).
  unfold fleb, SFleb in H. rewrite (compare_ival zero x eq_refl W eq_refl N) in H.
  repeat split; try assumption. cbn [ival zero] in H.
  destruct (Z.compare_spec 0 (ival x)); try discriminate; lia.
Qed.

Lemma fleb_le_or_nan (x y : float) :
  nonneg x -> nonneg y -> fleb x y = true -> le_or_nan x y.
Proof.
  intros Hx Hy H. right. right. repeat split; try apply Hx; try apply Hy.
  destruct Hx as (Wx & Nx & _), Hy as (Wy & Ny & _).
  unfold fleb, SFleb in H. rewrite (compare_ival x y Wx Wy Nx Ny) in H.
  destruct (Z.compare_spec (ival x) (ival y)); try discriminate; lia.
Qed.

Lemma local_p_success_nn (f m : float) :
  well_formed f -> well_formed m -> nn (local_p_success f m).
Proof.
  intros Hf Hm. split; [apply local_p_success_well_formed|].
  apply sign_false_ival. apply (local_term_sign (fmul f m)). auto with binary32.
Qed.

Lemma Forall_nonneg_nn (l : list float) :
  Forall well_formed l -> Forall (fun x => fleb zero x = true) l -> Forall nn l.
Proof.
  intros Hw Hp. rewrite Forall_forall in *. intros x Hx.
  apply nonneg_nn, fleb_zero_nonneg; auto.
Qed.

(** C8, as the specification states it, fails: with a negative entry among
    the other parents, lowering a parent probability from [1] to [1/2] raises
    the result from [-1] to [-1/2]. *)
Lemma propagate_risk_not_monotone :
  fleb zero (of_scaled 1 (-1)) = true /\ fleb (of_scaled 1 (-1)) one = true /\
  propagate_risk zero one [one; of_Z (-1)] 2 = Some (of_Z (-1)) /\
  propagate_risk zero one [of_scaled 1 (-1); of_Z (-1)] 2 = Some (of_scaled (-1) (-1)) /\
  fltb (of_Z (-1)) (of_scaled (-1) (-1)) = true.
Proof. repeat split. Qed.

(** C8 (amended). When no parent probability is negative, lowering one entry
    of the parent array (the entry [p] at index [length before]) to a value
    [q] between zero and the entry never raises the result of
    [propagate_risk]: the new result is not greater than the old one, and it
    is less than or equal to it unless one of them is a NaN (which zero times
    infinity yields). *)
Theorem propagate_risk_monotone (f m : float) (before after : list float)
  (p q : float) (k : Z) :
  well_formed f -> well_formed m ->
  Forall well_formed (before ++ p :: after) ->
  Forall (fun x => fleb zero x = true) (before ++ p :: after) ->
  well_formed q -> fleb zero q = true -> fleb q p = true ->
  Z.of_nat (length (before ++ p :: after)) = k ->
  exists r r',
    propagate_risk f m (before ++ p :: after) k = Some r /\
    propagate_risk f m (before ++ q :: after) k = Some r' /\
    fltb r r' = false /\
    (is_nan r = false -> is_nan r' = false -> fleb r' r = true).
Proof.
  intros Hf Hm Hw Hp Hwq Hq Hqp Hk.
  assert (Hk' : Z.of_nat (length (before ++ q :: after)) = k).
  { rewrite <- Hk, !length_app. reflexivity. }
  rewrite (propagate_risk_full f m _ k Hk), (propagate_risk_full f m _ k Hk').
  do 2 eexists. split; [reflexivity|]. split; [reflexivity|].
  pose proof (Forall_nonneg_nn _ Hw Hp) as Hnn.
  apply Forall_app in Hnn. destruct Hnn as [Hnb Hna].
  apply Forall_app in Hw. destruct Hw as [_ Hwa].
  apply Forall_app in Hp. destruct Hp as [_ Hpa].
  pose proof (Forall_inv Hwa) as Hwp. pose proof (Forall_inv Hpa) as Hpp.
  pose proof (Forall_inv_tail Hna) as Hnt.
  assert (Hone : nn one) by (split; [reflexivity|cbn; lia]).
  pose proof (fold_fmul_nn before Hnb one Hone) as HA.
  assert (Hle : le_or_nan q p).
  { apply fleb_le_or_nan; try apply fleb_zero_nonneg; assumption. }
  match goal with
  | |- fltb ?r ?r' = false /\ _ =>
      cut (le_or_nan r' r);
        [intros H; destruct (le_or_nan_not_greater _ _ H); split; auto|]
  end.
  apply fmul_le_or_nan_r; [|apply local_p_success_nn; assumption].
  unfold product. rewrite !fold_left_app. cbn [fold_left].
  apply fold_fmul_le_or_nan; [exact Hnt|].
  apply fmul_le_or_nan_r; assumption.
Qed.

Lemma propagate_risk_monotone_witness :
  exists r r',
    propagate_risk (of_scaled 1 (-2)) one
      [of_scaled 3 (-2); one; of_scaled 1 (-1)] 3 = Some r /\
    propagate_risk (of_scaled 1 (-2)) one
      [of_scaled 3 (-2); of_scaled 1 (-3); of_scaled 1 (-1)] 3 = Some r' /\
    fltb r r' = false /\ fleb r' r = true.
Proof.
  destruct (propagate_risk_monotone (of_scaled 1 (-2)) one
              [of_scaled 3 (-2)] [of_scaled 1 (-1)] one (of_scaled 1 (-3)) 3)
    as (r & r' & H1 & H2 & H3 & H4); try reflexivity; try (repeat constructor).
  exists r, r'. split; [exact H1|]. split; [exact H2|]. split; [exact H3|].
  vm_compute in H1, H2. injection H1 as <-. injection H2 as <-.
  apply H4; reflexivity.
Defined.

(* ===================================================================== *)
(** ** Similarity of a vector with itself *)
(* ===================================================================== *)

Lemma fmul_self_nn (x : float) : well_formed x -> nn (fmul x x).
Proof.
  intros W. destruct x as [s|s| |s m e].
  - split; [reflexivity|cbn; lia].
  - destruct s; split; try reflexivity; cbn [ival fmul SFmul xorb cond_Zopp];
      apply Z.pow_nonneg; lia.
  - split; [reflexivity|cbn; lia].
  - replace (fmul (S754_finite s m e) (S754_finite s m e))
      with (fmul (S754_finite false m e) (S754_finite false m e))
      by (destruct s; reflexivity).
    apply nonneg_nn, fmul_finite_spec; exact W.
Qed.

Lemma fadd_nn (x y : float) : nn x -> nn y -> nn (fadd x y).
Proof.
  intros Hx Hy. split.
  - apply fadd_well_formed; [apply Hx|apply Hy].
  - destruct (nn_cases x Hx) as [->|[[sx ->]|[->|(mx & ex & -> & Bx)]]];
    destruct (nn_cases y Hy) as [->|[[sy ->]|[->|(my & ey & -> & By)]]];
      try (cbn; lia); try (destruct sx; cbn; lia); try (destruct sy; cbn; lia);
      try (apply Z.pow_nonneg; lia); try apply Hx; try apply Hy.
    + destruct sx, sy; cbn; lia.
    + unfold fadd. cbn [SFadd cond_Zopp].
      apply sign_false_ival, binary_normalize_nonneg_sign. lia.
Qed.

Lemma squared_norm_nn (v : list float) :
  Forall well_formed v -> nn (squared_norm v).
Proof.
  intros Hv. unfold squared_norm.
  assert (H0 : nn zero) by (split; [reflexivity|cbn; lia]).
  revert H0. generalize zero.
  induction Hv as [|x v Hx _ IH]; intros acc Hacc; cbn [fold_left]; [exact Hacc|].
  apply IH, fadd_nn; [exact Hacc|apply fmul_self_nn, Hx].
Qed.

Lemma dot_product_self (v : list float) : dot_product v v = squared_norm v.
Proof.
  unfold dot_product, squared_norm. generalize zero.
  induction v as [|x v IH]; intros acc; cbn [combine fold_left fst snd]; [reflexivity|].
  apply IH.
Qed.

Lemma ival_le_fleb (x y : float) :
  well_formed x -> well_formed y -> is_nan x = false -> is_nan y = false ->
  ival x <= ival y -> fleb x y = true.
Proof.
  intros Wx Wy Nx Ny H. unfold fleb, SFleb. rewrite (compare_ival x y Wx Wy Nx Ny).
  destruct (Z.compare_spec (ival x) (ival y)); try reflexivity. lia.
Qed.

(** C9, as the specification states it, fails: the squares of the components
    of a non-zero vector may all underflow to zero, and the function then
    returns [0.0f]; they may overflow, and the function then returns a NaN. *)
Lemma cosine_self_similarity_underflow :
  well_formed (of_scaled 1 (-100)) /\ is_zero (of_scaled 1 (-100)) = false /\
  cosine_similarity [of_scaled 1 (-100)] [of_scaled 1 (-100)] 1 = Some zero /\
  fleb self_similarity_lo zero = false /\
  well_formed (of_scaled 1 100) /\ is_finite (of_scaled 1 100) = true /\
  cosine_similarity [of_scaled 1 100] [of_scaled 1 100] 1 = Some nan /\
  fleb self_similarity_lo nan = false.
Proof. repeat split. Qed.

(** C9 (amended). For a vector [v] of length [n] whose accumulated squared
    norm is finite and not zero, [cosine_similarity v v n] is [1.0f] within
    [2^-22]: it lies between [1 - 2^-22] and [1 + 2^-22]. *)
Theorem cosine_self_similarity (v : list float) (n : Z) :
  Z.of_nat (length v) = n -> Forall well_formed v ->
  is_finite (squared_norm v) = true -> feqb (squared_norm v) zero = false ->
  exists r,
    cosine_similarity v v n = Some r /\
    fleb self_similarity_lo r = true /\ fleb r self_similarity_hi = true.
Proof.
  intros Hn Hv Hfin Hnz.
  rewrite (cosine_similarity_full v v n Hn Hn).
  unfold cosine_result. cbn [dot norm_v1 norm_v2].
  rewrite Hnz, dot_product_self. cbn [orb].
  eexists. split; [reflexivity|].
  pose proof (squared_norm_nn v Hv) as Hnn.
  destruct (nn_cases _ Hnn) as [E|[[s E]|[E|(m & e & E & Hb)]]];
    rewrite E in *; try discriminate.
  destruct (sqrt_squared_close m e Hb) as (Hp & Fp & Pp & Hu1 & Hu2).
  set (x := S754_finite false m e) in *.
  set (p := fmul (fsqrt x) (fsqrt x)) in *.
  assert (Hx : nonneg x) by (apply nn_nonneg; [exact Hnn|reflexivity]).
  pose proof (bounded_ival m e Hb) as Hix.
  change (Zpos m * 2 ^ (e + 149)) with (ival x) in Hix.
  assert (Hlo : nonneg self_similarity_lo) by (repeat split; cbn; lia).
  assert (Hhi : nonneg self_similarity_hi) by (repeat split; cbn; lia).
  assert (Vlo : ival self_similarity_lo = 16777212 * 2 ^ 125) by reflexivity.
  assert (Vhi : ival self_similarity_hi = 8388610 * 2 ^ 126) by reflexivity.
  destruct (fdiv_lower x p self_similarity_lo Hx Hp Hlo eq_refl Fp eq_refl
              ltac:(lia) Pp ltac:(rewrite Vlo; lia)) as [Hr Hrlo].
  { rewrite Vlo. change (2 ^ 22) with 4194304 in *.
    change (2 ^ 149) with (16777216 * 2 ^ 125).
    pose proof (pow2_pos 125 ltac:(lia)). nia. }
  pose proof (fdiv_upper x p self_similarity_hi Hx Hp Hhi eq_refl Fp eq_refl
                ltac:(lia) Pp ltac:(rewrite Vhi; lia)) as Hrhi.
  assert (Hup : ival (fdiv x p) <= ival self_similarity_hi).
  { apply Hrhi. rewrite Vhi. change (2 ^ 22) with 4194304 in *.
    change (2 ^ 149) with (8388608 * 2 ^ 126).
    pose proof (pow2_pos 126 ltac:(lia)). nia. }
  destruct Hr as (Wr & Nr & _).
  split; apply ival_le_fleb; try assumption; try reflexivity.
Qed.

Lemma cosine_self_similarity_witness :
  exists r,
    cosine_similarity [of_Z 3; of_scaled 7 (-3); of_Z (-5)]
                      [of_Z 3; of_scaled 7 (-3); of_Z (-5)] 3 = Some r /\
    fleb self_similarity_lo r = true /\ fleb r self_similarity_hi = true.
Proof.
  apply (cosine_self_similarity [of_Z 3; of_scaled 7 (-3); of_Z (-5)] 3);
    try reflexivity.
  repeat constructor.
Defined.

(* ===================================================================== *)
(** ** Which elements are read *)
(* ===================================================================== *)

Lemma load_firstn (k : nat) (v : buffer) (j : Z) :
  0 <= j < Z.of_nat k -> load (firstn k v) j = load v j.
Proof.
  intros Hj. unfold load. destruct (Z.ltb_spec j 0); [lia|].
  rewrite nth_error_firstn.
  destruct (Nat.ltb_spec (Z.to_nat j) k); [reflexivity|lia].
Qed.

Lemma load_out_of_range (v : buffer) (j : Z) :
  Z.of_nat (length v) <= j -> load v j = None.
Proof.
  intros Hj. unfold load. destruct (Z.ltb_spec j 0); [reflexivity|].
  apply nth_error_None. lia.
Qed.

(** A loop whose body fails at one of its indices fails. *)
Lemma for_range_fails {S : Type} (body : Z -> S -> option S) (j : Z) :
  (forall s, body j s = None) ->
  forall n i s, i <= j < i + Z.of_nat n -> for_range n i body s = None.
Proof.
  intros Hj. induction n as [|n IH]; intros i s Hi; [lia|].
  cbn [for_range]. destruct (Z.eq_dec i j) as [->|Hne].
  - rewrite Hj. reflexivity.
  - destruct (body i s) as [s'|]; cbn [bind]; [|reflexivity].
    apply IH. lia.
Qed.

Lemma cosine_sums_prefix (v1 v2 : buffer) (size : Z) :
  size <= Z.of_nat (length v1) -> size <= Z.of_nat (length v2) ->
  cosine_sums v1 v2 size =
  Some (mk_sums (dot_product (firstn (Z.to_nat size) v1) (firstn (Z.to_nat size) v2))
                (squared_norm (firstn (Z.to_nat size) v1))
                (squared_norm (firstn (Z.to_nat size) v2))).
Proof.
  intros H1 H2. unfold cosine_sums, for_upto.
  set (k := Z.to_nat size).
  assert (Hk1 : length (firstn k v1) = k) by (apply firstn_length_le; lia).
  assert (Hk2 : length (firstn k v2) = k) by (apply firstn_length_le; lia).
  rewrite (for_range_ext _ (cosine_step (firstn k v1) (firstn k v2))).
  - rewrite <- Hk1 at 1. rewrite cosine_loop_sums by congruence. reflexivity.
  - intros j s Hj. unfold cosine_step. rewrite !load_firstn by lia. reflexivity.
Qed.

Lemma cosine_sums_out_of_range (v1 v2 : buffer) (size : Z) :
  Z.of_nat (length v1) < size \/ Z.of_nat (length v2) < size ->
  cosine_sums v1 v2 size = None.
Proof.
  intros H. unfold cosine_sums, for_upto.
  destruct H as [H|H].
  - apply (for_range_fails _ (Z.of_nat (length v1))); [|lia].
    intros s. unfold cosine_step. rewrite load_out_of_range by lia. reflexivity.
  - apply (for_range_fails _ (Z.of_nat (length v2))); [|lia].
    intros s. unfold cosine_step. rewrite (load_out_of_range v2) by lia.
    destruct (load v1 _); reflexivity.
Qed.

(** X1. [cosine_similarity] reads both buffers at the indices [0 .. size-1]
    and nowhere else: the call is undefined (a read out of bounds) exactly
    when [size] exceeds the number of elements readable from one of the two
    pointers, and [calculate_influence_tensor] inherits this. *)
Theorem cosine_similarity_out_of_bounds (v1 v2 : buffer) (size : Z) (c : float) :
  (cosine_similarity v1 v2 size = None <->
   Z.of_nat (length v1) < size \/ Z.of_nat (length v2) < size) /\
  (calculate_influence_tensor v1 v2 size c = None <->
   Z.of_nat (length v1) < size \/ Z.of_nat (length v2) < size).
Proof.
  assert (H : cosine_similarity v1 v2 size = None <->
              Z.of_nat (length v1) < size \/ Z.of_nat (length v2) < size).
  { unfold cosine_similarity. split.
    - intros Hn.
      destruct (Z_lt_le_dec (Z.of_nat (length v1)) size) as [|H1]; [left; assumption|].
      destruct (Z_lt_le_dec (Z.of_nat (length v2)) size) as [|H2]; [right; assumption|].
      rewrite (cosine_sums_prefix v1 v2 size H1 H2) in Hn. discriminate.
    - intros Hr. rewrite (cosine_sums_out_of_range v1 v2 size Hr). reflexivity. }
  split; [exact H|].
  unfold calculate_influence_tensor. rewrite <- H.
  destruct (cosine_similarity v1 v2 size); cbn [bind]; split; intros; try discriminate;
    reflexivity.
Qed.

Lemma parent_p_success_prefix (parents : buffer) (k : Z) :
  k <= Z.of_nat (length parents) ->
  parent_p_success parents k = Some (product (firstn (Z.to_nat k) parents)).
Proof.
  intros Hk. unfold parent_p_success, for_upto.
  set (n := Z.to_nat k).
  assert (Hn : length (firstn n parents) = n) by (apply firstn_length_le; lia).
  rewrite (for_range_ext _ (parent_step (firstn n parents))).
  - rewrite <- Hn at 1. apply parent_loop_product.
  - intros j s Hj. unfold parent_step. rewrite load_firstn by lia. reflexivity.
Qed.

(** X2. [propagate_risk] reads [parent_probs] at the indices
    [0 .. num_parents-1] and nowhere else: the call is undefined exactly when
    [num_parents] exceeds the number of readable elements. *)
Theorem propagate_risk_out_of_bounds (f m : float) (parents : buffer) (k : Z) :
  propagate_risk f m parents k = None <-> Z.of_nat (length parents) < k.
Proof.
  unfold propagate_risk. split.
  - intros Hn. destruct (Z_lt_le_dec (Z.of_nat (length parents)) k) as [|Hk]; [assumption|].
    rewrite (parent_p_success_prefix parents k Hk) in Hn. discriminate.
  - intros Hk. unfold parent_p_success, for_upto.
    rewrite (for_range_fails _ (Z.of_nat (length parents))); [reflexivity| |lia].
    intros s. unfold parent_step. rewrite load_out_of_range by lia. reflexivity.
Qed.

(** X3. Only the first [size] elements of the buffers count: the elements
    that follow them are never read, so that a call on longer buffers returns
    what the call on their prefixes of length [size] returns.  The same holds
    of the first [num_parents] elements of [parent_probs]. *)
Theorem only_the_prefix_is_read (v1 v2 parents : buffer) (size k : Z) (f m c : float) :
  size <= Z.of_nat (length v1) -> size <= Z.of_nat (length v2) ->
  k <= Z.of_nat (length parents) ->
  cosine_similarity v1 v2 size =
    cosine_similarity (firstn (Z.to_nat size) v1) (firstn (Z.to_nat size) v2) size /\
  calculate_influence_tensor v1 v2 size c =
    calculate_influence_tensor (firstn (Z.to_nat size) v1) (firstn (Z.to_nat size) v2) size c /\
  propagate_risk f m parents k = propagate_risk f m (firstn (Z.to_nat k) parents) k.
Proof.
  intros H1 H2 Hk.
  assert (Hc : cosine_similarity v1 v2 size =
               cosine_similarity (firstn (Z.to_nat size) v1) (firstn (Z.to_nat size) v2) size).
  { unfold cosine_similarity.
    rewrite (cosine_sums_prefix v1 v2 size H1 H2).
    rewrite (cosine_sums_prefix (firstn _ v1) (firstn _ v2) size).
    - rewrite !firstn_firstn, Nat.min_id. reflexivity.
    - rewrite firstn_length_le; lia.
    - rewrite firstn_length_le; lia. }
  split; [exact Hc|]. split.
  - unfold calculate_influence_tensor. rewrite Hc. reflexivity.
  - unfold propagate_risk.
    rewrite (parent_p_success_prefix parents k Hk).
    rewrite (parent_p_success_prefix (firstn _ parents) k).
    + rewrite firstn_firstn, Nat.min_id. reflexivity.
    + rewrite firstn_length_le; lia.
Qed.

Lemma only_the_prefix_is_read_witness :
  cosine_similarity [of_Z 3; of_Z 4; nan] [of_Z 4; of_Z 3; infinity; one] 2 =
    cosine_similarity [of_Z 3; of_Z 4] [of_Z 4; of_Z 3] 2 /\
  propagate_risk (of_scaled 1 (-2)) one [of_scaled 1 (-1); nan] 1 =
    propagate_risk (of_scaled 1 (-2)) one [of_scaled 1 (-1)] 1.
Proof.
  pose proof (only_the_prefix_is_read [of_Z 3; of_Z 4; nan] [of_Z 4; of_Z 3; infinity; one]
                [of_scaled 1 (-1); nan] 2 1 (of_scaled 1 (-2)) one one
                ltac:(cbn; lia) ltac:(cbn; lia) ltac:(cbn; lia)) as (H1 & _ & H3).
  split; [exact H1|exact H3].
Defined.

Lemma cosine_similarity_out_of_bounds_witness :
  cosine_similarity [one] [one; one] 2 = None /\
  calculate_influence_tensor [one] [one; one] 2 one = None.
Proof.
  split.
  - apply (proj1 (cosine_similarity_out_of_bounds [one] [one; one] 2 one)).
    left. cbn. lia.
  - apply (proj2 (cosine_similarity_out_of_bounds [one] [one; one] 2 one)).
    left. cbn. lia.
Defined.

Lemma propagate_risk_out_of_bounds_witness :
  propagate_risk one one [one] 2 = None.
Proof.
  apply (propagate_risk_out_of_bounds one one [one] 2). cbn. lia.
Defined.

(* ===================================================================== *)
(** ** NaN components *)
(* ===================================================================== *)

Lemma fadd_nan_r (x : float) : fadd x nan = nan.
Proof. destruct x; reflexivity. Qed.

Lemma fmul_nan_r (x : float) : fmul x nan = nan.
Proof. destruct x; reflexivity. Qed.

Lemma fdiv_nan_r (x : float) : fdiv x nan = nan.
Proof. destruct x; reflexivity. Qed.

Lemma fold_squares_nan (v : list float) :
  fold_left (fun acc a => fadd acc (fmul a a)) v nan = nan.
Proof. induction v as [|x v IH]; [reflexivity|exact IH]. Qed.

Lemma squared_norm_nan (v : list float) : In nan v -> squared_norm v = nan.
Proof.
  unfold squared_norm. generalize zero.
  induction v as [|x v IH]; intros acc Hin; [destruct Hin|].
  destruct Hin as [Hx|Hx]; cbn [fold_left].
  - subst x. change (fmul nan nan) with nan. rewrite fadd_nan_r. apply fold_squares_nan.
  - apply IH, Hx.
Qed.

(** X4. A NaN among the components of the first vector is not handled
    specially: it makes the function return a NaN, except that the zero-norm
    clamp on the other vector still wins and returns [+0.0f]. *)
Theorem cosine_similarity_nan_component (v1 v2 : list float) (size : Z) :
  Z.of_nat (length v1) = size -> Z.of_nat (length v2) = size ->
  In nan v1 ->
  (feqb (squared_norm v2) zero = true -> cosine_similarity v1 v2 size = Some zero) /\
  (feqb (squared_norm v2) zero = false -> cosine_similarity v1 v2 size = Some nan).
Proof.
  intros H1 H2 Hn. rewrite (cosine_similarity_full v1 v2 size H1 H2).
  unfold cosine_result. cbn [dot norm_v1 norm_v2].
  rewrite (squared_norm_nan v1 Hn). change (feqb nan zero) with false. cbn [orb].
  split; intros ->; [reflexivity|].
  change (fsqrt nan) with nan. change (fmul nan ?x) with nan.
  rewrite fdiv_nan_r. reflexivity.
Qed.

Lemma cosine_similarity_nan_component_witness :
  cosine_similarity [one; nan] [zero; zero] 2 = Some zero /\
  cosine_similarity [one; nan] [one; one] 2 = Some nan.
Proof.
  split.
  - apply (proj1 (cosine_similarity_nan_component [one; nan] [zero; zero] 2
                    eq_refl eq_refl (or_intror (or_introl eq_refl)))).
    reflexivity.
  - apply (proj2 (cosine_similarity_nan_component [one; nan] [one; one] 2
                    eq_refl eq_refl (or_intror (or_introl eq_refl)))).
    reflexivity.
Defined.

Lemma fold_fmul_nan (v : list float) : fold_left fmul v nan = nan.
Proof. induction v as [|x v IH]; [reflexivity|exact IH]. Qed.

Lemma product_nan (parents : list float) : In nan parents -> product parents = nan.
Proof.
  unfold product. generalize one.
  induction parents as [|x v IH]; intros acc Hin; [destruct Hin|].
  destruct Hin as [Hx|Hx]; cbn [fold_left].
  - subst x. rewrite fmul_nan_r. apply fold_fmul_nan.
  - apply IH, Hx.
Qed.

(** X5. A NaN among the parent probabilities makes [propagate_risk] return a
    NaN, whatever the local failure probability and the multiplier are. *)
Theorem propagate_risk_nan_parent (f m : float) (parents : list float) (k : Z) :
  Z.of_nat (length parents) = k -> In nan parents ->
  propagate_risk f m parents k = Some nan.
Proof.
  intros Hk Hn. rewrite (propagate_risk_full f m parents k Hk).
  rewrite (product_nan parents Hn), fmul_nan_r. reflexivity.
Qed.

Lemma propagate_risk_nan_parent_witness :
  propagate_risk (of_Z 5) one [one; nan; zero] 3 = Some nan.
Proof.
  apply (propagate_risk_nan_parent (of_Z 5) one [one; nan; zero] 3 eq_refl).
  right. left. reflexivity.
Defined.

(* ===================================================================== *)
(** ** Saturation and absorption in the risk propagation *)
(* ===================================================================== *)

Lemma fmul_zero_finite_l (a b : float) :
  is_zero a = true -> is_finite b = true -> is_zero (fmul a b) = true.
Proof. destruct a, b; try discriminate; reflexivity. Qed.

Lemma fmul_zero_finite_r (a b : float) :
  is_finite a = true -> is_zero b = true -> is_zero (fmul a b) = true.
Proof. destruct a, b; try discriminate; reflexivity. Qed.

(** X6. Saturation: when the product [local_failure_prob * multiplier] is
    not below [1.0f] (it is [1.0f] or more, or it is a NaN, which
    [std::min] also replaces by [1.0f]), the local success term is exactly
    [+0.0f]; the result is then a zero whenever the product of the parent
    probabilities is finite. *)
Theorem propagate_risk_saturates (f m : float) (parents : list float) (k : Z) :
  Z.of_nat (length parents) = k -> fltb (fmul f m) one = false ->
  local_p_success f m = zero /\
  propagate_risk f m parents k = Some (fmul zero (product parents)) /\
  (is_finite (product parents) = true ->
   exists r, propagate_risk f m parents k = Some r /\ is_zero r = true).
Proof.
  intros Hk Hge.
  assert (Hl : local_p_success f m = zero).
  { unfold local_p_success, fmin. rewrite Hge. reflexivity. }
  assert (Hr : propagate_risk f m parents k = Some (fmul zero (product parents))).
  { rewrite (propagate_risk_full f m parents k Hk), Hl. reflexivity. }
  split; [exact Hl|]. split; [exact Hr|].
  intros Hfin. eexists. split; [exact Hr|].
  apply fmul_zero_finite_l; [reflexivity|exact Hfin].
Qed.

Lemma propagate_risk_saturates_witness :
  (exists r, propagate_risk (of_Z 3) (of_Z 2) [of_scaled 1 (-1)] 1 = Some r /\
             is_zero r = true) /\
  (exists r, propagate_risk nan one [of_scaled 1 (-1)] 1 = Some r /\ is_zero r = true).
Proof.
  split.
  - apply (propagate_risk_saturates (of_Z 3) (of_Z 2) [of_scaled 1 (-1)] 1);
      reflexivity.
  - apply (propagate_risk_saturates nan one [of_scaled 1 (-1)] 1); reflexivity.
Defined.

Lemma fold_fmul_zero (v : list float) :
  Forall (fun x => is_finite x = true) v ->
  forall a, is_zero a = true -> is_zero (fold_left fmul v a) = true.
Proof.
  induction 1 as [|x v Hx _ IH]; intros a Ha; cbn [fold_left]; [exact Ha|].
  apply IH, fmul_zero_finite_l; assumption.
Qed.

(** X7. Absorption: a parent whose success probability is a zero forces the
    result to a zero, provided nothing has overflowed: the product of the
    parents before it is finite, the parents after it are finite and the
    local success term is finite. *)
Theorem propagate_risk_zero_parent (f m : float) (before after : list float)
  (z : float) (k : Z) :
  Z.of_nat (length (before ++ z :: after)) = k ->
  is_zero z = true ->
  is_finite (product before) = true ->
  Forall (fun x => is_finite x = true) after ->
  is_finite (local_p_success f m) = true ->
  exists r, propagate_risk f m (before ++ z :: after) k = Some r /\ is_zero r = true.
Proof.
  intros Hk Hz Hb Ha Hl. rewrite (propagate_risk_full f m _ k Hk).
  eexists. split; [reflexivity|].
  apply fmul_zero_finite_r; [exact Hl|].
  unfold product. rewrite fold_left_app. cbn [fold_left].
  apply fold_fmul_zero; [exact Ha|].
  apply fmul_zero_finite_r; assumption.
Qed.

Lemma propagate_risk_zero_parent_witness :
  exists r,
    propagate_risk (of_scaled 1 (-2)) one
      [of_scaled 1 (-1); neg_zero; of_scaled 3 (-2)] 3 = Some r /\ is_zero r = true.
Proof.
  apply (propagate_risk_zero_parent (of_scaled 1 (-2)) one [of_scaled 1 (-1)]
           [of_scaled 3 (-2)] neg_zero 3); try reflexivity.
  repeat constructor.
Defined.

(* ===================================================================== *)
(** ** The influence score as a function of the centrality *)
(* ===================================================================== *)

Lemma binary_round_aux_opp (s : bool) (m e : Z) (l : location) :
  binary_round_aux prec emax (negb s) m e l = SFopp (binary_round_aux prec emax s m e l).
Proof.
  unfold binary_round_aux.
  destruct (shr_fexp prec emax m e l) as [mrs1 e1].
  destruct (shr_fexp prec emax _ e1 loc_Exact) as [mrs2 e2].
  destruct (shr_m mrs2); cbn [SFopp]; try reflexivity.
  destruct (e2 <=? emax - prec); reflexivity.
Qed.

Lemma fmul_opp_r (x y : float) : fmul x (SFopp y) = SFopp (fmul x y).
Proof.
  destruct x as [sx|sx| |sx mx ex], y as [sy|sy| |sy my ey];
    unfold fmul; cbn [SFmul SFopp]; try reflexivity;
    try (destruct sx, sy; reflexivity).
  replace (xorb sx (negb sy)) with (negb (xorb sx sy)) by (destruct sx, sy; reflexivity).
  apply binary_round_aux_opp.
Qed.

Lemma fdiv_well_formed (x y : float) : well_formed (fdiv x y).
Proof.
  destruct x as [sx|sx| |sx mx ex], y as [sy|sy| |sy my ey]; try reflexivity.
  unfold fdiv. cbn [SFdiv].
  pose proof (fdiv_core mx my ex ey) as Hcore.
  destruct (SFdiv_core_binary prec emax (Zpos mx) ex (Zpos my) ey) as [[q ez] l].
  destruct Hcore as (s & Hs & Hse & Hrep & Hpre).
  apply binary_round_aux_well_formed; [|exact Hpre].
  destruct Hrep as (Ha & Hb & Hq & _). rewrite shr_record_of_loc_m in Hq.
  rewrite Hq. apply Z.div_pos; lia.
Qed.

Lemma cosine_result_well_formed (s : sums) : well_formed (cosine_result s).
Proof.
  unfold cosine_result. destruct (_ || _); [reflexivity|apply fdiv_well_formed].
Qed.

(** X8. The influence score does not tell its two vectors apart, a
    centrality of [1.0f] returns the cosine similarity itself, and negating
    the centrality negates the score exactly. *)
Theorem influence_of_centrality (v1 v2 : buffer) (size : Z) (c : float) :
  calculate_influence_tensor v1 v2 size c = calculate_influence_tensor v2 v1 size c /\
  calculate_influence_tensor v1 v2 size one = cosine_similarity v1 v2 size /\
  calculate_influence_tensor v1 v2 size (SFopp c) =
    bind (calculate_influence_tensor v1 v2 size c) (fun r => Some (SFopp r)).
Proof.
  unfold calculate_influence_tensor. rewrite (cosine_similarity_swap_args v1 v2 size).
  split; [reflexivity|].
  unfold cosine_similarity.
  destruct (cosine_sums v2 v1 size) as [s|]; cbn [bind]; [|split; reflexivity].
  rewrite (fmul_one_r _ (cosine_result_well_formed s)), fmul_opp_r.
  split; reflexivity.
Qed.

(* ===================================================================== *)
(** ** The result of the risk propagation as a probability *)
(* ===================================================================== *)

Lemma nn_not_negative (x : float) : nn x -> fltb x zero = false.
Proof.
  intros [W P]. destruct (is_nan x) eqn:N.
  - destruct x; try discriminate. reflexivity.
  - unfold fltb, SFltb. rewrite (compare_ival x zero W eq_refl N eq_refl).
    change (ival zero) with 0. destruct (Z.compare_spec (ival x) 0); try reflexivity. lia.
Qed.

(** X9. [propagate_risk] never returns a negative number when no parent
    probability is negative (the local success term never is). *)
Theorem propagate_risk_never_negative (f m : float) (parents : list float) (k : Z) :
  well_formed f -> well_formed m -> Forall well_formed parents ->
  Forall (fun x => fleb zero x = true) parents ->
  Z.of_nat (length parents) = k ->
  exists r, propagate_risk f m parents k = Some r /\ fltb r zero = false.
Proof.
  intros Hf Hm Hw Hp Hk. rewrite (propagate_risk_full f m parents k Hk).
  eexists. split; [reflexivity|]. apply nn_not_negative, fmul_nn.
  - apply local_p_success_nn; assumption.
  - apply fold_fmul_nn; [apply Forall_nonneg_nn; assumption|].
    split; [reflexivity|cbn; lia].
Qed.

Lemma propagate_risk_never_negative_witness :
  exists r,
    propagate_risk (of_Z (-3)) (of_Z 2) [of_scaled 1 (-1); of_Z 7] 2 = Some r /\
    fltb r zero = false.
Proof.
  apply (propagate_risk_never_negative (of_Z (-3)) (of_Z 2) [of_scaled 1 (-1); of_Z 7] 2);
    try reflexivity; repeat constructor.
Defined.

(** The rounding of a positive integer mantissa starts from an aligned
    mantissa of the same value. *)
Lemma binary_round_aligned (s : bool) (m : positive) (e : Z) :
  exists (Q : positive) (ez : Z),
    binary_round prec emax s m e = binary_round_aux prec emax s (Zpos Q) ez loc_Exact /\
    ez <= e /\ Zpos Q = Zpos m * 2 ^ (e - ez) /\
    ez = Z.min e (fexp prec emax (Zpos (digits2_pos m) + e)) /\
    Zdigits2 (Zpos Q) + ez = Zpos (digits2_pos m) + e.
Proof.
  unfold binary_round.
  destruct (shl_align_spec m e (fexp prec emax (Zpos (digits2_pos m) + e))) as [He Hm].
  destruct (shl_align m e _) as [mz ez]. cbn [fst snd] in *.
  exists mz, ez. split; [reflexivity|]. split; [lia|]. split; [rewrite He; exact Hm|].
  split; [exact He|].
  rewrite Hm, Zdigits2_mul_pow2 by lia. cbn [Zdigits2]. lia.
Qed.

Lemma binary_round_mono (m m' : positive) (e e' : Z) :
  Zpos m' * 2 ^ (e' - Z.min e e') <= Zpos m * 2 ^ (e - Z.min e e') ->
  ival (binary_round prec emax false m' e') <= ival (binary_round prec emax false m e).
Proof.
  intros Hle.
  destruct (binary_round_aligned false m e) as (Q & ez & -> & Hez & HQ & Hmin & Hd).
  destruct (binary_round_aligned false m' e') as (Q' & ez' & -> & Hez' & HQ' & Hmin' & Hd').
  apply (round_mono _ _ _ (Zpos Q) 1 _ _ _ (Zpos Q') 1).
  - apply represents_exact. lia.
  - rewrite Hd, Hmin. lia.
  - apply represents_exact. lia.
  - rewrite Hd', Hmin'. lia.
  - rewrite !Z.mul_1_r, HQ, HQ', <- !Z.mul_assoc, <- !pow2_split by lia.
    set (c := Z.min e e') in *. set (c2 := Z.min ez ez').
    replace (e' - ez' + (ez' - c2)) with ((e' - c) + (c - c2)) by lia.
    replace (e - ez + (ez - c2)) with ((e - c) + (c - c2)) by lia.
    rewrite !pow2_split, !Z.mul_assoc by lia.
    apply Z.mul_le_mono_nonneg_r; [apply Z.pow_nonneg; lia|exact Hle].
Qed.

Lemma binary_normalize_nonneg (z e : Z) :
  0 <= z -> nonneg (binary_normalize prec emax z e false).
Proof.
  intros Hz. repeat split.
  - apply binary_normalize_well_formed.
  - apply binary_normalize_not_nan.
  - apply sign_false_ival, binary_normalize_nonneg_sign, Hz.
Qed.

Lemma binary_normalize_mono (z z' e e' : Z) :
  0 <= z' -> 0 <= z ->
  z' * 2 ^ (e' - Z.min e e') <= z * 2 ^ (e - Z.min e e') ->
  ival (binary_normalize prec emax z' e' false) <=
  ival (binary_normalize prec emax z e false).
Proof.
  intros Hz' Hz Hle.
  destruct z' as [|p'|p']; try lia.
  - apply (binary_normalize_nonneg z e Hz).
  - destruct z as [|p|p]; try lia.
    apply binary_round_mono, Hle.
Qed.

(** The subtraction [1.0f - x] rounds the exact difference. *)
Lemma fsub_one_value (x : float) :
  well_formed x -> is_finite x = true -> ival x <= 2 ^ 149 ->
  exists z e,
    0 <= z /\ -149 <= e /\
    ival (fsub one x) = ival (binary_normalize prec emax z e false) /\
    z * 2 ^ (e + 149) = 2 ^ 149 - ival x.
Proof.
  intros W F Hle. destruct x as [s|s| |s m e]; try discriminate.
  - exists 8388608, (-23). repeat split; try lia.
  - unfold well_formed in W. cbn [valid_binary] in W.
    pose proof (proj1 (bounded_spec m e) W) as (_ & He & _).
    unfold fsub, one. cbn [SFsub cond_Zopp].
    set (ez := Z.min (-23) e).
    destruct (shl_align_spec 8388608 (-23) ez) as [_ HA].
    destruct (shl_align_spec m e ez) as [_ HB].
    replace (Z.min (-23) ez) with ez in HA by lia.
    replace (Z.min e ez) with ez in HB by lia.
    rewrite HA, HB.
    pose proof (pow2_pos (e - ez) ltac:(lia)) as Hp.
    assert (HA149 : 8388608 * 2 ^ (-23 - ez) * 2 ^ (ez + 149) = 2 ^ 149).
    { rewrite <- Z.mul_assoc, <- pow2_split by lia.
      replace (-23 - ez + (ez + 149)) with 126 by lia. reflexivity. }
    assert (HB149 : Zpos m * 2 ^ (e - ez) * 2 ^ (ez + 149) = Zpos m * 2 ^ (e + 149)).
    { rewrite <- Z.mul_assoc, <- pow2_split by lia. do 2 f_equal. lia. }
    pose proof (pow2_pos (ez + 149) ltac:(lia)) as Hpz.
    exists (8388608 * 2 ^ (-23 - ez) - cond_Zopp s (Zpos m * 2 ^ (e - ez))), ez.
    cbn [ival] in Hle |- *.
    split; [|split; [lia|split; [reflexivity|]]].
    + destruct s; cbn [cond_Zopp] in *.
      * pose proof (pow2_pos (-23 - ez) ltac:(lia)). lia.
      * apply Z.mul_le_mono_pos_r with (p := 2 ^ (ez + 149)); [exact Hpz|].
        rewrite Z.mul_0_l, Z.mul_sub_distr_r, HA149, HB149. lia.
    + rewrite Z.mul_sub_distr_r, HA149.
      destruct s; cbn [cond_Zopp]; rewrite ?Z.mul_opp_l, HB149; lia.
Qed.

(** The larger the number subtracted from [1.0f], the smaller the result. *)
Lemma fsub_one_antitone (x x' : float) :
  well_formed x -> well_formed x' -> is_finite x = true -> is_finite x' = true ->
  ival x <= ival x' -> ival x' <= 2 ^ 149 ->
  ival (fsub one x') <= ival (fsub one x).
Proof.
  intros W W' F F' Hle Hle'.
  destruct (fsub_one_value x W F ltac:(lia)) as (z & e & Hz & He & -> & Hv).
  destruct (fsub_one_value x' W' F' Hle') as (z' & e' & Hz' & He' & -> & Hv').
  apply binary_normalize_mono; try assumption.
  apply (pow2_le_shift _ _ _ _ (Z.min e e' + 149)); try lia.
  replace (e' - Z.min e e' + (Z.min e e' + 149)) with (e' + 149) by lia.
  replace (e - Z.min e e' + (Z.min e e' + 149)) with (e + 149) by lia.
  lia.
Qed.

Lemma well_formed_ival_bounds (x : float) :
  well_formed x -> - 2 ^ 277 <= ival x <= 2 ^ 277.
Proof.
  intros W. pose proof (pow2_pos 277 ltac:(lia)).
  destruct x as [s|s| |s m e]; cbn [ival]; try lia.
  - destruct s; cbn [cond_Zopp]; lia.
  - pose proof (bounded_ival m e W). destruct s; cbn [cond_Zopp]; lia.
Qed.

Lemma finite_ival_bounds (x : float) :
  well_formed x -> is_finite x = true -> - 2 ^ 277 < ival x < 2 ^ 277.
Proof.
  intros W F. pose proof (pow2_pos 277 ltac:(lia)).
  destruct x as [s|s| |s m e]; try discriminate; cbn [ival]; try lia.
  pose proof (bounded_ival m e W). destruct s; cbn [cond_Zopp]; lia.
Qed.

Lemma ival_finite (x : float) :
  is_nan x = false -> - 2 ^ 277 < ival x < 2 ^ 277 -> is_finite x = true.
Proof.
  intros N H. destruct x as [s|s| |s m e]; try discriminate; try reflexivity.
  destruct s; cbn [ival cond_Zopp] in H; lia.
Qed.

Lemma fleb_ival (x y : float) :
  well_formed x -> well_formed y -> fleb x y = true ->
  is_nan x = false /\ is_nan y = false /\ ival x <= ival y.
Proof.
  intros Wx Wy H.
  assert (Nx : is_nan x = false) by (destruct x; try reflexivity; discriminate).
  assert (Ny : is_nan y = false) by (destruct x, y; try reflexivity; discriminate).
  split; [exact Nx|]. split; [exact Ny|].
  unfold fleb, SFleb in H. rewrite (compare_ival x y Wx Wy Nx Ny) in H.
  destruct (Z.compare_spec (ival x) (ival y)); try discriminate; lia.
Qed.

Lemma fltb_ival (x y : float) :
  well_formed x -> well_formed y -> is_nan x = false -> is_nan y = false ->
  fltb x y = true <-> ival x < ival y.
Proof.
  intros Wx Wy Nx Ny. unfold fltb, SFltb. rewrite (compare_ival x y Wx Wy Nx Ny).
  destruct (Z.compare_spec (ival x) (ival y)); split; intros; try discriminate;
    try reflexivity; lia.
Qed.

Lemma local_term_nonneg (x : float) :
  well_formed x -> nonneg (fsub one (fmin one x)).
Proof.
  intros W. destruct (local_term_sign x W) as [Hs Hn].
  repeat split; [apply fsub_one_well_formed|exact Hn|apply sign_false_ival, Hs].
Qed.

(** The local success term shrinks as the failure product grows. *)
Lemma local_term_antitone (x x' : float) :
  well_formed x -> well_formed x' -> fleb x x' = true ->
  ival (fsub one (fmin one x')) <= ival (fsub one (fmin one x)).
Proof.
  intros W W' Hle. destruct (fleb_ival x x' W W' Hle) as (N & N' & Hv).
  pose proof (local_term_nonneg x W) as (Wg & _ & Pg).
  assert (I1 : ival one = 2 ^ 149) by reflexivity.
  unfold fmin at 1. destruct (fltb x' one) eqn:Hlt'.
  - apply (fltb_ival x' one W' eq_refl N' eq_refl) in Hlt'. rewrite I1 in Hlt'.
    assert (Hlt : fltb x one = true).
    { apply (fltb_ival x one W eq_refl N eq_refl). lia. }
    unfold fmin. rewrite Hlt.
    destruct (is_finite x) eqn:F.
    + assert (F' : is_finite x' = true).
      { apply ival_finite; [exact N'|].
        pose proof (finite_ival_bounds x W F). pose proof (pow2_pos 277 ltac:(lia)).
        assert (2 ^ 149 < 2 ^ 277) by (apply Z.pow_lt_mono_r; lia). lia. }
      apply fsub_one_antitone; try assumption; lia.
    + destruct x as [s|s| |s m e]; try discriminate.
      destruct s.
      * change (fsub one (S754_infinity true)) with infinity.
        change (ival infinity) with (2 ^ 277).
        apply well_formed_ival_bounds, fsub_one_well_formed.
      * cbn [ival cond_Zopp] in Hv.
        assert (2 ^ 149 < 2 ^ 277) by (apply Z.pow_lt_mono_r; lia). lia.
  - change (fsub one one) with zero. exact Pg.
Qed.

Lemma fleb_of_ival (x y : float) :
  nonneg x -> nonneg y -> ival x <= ival y -> le_or_nan x y.
Proof. intros Hx Hy H. right. right. repeat split; try apply Hx; try apply Hy; exact H. Qed.

(** X10. The result never grows with the local failure: raising the product
    [local_failure_prob * multiplier] never raises the result, when no
    parent probability is negative. *)
Theorem propagate_risk_antitone_in_failure (f m f' m' : float)
  (parents : list float) (k : Z) :
  well_formed f -> well_formed m -> well_formed f' -> well_formed m' ->
  fleb (fmul f m) (fmul f' m') = true ->
  Forall well_formed parents -> Forall (fun x => fleb zero x = true) parents ->
  Z.of_nat (length parents) = k ->
  exists r r',
    propagate_risk f m parents k = Some r /\
    propagate_risk f' m' parents k = Some r' /\
    fltb r r' = false /\
    (is_nan r = false -> is_nan r' = false -> fleb r' r = true).
Proof.
  intros Hf Hm Hf' Hm' Hle Hw Hp Hk.
  rewrite !(propagate_risk_full _ _ parents k Hk).
  do 2 eexists. split; [reflexivity|]. split; [reflexivity|].
  match goal with
  | |- fltb ?r ?r' = false /\ _ =>
      cut (le_or_nan r' r);
        [intros H; destruct (le_or_nan_not_greater _ _ H); split; auto|]
  end.
  apply fmul_le_or_nan_l.
  - unfold local_p_success. apply fleb_of_ival.
    + apply local_term_nonneg; auto with binary32.
    + apply local_term_nonneg; auto with binary32.
    + apply local_term_antitone; auto with binary32.
  - apply fold_fmul_nn; [apply Forall_nonneg_nn; assumption|].
    split; [reflexivity|cbn; lia].
Qed.

Lemma propagate_risk_antitone_in_failure_witness :
  exists r r',
    propagate_risk (of_scaled 1 (-2)) one [of_scaled 3 (-2); of_scaled 1 (-1)] 2 = Some r /\
    propagate_risk (of_scaled 1 (-2)) (of_Z 3) [of_scaled 3 (-2); of_scaled 1 (-1)] 2 = Some r' /\
    fltb r r' = false /\ fleb r' r = true.
Proof.
  destruct (propagate_risk_antitone_in_failure (of_scaled 1 (-2)) one (of_scaled 1 (-2)) (of_Z 3)
              [of_scaled 3 (-2); of_scaled 1 (-1)] 2)
    as (r & r' & H1 & H2 & H3 & H4); try reflexivity; try (repeat constructor).
  exists r, r'. split; [exact H1|]. split; [exact H2|]. split; [exact H3|].
  vm_compute in H1, H2. injection H1 as <-. injection H2 as <-.
  apply H4; reflexivity.
Defined.

(* ===================================================================== *)
(** ** Probabilities in, probability out *)
(* ===================================================================== *)

Lemma unit_interval_of_fleb (x : float) :
  well_formed x -> fleb zero x = true -> fleb x one = true -> unit_interval x.
Proof.
  intros W H0 H1. split; [apply fleb_zero_nonneg; assumption|].
  destruct (fleb_ival x one W eq_refl H1) as (_ & _ & H). exact H.
Qed.

Lemma unit_interval_cases (x : float) :
  unit_interval x ->
  (exists s, x = S754_zero s) \/
  (exists m e, x = S754_finite false m e /\ bounded prec emax m e = true).
Proof.
  intros [Hn Hu]. assert (2 ^ 149 < 2 ^ 277) by (apply Z.pow_lt_mono_r; lia).
  destruct (nn_cases x (nonneg_nn x Hn)) as [->|[[s ->]|[->|(m & e & -> & B)]]].
  - destruct Hn as (_ & N & _). discriminate.
  - left. exists s. reflexivity.
  - cbn [ival cond_Zopp] in Hu. lia.
  - right. exists m, e. split; [reflexivity|exact B].
Qed.

Lemma unit_interval_zero (s : bool) : unit_interval (S754_zero s).
Proof. repeat split; cbn; lia. Qed.

Lemma fmul_unit_interval (a b : float) :
  unit_interval a -> unit_interval b -> unit_interval (fmul a b).
Proof.
  intros Ha Hb.
  destruct (unit_interval_cases a Ha) as [[sa ->]|(ma & ea & -> & Ba)];
  destruct (unit_interval_cases b Hb) as [[sb ->]|(mb & eb & -> & Bb)];
    try apply unit_interval_zero.
  split; [apply fmul_finite_spec; assumption|].
  apply Z.le_trans with (ival (S754_finite false mb eb)); [|apply Hb].
  rewrite <- (fmul_one_l (S754_finite false mb eb) Bb) at 2.
  apply (fmul_mono_finite 8388608 ma mb (-23) ea eb); try assumption; [reflexivity|].
  apply Ha.
Qed.

Lemma product_unit_interval (parents : list float) :
  Forall unit_interval parents -> unit_interval (product parents).
Proof.
  intros H. unfold product.
  assert (H1 : unit_interval one) by (repeat split; cbn; lia).
  revert H1. generalize one.
  induction H as [|x v Hx _ IH]; intros acc Hacc; cbn [fold_left]; [exact Hacc|].
  apply IH, fmul_unit_interval; assumption.
Qed.

Lemma unit_interval_fleb (x : float) :
  unit_interval x -> fleb zero x = true /\ fleb x one = true.
Proof.
  intros [(W & N & P) Hu]. split; apply ival_le_fleb; try assumption; reflexivity.
Qed.

(** X11. Probabilities in, probability out: when the failure product
    [local_failure_prob * multiplier] is not negative and every parent
    probability lies between [0] and [1], the result of [propagate_risk]
    lies between [0] and [1]; the roundings never take it out of range. *)
Theorem propagate_risk_is_a_probability (f m : float) (parents : list float) (k : Z) :
  well_formed f -> well_formed m -> fleb zero (fmul f m) = true ->
  Forall well_formed parents ->
  Forall (fun x => fleb zero x = true /\ fleb x one = true) parents ->
  Z.of_nat (length parents) = k ->
  exists r,
    propagate_risk f m parents k = Some r /\
    fleb zero r = true /\ fleb r one = true.
Proof.
  intros Hf Hm Hx Hw Hp Hk. rewrite (propagate_risk_full f m parents k Hk).
  eexists. split; [reflexivity|]. apply unit_interval_fleb, fmul_unit_interval.
  - assert (Wx : well_formed (fmul f m)) by auto with binary32.
    split; [apply local_term_nonneg, Wx|].
    change (2 ^ 149) with (ival (fsub one (fmin one zero))).
    apply local_term_antitone; [reflexivity|exact Wx|exact Hx].
  - apply product_unit_interval. rewrite Forall_forall in *.
    intros x Hin. destruct (Hp x Hin). apply unit_interval_of_fleb; auto.
Qed.

Lemma propagate_risk_is_a_probability_witness :
  exists r,
    propagate_risk (decimal 2 10) one [decimal 9 10; decimal 8 10] 2 = Some r /\
    fleb zero r = true /\ fleb r one = true.
Proof.
  apply (propagate_risk_is_a_probability (decimal 2 10) one [decimal 9 10; decimal 8 10] 2);
    try reflexivity; repeat constructor.
Defined.

(* ===================================================================== *)
(** ** The denominator of the cosine similarity *)
(* ===================================================================== *)

(** The square root of a positive binary32 number lies between the root of
    the least subnormal number and the root of the greatest finite one. *)
Lemma fsqrt_bounds (m : positive) (e : Z) :
  bounded prec emax m e = true ->
  exists (S : positive) (e' : Z),
    fsqrt (S754_finite false m e) = S754_finite false S e' /\
    bounded prec emax S e' = true /\
    ival sqrt_min <= ival (S754_finite false S e') <= ival sqrt_max.
Proof.
  intros Hb. destruct (fsqrt_spec m e Hb) as (S & e' & Hs & HbS & HS & He' & Hgap & Hm & Hsq).
  exists S, e'. split; [exact Hs|]. split; [exact HbS|].
  pose proof (proj1 (bounded_spec m e) Hb) as (_ & He & _).
  unfold sqrt_min, sqrt_max. cbn [ival cond_Zopp].
  change (-98 + 149) with 51. change (40 + 149) with 189.
  change (2 ^ 23) with 8388608 in HS. change (2 ^ 24) with 16777216 in HS.
  split.
  - destruct (Z.eq_dec e' (-98)) as [->|Hne].
    + change (-98 + 149) with 51. apply Z.mul_le_mono_nonneg_r; [apply Z.pow_nonneg; lia|].
      replace (e - 2 * -98) with (e + 149 + 47) in Hsq by lia.
      rewrite (Z.pow_add_r 2 (e + 149) 47) in Hsq by lia.
      assert (H1 : 1 <= 2 ^ (e + 149)).
      { pose proof (pow2_pos (e + 149) ltac:(lia)). lia. }
      assert (H2 : 2 ^ 47 <= Z.pos m * (2 ^ (e + 149) * 2 ^ 47)).
      { pose proof (pow2_pos 47 ltac:(lia)). nia. }
      change (2 ^ 47) with 140737488355328 in *.
      destruct (Z_le_gt_dec 11863283 (Z.pos S)) as [Hl|Hg]; [lia|].
      exfalso. assert (Z.pos S * Z.pos S + Z.pos S <= 11863282 * 11863282 + 11863282) by nia.
      lia.
    + replace (e' + 149) with ((e' + 98) + 51) by lia.
      rewrite (Z.pow_add_r 2 (e' + 98) 51) by lia.
      assert (H1 : 2 <= 2 ^ (e' + 98)).
      { change 2 with (2 ^ 1) at 1. apply Z.pow_le_mono_r; lia. }
      pose proof (pow2_pos 51 ltac:(lia)). nia.
  - assert (H1 : 2 ^ (e' + 149) <= 2 ^ 189) by (apply Z.pow_le_mono_r; lia).
    pose proof (pow2_pos (e' + 149) ltac:(lia)). nia.
Qed.

(** A finite number that is not negative and not zero. *)
Lemma nn_finite_nonzero (x : float) :
  nn x -> is_finite x = true -> feqb x zero = false ->
  exists m e, x = S754_finite false m e /\ bounded prec emax m e = true.
Proof.
  intros Hx F Z0.
  destruct (nn_cases x Hx) as [->|[[s ->]|[->|H]]]; try discriminate; try exact H.
  all: destruct s; discriminate.
Qed.

(** The product of two square roots neither underflows to zero nor
    overflows. *)
Lemma sqrt_product_positive (m1 m2 : positive) (e1 e2 : Z) :
  bounded prec emax m1 e1 = true -> bounded prec emax m2 e2 = true ->
  let d := fmul (fsqrt (S754_finite false m1 e1)) (fsqrt (S754_finite false m2 e2)) in
  nonneg d /\ 1 <= ival d <= 16777214 * 2 ^ 253.
Proof.
  intros B1 B2 d. subst d.
  destruct (fsqrt_bounds m1 e1 B1) as (S1 & f1 & -> & BS1 & L1 & U1).
  destruct (fsqrt_bounds m2 e2 B2) as (S2 & f2 & -> & BS2 & L2 & U2).
  assert (Bmin : bounded prec emax 11863283 (-98) = true) by reflexivity.
  assert (Bmax : bounded prec emax 16777215 40 = true) by reflexivity.
  split; [apply fmul_finite_spec; assumption|]. split.
  - change 1 with (ival (fmul sqrt_min sqrt_min)).
    apply Z.le_trans with (ival (fmul sqrt_min (S754_finite false S2 f2))).
    + rewrite (fmul_comm sqrt_min (S754_finite false S2 f2)).
      apply fmul_mono_finite; assumption.
    + apply fmul_mono_finite; assumption.
  - change (16777214 * 2 ^ 253) with (ival (fmul sqrt_max sqrt_max)).
    apply Z.le_trans with (ival (fmul sqrt_max (S754_finite false S2 f2))).
    + apply fmul_mono_finite; assumption.
    + rewrite (fmul_comm sqrt_max (S754_finite false S2 f2)).
      apply fmul_mono_finite; assumption.
Qed.

(** Dividing by a positive finite number keeps zeros and infinities as
    they are and yields a NaN for a NaN only. *)
Lemma fdiv_by_positive (x : float) (m : positive) (e : Z) :
  is_nan (fdiv x (S754_finite false m e)) = is_nan x /\
  (is_finite x = false -> fdiv x (S754_finite false m e) = x) /\
  (is_zero x = true -> fdiv x (S754_finite false m e) = x).
Proof.
  destruct x as [sx|sx| |sx mx ex]; unfold fdiv; cbn [SFdiv xorb is_nan is_finite is_zero];
    rewrite ?xorb_false_r; try (repeat split; intros; try reflexivity; discriminate).
  pose proof (fdiv_core mx m ex e) as Hcore.
  destruct (SFdiv_core_binary prec emax (Zpos mx) ex (Zpos m) e) as [[q ez] l].
  destruct Hcore as (s & Hs & Hse & Hrep & Hpre).
  split; [|split; intros; discriminate].
  apply binary_round_aux_not_nan.
  destruct Hrep as (Ha & Hb & Hq & _). rewrite shr_record_of_loc_m in Hq.
  rewrite Hq. apply Z.div_pos; lia.
Qed.

(** X12. The guard of [cosine_similarity] is enough: when both squared
    norms are finite and neither compares equal to zero, the product of
    their square roots is finite and positive (it neither underflows to
    zero nor overflows), so nothing is divided by zero; the result is then
    a NaN only when the dot product is one, and a dot product that is a
    zero or an infinity is returned as it is. *)
Theorem cosine_similarity_denominator_positive (v1 v2 : list float) (size : Z) :
  Forall well_formed v1 -> Forall well_formed v2 ->
  Z.of_nat (length v1) = size -> Z.of_nat (length v2) = size ->
  is_finite (squared_norm v1) = true -> is_finite (squared_norm v2) = true ->
  feqb (squared_norm v1) zero = false -> feqb (squared_norm v2) zero = false ->
  let d := fmul (euclidean_norm v1) (euclidean_norm v2) in
  is_finite d = true /\ fltb zero d = true /\
  exists r,
    cosine_similarity v1 v2 size = Some r /\
    r = fdiv (dot_product v1 v2) d /\
    is_nan r = is_nan (dot_product v1 v2) /\
    (is_zero (dot_product v1 v2) = true -> r = dot_product v1 v2) /\
    (is_finite (dot_product v1 v2) = false -> r = dot_product v1 v2).
Proof.
  intros W1 W2 H1 H2 F1 F2 Z1 Z2 d.
  destruct (nn_finite_nonzero _ (squared_norm_nn v1 W1) F1 Z1) as (m1 & e1 & E1 & B1).
  destruct (nn_finite_nonzero _ (squared_norm_nn v2 W2) F2 Z2) as (m2 & e2 & E2 & B2).
  destruct (sqrt_product_positive m1 m2 e1 e2 B1 B2) as ((Wd & Nd & _) & Lo & Hi).
  assert (Ed : d = fmul (fsqrt (S754_finite false m1 e1)) (fsqrt (S754_finite false m2 e2))).
  { unfold d, euclidean_norm. rewrite E1, E2. reflexivity. }
  rewrite <- Ed in Wd, Nd, Lo, Hi.
  assert (Hbig : 16777214 * 2 ^ 253 < 2 ^ 277).
  { change (2 ^ 277) with (2 ^ 24 * 2 ^ 253). apply Z.mul_lt_mono_pos_r; [|reflexivity].
    apply Z.pow_pos_nonneg; lia. }
  assert (Fd : is_finite d = true).
  { apply ival_finite; [exact Nd|]. pose proof (pow2_pos 277 ltac:(lia)). lia. }
  split; [exact Fd|]. split.
  { apply (fltb_ival zero d eq_refl Wd eq_refl Nd). change (ival zero) with 0. lia. }
  exists (fdiv (dot_product v1 v2) d).
  assert (Hd : exists m e, d = S754_finite false m e).
  { destruct d as [s|s| |s m e]; try discriminate.
    - cbn [ival] in Lo. lia.
    - destruct s; [cbn [ival cond_Zopp] in Lo; lia|]. exists m, e. reflexivity. }
  destruct Hd as (m & e & Hd).
  split.
  - rewrite (cosine_similarity_full v1 v2 size H1 H2).
    unfold cosine_result. cbn [dot norm_v1 norm_v2]. rewrite Z1, Z2. reflexivity.
  - split; [reflexivity|]. rewrite Hd.
    destruct (fdiv_by_positive (dot_product v1 v2) m e) as (Hn & Hi' & Hz).
    split; [exact Hn|]. split; [exact Hz|exact Hi'].
Qed.

Lemma cosine_similarity_denominator_positive_witness :
  let v1 := [of_Z 3; of_Z 4] in
  let v2 := [of_Z (-4); of_Z 3] in
  let d := fmul (euclidean_norm v1) (euclidean_norm v2) in
  is_finite d = true /\ fltb zero d = true /\
  exists r,
    cosine_similarity v1 v2 2 = Some r /\
    r = fdiv (dot_product v1 v2) d /\
    is_nan r = is_nan (dot_product v1 v2) /\
    (is_zero (dot_product v1 v2) = true -> r = dot_product v1 v2) /\
    (is_finite (dot_product v1 v2) = false -> r = dot_product v1 v2).
Proof.
  apply (cosine_similarity_denominator_positive [of_Z 3; of_Z 4] [of_Z (-4); of_Z 3] 2);
    try reflexivity; repeat constructor.
Defined.

(* ===================================================================== *)
(** ** Components that contribute nothing *)
(* ===================================================================== *)

Lemma is_zero_opp (x : float) : is_zero (SFopp x) = is_zero x.
Proof. destruct x; reflexivity. Qed.

(** Rounding a non-zero multiple of the least subnormal number never gives
    a zero: a sum of binary32 numbers does not underflow. *)
Lemma binary_round_nonzero (s : bool) (m : positive) (e : Z) :
  -149 <= e -> is_zero (binary_round prec emax s m e) = false.
Proof.
  intros He.
  assert (Hpos : is_zero (binary_round prec emax false m e) = false).
  { destruct (binary_round_aligned false m e) as (Q & ez & -> & Hez & HQ & Hmin & Hd).
    assert (Hpre : ez <= fexp prec emax (Zdigits2 (Zpos Q) + ez)) by (rewrite Hd, Hmin; lia).
    destruct (binary_round_aux_spec (Zpos Q) ez loc_Exact (Zpos Q) 1
                (represents_exact (Zpos Q) (Pos2Z.is_nonneg _)) Hpre)
      as (q2 & _ & Hq & _ & _ & Hv).
    rewrite Hd in Hq, Hv.
    set (t := fexp prec emax (Zpos (digits2_pos m) + e)) in *.
    assert (Ht : t = Z.max (Zpos (digits2_pos m) + e - 24) (-149)) by apply fexp32.
    assert (H1 : 1 <= Zpos Q / 2 ^ (t - ez)).
    { apply Z.div_le_lower_bound; [apply pow2_pos; lia|]. rewrite Z.mul_1_r.
      destruct (Z_le_gt_dec t e) as [Hle|Hgt].
      - replace (t - ez) with 0 by lia. cbn. lia.
      - assert (Hee : ez = e) by lia. rewrite Hee, Z.sub_diag, Z.mul_1_r in HQ.
        rewrite Hee.
        rewrite HQ. pose proof (digits2_pos_lower m) as Hlo.
        apply Z.le_trans with (2 ^ (Zpos (digits2_pos m) - 1)); [|exact Hlo].
        apply Z.pow_le_mono_r; lia. }
    assert (H2 : 0 < q2 * 2 ^ (t + 149)).
    { apply Z.mul_pos_pos; [lia|apply pow2_pos; lia]. }
    pose proof (pow2_pos 277 ltac:(lia)) as H3.
    destruct (binary_round_aux prec emax false (Zpos Q) ez loc_Exact);
      try reflexivity. cbn [ival] in Hv. lia. }
  destruct s; [|exact Hpos].
  unfold binary_round in *.
  destruct (shl_align m e _) as [mz ez].
  change true with (negb false). rewrite binary_round_aux_opp, is_zero_opp.
  exact Hpos.
Qed.

(** An accumulator that is not [-0.0f] is not turned into [-0.0f] by an
    addition. *)
Lemma fadd_not_neg_zero (x y : float) :
  well_formed x -> well_formed y ->
  is_neg_zero x = false -> is_neg_zero (fadd x y) = false.
Proof.
  intros Wx Wy Hx.
  destruct x as [sx|sx| |sx mx ex], y as [sy|sy| |sy my ey];
    try (destruct sx; try discriminate; destruct sy; reflexivity);
    try reflexivity; try (destruct sx; reflexivity).
  unfold fadd. cbn [SFadd].
  pose proof (proj1 (bounded_spec mx ex) Wx) as (_ & Hex & _).
  pose proof (proj1 (bounded_spec my ey) Wy) as (_ & Hey & _).
  match goal with
  | |- is_neg_zero (binary_normalize _ _ ?z ?e _) = false =>
      destruct z as [|p|p]; cbn [binary_normalize]; [reflexivity| |];
        pose proof (binary_round_nonzero false p e ltac:(lia)) as Hf;
        pose proof (binary_round_nonzero true p e ltac:(lia)) as Ht
  end.
  - destruct (binary_round prec emax false p _) as [[|]| | |]; try reflexivity; discriminate.
  - destruct (binary_round prec emax true p _) as [[|]| | |]; try reflexivity; discriminate.
Qed.

(** Adding a zero of either sign leaves such an accumulator as it is. *)
Lemma fadd_zero_r (x z : float) :
  is_neg_zero x = false -> is_zero z = true -> fadd x z = x.
Proof.
  intros Hx Hz. destruct z as [sz| | |]; try discriminate.
  destruct x as [sx|sx| |sx mx ex]; try reflexivity.
  destruct sx; [discriminate|]. destruct sz; reflexivity.
Qed.

Lemma fmul_zero_zero (a b : float) :
  is_zero a = true -> is_zero b = true -> is_zero (fmul a b) = true.
Proof. destruct a, b; try discriminate; reflexivity. Qed.

Lemma fold_fadd_clean {A : Type} (term : A -> float) (v : list A) :
  Forall (fun a => well_formed (term a)) v ->
  forall acc, well_formed acc -> is_neg_zero acc = false ->
  well_formed (fold_left (fun acc a => fadd acc (term a)) v acc) /\
  is_neg_zero (fold_left (fun acc a => fadd acc (term a)) v acc) = false.
Proof.
  induction 1 as [|a v Ha _ IH]; intros acc W N; cbn [fold_left]; [split; assumption|].
  apply IH; [apply fadd_well_formed; assumption|apply fadd_not_neg_zero; assumption].
Qed.

(** A term that is a zero, anywhere in a sum, contributes nothing. *)
Lemma fold_fadd_skip {A : Type} (term : A -> float) (before after : list A) (z : A) :
  Forall (fun a => well_formed (term a)) before -> is_zero (term z) = true ->
  fold_left (fun acc a => fadd acc (term a)) (before ++ z :: after) zero =
  fold_left (fun acc a => fadd acc (term a)) (before ++ after) zero.
Proof.
  intros Hb Hz. rewrite !fold_left_app. cbn [fold_left].
  destruct (fold_fadd_clean term before Hb zero eq_refl eq_refl) as [_ N].
  rewrite (fadd_zero_r _ _ N Hz). reflexivity.
Qed.

Lemma combine_app_same {A B : Type} (a1 b1 : list A) (a2 b2 : list B) :
  length a1 = length a2 ->
  combine (a1 ++ b1) (a2 ++ b2) = combine a1 a2 ++ combine b1 b2.
Proof.
  revert a2. induction a1 as [|x a1 IH]; intros [|y a2] H; try discriminate H;
    [reflexivity|]. cbn [app combine]. f_equal. apply IH. injection H as H. exact H.
Qed.

Lemma Forall_combine_well_formed (a1 a2 : list float) :
  Forall well_formed a1 -> Forall well_formed a2 ->
  Forall (fun ab => well_formed (fmul (fst ab) (snd ab))) (combine a1 a2).
Proof.
  intros H1. revert a2. induction H1 as [|x a1 Hx _ IH]; intros a2 H2; [constructor|].
  destruct H2 as [|y a2 Hy H2]; [constructor|]. cbn [combine]. constructor.
  - cbn [fst snd]. apply fmul_well_formed; assumption.
  - apply IH, H2.
Qed.

Lemma squared_norm_skip (before after : list float) (z : float) :
  Forall well_formed before -> is_zero z = true ->
  squared_norm (before ++ z :: after) = squared_norm (before ++ after).
Proof.
  intros Hb Hz. apply (fold_fadd_skip (fun a => fmul a a)).
  - rewrite Forall_forall in *. intros a Ha. apply fmul_well_formed; auto.
  - apply fmul_zero_zero; assumption.
Qed.

Lemma dot_product_skip (a1 b1 a2 b2 : list float) (z1 z2 : float) :
  Forall well_formed a1 -> Forall well_formed a2 -> length a1 = length a2 ->
  is_zero z1 = true -> is_zero z2 = true ->
  dot_product (a1 ++ z1 :: b1) (a2 ++ z2 :: b2) = dot_product (a1 ++ b1) (a2 ++ b2).
Proof.
  intros W1 W2 Hl Z1 Z2. unfold dot_product.
  rewrite !combine_app_same by exact Hl. cbn [combine].
  apply (fold_fadd_skip (fun ab => fmul (fst ab) (snd ab))).
  - apply Forall_combine_well_formed; assumption.
  - apply fmul_zero_zero; assumption.
Qed.

(** X13. A dimension in which both vectors hold a zero (of either sign)
    contributes nothing: removing it changes neither the cosine similarity
    nor the influence score.  The three running sums start from [+0.0f] and
    so never hold [-0.0f], which is what lets an added zero leave them as
    they are. *)
Theorem zero_dimension_contributes_nothing (a1 b1 a2 b2 : list float)
  (z1 z2 : float) (size : Z) (c : float) :
  Forall well_formed a1 -> Forall well_formed a2 -> length a1 = length a2 ->
  is_zero z1 = true -> is_zero z2 = true ->
  Z.of_nat (length (a1 ++ b1)) = size -> Z.of_nat (length (a2 ++ b2)) = size ->
  cosine_similarity (a1 ++ z1 :: b1) (a2 ++ z2 :: b2) (size + 1) =
    cosine_similarity (a1 ++ b1) (a2 ++ b2) size /\
  calculate_influence_tensor (a1 ++ z1 :: b1) (a2 ++ z2 :: b2) (size + 1) c =
    calculate_influence_tensor (a1 ++ b1) (a2 ++ b2) size c.
Proof.
  intros W1 W2 Hl Z1 Z2 H1 H2.
  assert (H : cosine_similarity (a1 ++ z1 :: b1) (a2 ++ z2 :: b2) (size + 1) =
              cosine_similarity (a1 ++ b1) (a2 ++ b2) size).
  { rewrite (cosine_similarity_full (a1 ++ b1) (a2 ++ b2) size H1 H2).
    rewrite (cosine_similarity_full (a1 ++ z1 :: b1) (a2 ++ z2 :: b2) (size + 1)).
    - rewrite (dot_product_skip a1 b1 a2 b2 z1 z2 W1 W2 Hl Z1 Z2).
      rewrite (squared_norm_skip a1 b1 z1 W1 Z1), (squared_norm_skip a2 b2 z2 W2 Z2).
      reflexivity.
    - rewrite length_app in *. cbn [length]. lia.
    - rewrite length_app in *. cbn [length]. lia. }
  split; [exact H|]. unfold calculate_influence_tensor. rewrite H. reflexivity.
Qed.

Lemma zero_dimension_contributes_nothing_witness :
  cosine_similarity ([of_Z 1] ++ neg_zero :: [of_Z 2]) ([of_Z 3] ++ zero :: [of_Z (-1)]) (2 + 1) =
    cosine_similarity ([of_Z 1] ++ [of_Z 2]) ([of_Z 3] ++ [of_Z (-1)]) 2 /\
  calculate_influence_tensor ([of_Z 1] ++ neg_zero :: [of_Z 2])
      ([of_Z 3] ++ zero :: [of_Z (-1)]) (2 + 1) (of_Z 5) =
    calculate_influence_tensor ([of_Z 1] ++ [of_Z 2]) ([of_Z 3] ++ [of_Z (-1)]) 2 (of_Z 5).
Proof.
  apply (zero_dimension_contributes_nothing [of_Z 1] [of_Z 2] [of_Z 3] [of_Z (-1)]
           neg_zero zero 2 (of_Z 5)); try reflexivity; repeat constructor.
Defined.

(** X14. A parent whose success probability is exactly [1.0f] contributes
    nothing: removing it leaves the result of [propagate_risk] as it is,
    because multiplying a binary32 number by [1.0f] is exact. *)
Theorem certain_parent_contributes_nothing (f m : float) (before after : list float)
  (k : Z) :
  Forall well_formed before -> Z.of_nat (length (before ++ after)) = k ->
  propagate_risk f m (before ++ one :: after) (k + 1) =
  propagate_risk f m (before ++ after) k.
Proof.
  intros W Hk. rewrite (propagate_risk_full f m (before ++ after) k Hk).
  rewrite (propagate_risk_full f m (before ++ one :: after) (k + 1)).
  - unfold product. rewrite !fold_left_app. cbn [fold_left].
    rewrite fmul_one_r; [reflexivity|].
    apply fold_fmul_well_formed; [exact W|reflexivity].
  - rewrite length_app in *. cbn [length]. lia.
Qed.

Lemma certain_parent_contributes_nothing_witness :
  propagate_risk (decimal 2 10) one ([decimal 9 10] ++ one :: [decimal 8 10]) (2 + 1) =
  propagate_risk (decimal 2 10) one ([decimal 9 10] ++ [decimal 8 10]) 2.
Proof.
  apply (certain_parent_contributes_nothing (decimal 2 10) one [decimal 9 10] [decimal 8 10] 2);
    try reflexivity; repeat constructor.
Defined.

(* ===================================================================== *)
(** ** Changing the sign of a vector *)
(* ===================================================================== *)

Lemma SFopp_involutive (x : float) : SFopp (SFopp x) = x.
Proof. destruct x as [s|s| |s m e]; cbn [SFopp]; rewrite ?negb_involutive; reflexivity. Qed.

Lemma fmul_opp_l (x y : float) : fmul (SFopp x) y = SFopp (fmul x y).
Proof. rewrite (fmul_comm (SFopp x) y), fmul_opp_r, (fmul_comm y x). reflexivity. Qed.

Lemma fmul_opp_opp (x y : float) : fmul (SFopp x) (SFopp y) = fmul x y.
Proof. rewrite fmul_opp_l, fmul_opp_r. apply SFopp_involutive. Qed.

Lemma binary_round_opp (s : bool) (m : positive) (e : Z) :
  binary_round prec emax (negb s) m e = SFopp (binary_round prec emax s m e).
Proof.
  unfold binary_round. destruct (shl_align m e _) as [mz ez]. apply binary_round_aux_opp.
Qed.

Lemma binary_normalize_opp (z e : Z) :
  same_up_to_zero_sign (binary_normalize prec emax (- z) e false)
                       (SFopp (binary_normalize prec emax z e false)).
Proof.
  destruct z as [|p|p]; cbn [Z.opp binary_normalize].
  - right. split; reflexivity.
  - left. apply (binary_round_opp false).
  - left. rewrite (binary_round_opp false), SFopp_involutive. reflexivity.
Qed.

Lemma fadd_opp (x y : float) :
  same_up_to_zero_sign (fadd (SFopp x) (SFopp y)) (SFopp (fadd x y)).
Proof.
  destruct x as [sx|sx| |sx mx ex], y as [sy|sy| |sy my ey];
    try (left; reflexivity);
    try (destruct sx, sy; (left; reflexivity) || (right; split; reflexivity)).
  unfold fadd. cbn [SFadd SFopp].
  match goal with
  | |- same_up_to_zero_sign (binary_normalize _ _ ?a ?e _)
                            (SFopp (binary_normalize _ _ ?b ?e _)) =>
      replace a with (- b) by (destruct sx, sy; cbn [negb cond_Zopp]; lia)
  end.
  apply binary_normalize_opp.
Qed.

Lemma fadd_zero_l (z t : float) : is_zero z = true -> is_zero t = false -> fadd z t = t.
Proof. destruct z, t; try discriminate; reflexivity. Qed.

Lemma fadd_zeros (z t : float) :
  is_zero z = true -> is_zero t = true -> is_zero (fadd z t) = true.
Proof. destruct z as [[|]| | |], t as [[|]| | |]; try discriminate; reflexivity. Qed.

(** One step of a sum whose terms are negated. *)
Lemma fadd_opp_step (acc' acc t : float) :
  same_up_to_zero_sign acc' (SFopp acc) ->
  same_up_to_zero_sign (fadd acc' (SFopp t)) (SFopp (fadd acc t)).
Proof.
  intros [->|[Z' Z0]]; [apply fadd_opp|].
  rewrite is_zero_opp in Z0.
  destruct (is_zero t) eqn:Zt.
  - right. split; [apply fadd_zeros; [exact Z'|rewrite is_zero_opp; exact Zt]|].
    rewrite is_zero_opp. apply fadd_zeros; assumption.
  - left. rewrite (fadd_zero_l acc' (SFopp t) Z') by (rewrite is_zero_opp; exact Zt).
    rewrite (fadd_zero_l acc t Z0 Zt). reflexivity.
Qed.

Lemma dot_product_opp_l (v1 v2 : list float) :
  same_up_to_zero_sign (dot_product (map SFopp v1) v2) (SFopp (dot_product v1 v2)).
Proof.
  unfold dot_product.
  assert (H0 : same_up_to_zero_sign zero (SFopp zero)) by (right; split; reflexivity).
  revert H0. generalize zero at 1 3. generalize zero.
  revert v2. induction v1 as [|a v1 IH]; intros v2 acc acc' H; [exact H|].
  destruct v2 as [|b v2]; [exact H|].
  cbn [map combine fold_left fst snd]. apply IH.
  rewrite fmul_opp_l. apply fadd_opp_step, H.
Qed.

Lemma squared_norm_opp (v : list float) : squared_norm (map SFopp v) = squared_norm v.
Proof.
  unfold squared_norm. generalize zero.
  induction v as [|a v IH]; intros acc; [reflexivity|].
  cbn [map fold_left]. rewrite fmul_opp_opp. apply IH.
Qed.

Lemma dot_product_opp_opp (v1 v2 : list float) :
  dot_product (map SFopp v1) (map SFopp v2) = dot_product v1 v2.
Proof.
  unfold dot_product. generalize zero.
  revert v2. induction v1 as [|a v1 IH]; intros v2 acc; [reflexivity|].
  destruct v2 as [|b v2]; [reflexivity|].
  cbn [map combine fold_left fst snd]. rewrite fmul_opp_opp. apply IH.
Qed.

Lemma fdiv_opp_l (x y : float) : fdiv (SFopp x) y = SFopp (fdiv x y).
Proof.
  destruct x as [sx|sx| |sx mx ex], y as [sy|sy| |sy my ey];
    unfold fdiv; cbn [SFdiv SFopp]; try reflexivity;
    try (destruct sx, sy; reflexivity).
  destruct (SFdiv_core_binary prec emax (Zpos mx) ex (Zpos my) ey) as [[q ez] l].
  replace (xorb (negb sx) sy) with (negb (xorb sx sy)) by (destruct sx, sy; reflexivity).
  apply binary_round_aux_opp.
Qed.

Lemma fdiv_opp_up_to_zero_sign (x' x y : float) :
  same_up_to_zero_sign x' (SFopp x) ->
  same_up_to_zero_sign (fdiv x' y) (SFopp (fdiv x y)).
Proof.
  intros [->|[Z' Z0]]; [left; apply fdiv_opp_l|].
  rewrite is_zero_opp in Z0.
  destruct x' as [s'| | |]; try discriminate. destruct x as [s| | |]; try discriminate.
  destruct y as [sy|sy| |sy my ey];
    (left; reflexivity) || (right; split; reflexivity).
Qed.

Lemma map_length_Z {A B : Type} (f : A -> B) (v : list A) (n : Z) :
  Z.of_nat (length v) = n -> Z.of_nat (length (map f v)) = n.
Proof. rewrite length_map. trivial. Qed.

(** X15. Changing the sign of every component of both vectors changes
    nothing, and changing the sign of one vector changes the sign of the
    cosine similarity, exactly: the operations are symmetric under negation.
    Only a similarity that is a zero may keep its sign, since a sum that
    cancels is [+0.0f] whichever way the terms are signed. *)
Theorem cosine_similarity_sign_symmetry (v1 v2 : list float) (size : Z) :
  Z.of_nat (length v1) = size -> Z.of_nat (length v2) = size ->
  cosine_similarity (map SFopp v1) (map SFopp v2) size = cosine_similarity v1 v2 size /\
  exists r r',
    cosine_similarity v1 v2 size = Some r /\
    cosine_similarity (map SFopp v1) v2 size = Some r' /\
    same_up_to_zero_sign r' (SFopp r) /\
    (is_zero r = false -> r' = SFopp r).
Proof.
  intros H1 H2.
  rewrite (cosine_similarity_full v1 v2 size H1 H2).
  rewrite (cosine_similarity_full (map SFopp v1) (map SFopp v2) size
             (map_length_Z _ _ _ H1) (map_length_Z _ _ _ H2)).
  rewrite (cosine_similarity_full (map SFopp v1) v2 size (map_length_Z _ _ _ H1) H2).
  rewrite dot_product_opp_opp, !squared_norm_opp.
  split; [reflexivity|]. do 2 eexists. split; [reflexivity|]. split; [reflexivity|].
  assert (H : same_up_to_zero_sign
                (cosine_result (mk_sums (dot_product (map SFopp v1) v2)
                                        (squared_norm v1) (squared_norm v2)))
                (SFopp (cosine_result (mk_sums (dot_product v1 v2)
                                        (squared_norm v1) (squared_norm v2))))).
  { unfold cosine_result. cbn [dot norm_v1 norm_v2].
    destruct (_ || _); [right; split; reflexivity|].
    apply fdiv_opp_up_to_zero_sign, dot_product_opp_l. }
  split; [exact H|]. intros Hz. destruct H as [H|[_ H]]; [exact H|].
  rewrite is_zero_opp, Hz in H. discriminate.
Qed.

Lemma cosine_similarity_sign_symmetry_witness :
  cosine_similarity (map SFopp [of_Z 1; of_Z 2]) (map SFopp [of_Z 3; of_Z (-1)]) 2 =
    cosine_similarity [of_Z 1; of_Z 2] [of_Z 3; of_Z (-1)] 2 /\
  exists r r',
    cosine_similarity [of_Z 1; of_Z 2] [of_Z 3; of_Z (-1)] 2 = Some r /\
    cosine_similarity (map SFopp [of_Z 1; of_Z 2]) [of_Z 3; of_Z (-1)] 2 = Some r' /\
    same_up_to_zero_sign r' (SFopp r) /\
    (is_zero r = false -> r' = SFopp r).
Proof.
  apply (cosine_similarity_sign_symmetry [of_Z 1; of_Z 2] [of_Z 3; of_Z (-1)] 2);
    reflexivity.
Defined.

(* ===================================================================== *)
(** ** The range of the local success term *)
(* ===================================================================== *)

(** X16. The local success term is clamped on one side only.  It is never
    negative and never a NaN; it is at most [1] when the failure product
    [local_failure_prob * multiplier] is not negative, and at least [1] when
    that product is negative, so that a node without parents then succeeds
    with a "probability" of [1] or more. *)
Theorem local_success_term_range (f m : float) (parents : list float) (k : Z) :
  well_formed f -> well_formed m -> Z.of_nat (length parents) = k ->
  exists l,
    l = local_p_success f m /\
    propagate_risk f m parents k = Some (fmul l (product parents)) /\
    propagate_risk f m [] 0 = Some l /\
    fleb zero l = true /\
    (fleb zero (fmul f m) = true -> fleb l one = true) /\
    (fltb (fmul f m) zero = true -> fleb one l = true).
Proof.
  intros Hf Hm Hk. exists (local_p_success f m). split; [reflexivity|].
  split; [apply propagate_risk_full, Hk|].
  assert (Wx : well_formed (fmul f m)) by auto with binary32.
  destruct (local_term_nonneg (fmul f m) Wx) as (Wl & Nl & Pl).
  fold (local_p_success f m) in Wl, Nl, Pl.
  split.
  { rewrite (propagate_risk_full f m [] 0 eq_refl). unfold product. cbn [fold_left].
    rewrite (fmul_one_r _ Wl). reflexivity. }
  split; [apply ival_le_fleb; try assumption; reflexivity|]. split.
  - intros H0. apply ival_le_fleb; try assumption; try reflexivity.
    change (ival one) with (ival (fsub one (fmin one zero))).
    apply local_term_antitone; [reflexivity|exact Wx|exact H0].
  - intros Hneg. apply ival_le_fleb; try assumption; try reflexivity.
    change (ival one) with (ival (fsub one (fmin one zero))).
    apply local_term_antitone; [exact Wx|reflexivity|].
    unfold fltb, SFltb in Hneg. unfold fleb, SFleb.
    destruct (SFcompare (fmul f m) zero) as [[| |]|]; try discriminate. reflexivity.
Qed.

Lemma local_success_term_range_witness :
  exists l,
    l = local_p_success (of_Z (-2)) one /\
    propagate_risk (of_Z (-2)) one [decimal 9 10] 1 = Some (fmul l (product [decimal 9 10])) /\
    propagate_risk (of_Z (-2)) one [] 0 = Some l /\
    fleb zero l = true /\
    (fleb zero (fmul (of_Z (-2)) one) = true -> fleb l one = true) /\
    (fltb (fmul (of_Z (-2)) one) zero = true -> fleb one l = true).
Proof.
  apply (local_success_term_range (of_Z (-2)) one [decimal 9 10] 1); reflexivity.
Defined.

(* ===================================================================== *)
(** ** A squared norm that overflows *)
(* ===================================================================== *)

Lemma fsqrt_nn (x : float) :
  nn x -> feqb x zero = false ->
  x = nan \/ fsqrt x = infinity \/
  exists m e, fsqrt x = S754_finite false m e.
Proof.
  intros Hx Hz.
  destruct (nn_cases x Hx) as [->|[[s ->]|[->|(m & e & -> & B)]]].
  - left. reflexivity.
  - destruct s; discriminate.
  - right. left. reflexivity.
  - right. right. destruct (fsqrt_bounds m e B) as (S & e' & Hs & _).
    exists S, e'. exact Hs.
Qed.

Lemma fdiv_by_infinity_or_nan (x d : float) :
  d = nan \/ d = infinity ->
  (is_zero (fdiv x d) = true \/ fdiv x d = nan) /\
  (d = infinity -> is_finite x = true -> is_zero (fdiv x d) = true).
Proof.
  intros [->| ->]; destruct x as [s|s| |s m e]; split;
    try (intros; discriminate); try (right; reflexivity); try (left; reflexivity);
    intros; reflexivity.
Qed.

(** X17. When a squared norm overflows to infinity the similarity carries
    no information: the result is a zero or a NaN, and it is a zero as soon
    as the dot product is finite and the other squared norm is not a NaN,
    however well the two vectors are aligned. *)
Theorem cosine_similarity_norm_overflow (v1 v2 : list float) (size : Z) :
  Forall well_formed v1 -> Forall well_formed v2 ->
  Z.of_nat (length v1) = size -> Z.of_nat (length v2) = size ->
  squared_norm v1 = infinity \/ squared_norm v2 = infinity ->
  exists r,
    cosine_similarity v1 v2 size = Some r /\
    (is_zero r = true \/ r = nan) /\
    (is_finite (dot_product v1 v2) = true ->
     is_nan (squared_norm v1) = false -> is_nan (squared_norm v2) = false ->
     is_zero r = true).
Proof.
  intros W1 W2 H1 H2 Hinf.
  rewrite (cosine_similarity_full v1 v2 size H1 H2). eexists. split; [reflexivity|].
  unfold cosine_result. cbn [dot norm_v1 norm_v2].
  pose proof (squared_norm_nn v1 W1) as N1. pose proof (squared_norm_nn v2 W2) as N2.
  destruct (feqb (squared_norm v1) zero) eqn:Z1; [split; intros; left + idtac; reflexivity|].
  destruct (feqb (squared_norm v2) zero) eqn:Z2; [split; intros; left + idtac; reflexivity|].
  cbn [orb].
  assert (Hd : (fmul (fsqrt (squared_norm v1)) (fsqrt (squared_norm v2)) = nan \/
                fmul (fsqrt (squared_norm v1)) (fsqrt (squared_norm v2)) = infinity) /\
               (is_nan (squared_norm v1) = false -> is_nan (squared_norm v2) = false ->
                fmul (fsqrt (squared_norm v1)) (fsqrt (squared_norm v2)) = infinity)).
  { destruct Hinf as [E|E].
    - destruct (fsqrt_nn _ N2 Z2) as [S2|[S2|(m & e & S2)]]; rewrite E, S2; split;
        try (left; reflexivity); try (right; reflexivity); try (intros; reflexivity).
      intros _ Hn. discriminate Hn.
    - destruct (fsqrt_nn _ N1 Z1) as [S1|[S1|(m & e & S1)]]; rewrite E, S1; split;
        try (left; reflexivity); try (right; reflexivity); try (intros; reflexivity).
      intros Hn _. discriminate Hn. }
  destruct Hd as [Hd Hd'].
  destruct (fdiv_by_infinity_or_nan (dot_product v1 v2) _ Hd) as [Ha Hb].
  split; [exact Ha|]. intros Fd Hn1 Hn2. apply Hb; [apply Hd'; assumption|exact Fd].
Qed.

Lemma cosine_similarity_norm_overflow_witness :
  exists r,
    cosine_similarity [of_scaled 1 100] [one] 1 = Some r /\
    (is_zero r = true \/ r = nan) /\
    (is_finite (dot_product [of_scaled 1 100] [one]) = true ->
     is_nan (squared_norm [of_scaled 1 100]) = false -> is_nan (squared_norm [one]) = false ->
     is_zero r = true).
Proof.
  apply (cosine_similarity_norm_overflow [of_scaled 1 100] [one] 1);
    try reflexivity; try (repeat constructor).
Defined.
